(** * Mushguard: the capture / submit / patch pipeline of [static/js/base.js]

    A shallow embedding of the camera part of [base.js]: the handlers that
    the script registers at [DOMContentLoaded] become functions on an
    explicit page state, the promises they leave pending become entries of
    that state, and the host (user clicks, camera grants, network replies,
    script loads) drives the page through events. *)

From stdpp Require Import base option list strings pretty.
From Stdlib Require Import Lia.

Open Scope string_scope.
Open Scope list_scope.
Open Scope nat_scope.
Set Warnings "-register-all".

(** ** The document tree *)

Module Dom.

(** An element carries its tag, its class list, its other attributes and
    its children; text nodes carry their data. *)
Inductive node :=
| Elem (tag : string) (classes : list string)
       (attrs : list (string * string)) (kids : list node)
| Text (data : string).

Definition path := list nat.

Definition children (n : node) : list node :=
  match n with
  | Elem _ _ _ kids => kids
  | Text _ => []
  end.

Definition with_children (n : node) (kids : list node) : node :=
  match n with
  | Elem t c a _ => Elem t c a kids
  | Text d => Text d
  end.

Definition is_element (n : node) : bool :=
  match n with
  | Elem _ _ _ _ => true
  | Text _ => false
  end.

Fixpoint assoc (k : string) (l : list (string * string)) : option string :=
  match l with
  | [] => None
  | (k', v) :: l' => if String.eqb k k' then Some v else assoc k l'
  end.

Definition getAttribute (k : string) (n : node) : option string :=
  match n with
  | Elem _ _ a _ => assoc k a
  | Text _ => None
  end.

(** An IDL string property that reflects an attribute: the empty string
    when the attribute is not there ([sc.src], [l.href], [input.value]). *)
Definition prop (k : string) (n : node) : string :=
  default "" (getAttribute k n).

(** Selectors of the script, as predicates on a node. *)
Definition has_class (c : string) (n : node) : bool :=
  match n with
  | Elem _ cs _ _ => existsb (String.eqb c) cs
  | Text _ => false
  end.

Definition has_tag (t : string) (n : node) : bool :=
  match n with
  | Elem t' _ _ _ => String.eqb t t'
  | Text _ => false
  end.

Definition has_attr (k v : string) (n : node) : bool :=
  match getAttribute k n with
  | Some v' => String.eqb v v'
  | None => false
  end.

(** First success of [f] over a list, with the index where it occurred. *)
Definition first_in {A B} (f : A → option B) : list A → option (nat * B) :=
  fix go l :=
    match l with
    | [] => None
    | k :: l' =>
        match f k with
        | Some b => Some (0, b)
        | None =>
            match go l' with
            | Some (i, b) => Some (S i, b)
            | None => None
            end
        end
    end.

(** [within sel n]: the first descendant of [n] matching [sel], in document
    order (preorder), as a path below [n]. *)
Fixpoint within (sel : node → bool) (n : node) : option path :=
  match n with
  | Text _ => None
  | Elem _ _ _ kids =>
      match first_in (λ k, if sel k then Some [] else within sel k) kids with
      | Some (i, p) => Some (i :: p)
      | None => None
      end
  end.

(** The same search over a forest; [within sel n] is [query sel] on the
    children of [n]. *)
Definition hit (sel : node → bool) (k : node) : option path :=
  if sel k then Some [] else within sel k.

Definition query (sel : node → bool) (l : list node) : option path :=
  match first_in (hit sel) l with
  | Some (i, p) => Some (i :: p)
  | None => None
  end.

(** All the descendants of a node, in document order. *)
Fixpoint descendants (n : node) : list node :=
  match n with
  | Text _ => []
  | Elem _ _ _ kids => flat_map (λ k, k :: descendants k) kids
  end.

(** [n.querySelectorAll(sel)]: a static list, in document order, of the
    descendants of [n] that match. *)
Definition querySelectorAll (sel : node → bool) (n : node) : list node :=
  List.filter sel (descendants n).

(** [n.textContent]: the text of all the text nodes below [n]. *)
Fixpoint textContent (n : node) : string :=
  match n with
  | Text d => d
  | Elem _ _ _ kids => String.concat "" (List.map textContent kids)
  end.

(** Paths address a node of a forest: [i :: q] is the node reached by [q]
    below the [i]-th tree (the tree itself when [q] is empty). *)
Fixpoint node_at (p : path) (l : list node) : option node :=
  match p with
  | [] => None
  | i :: q =>
      match l !! i with
      | None => None
      | Some n =>
          match q with
          | [] => Some n
          | _ => node_at q (children n)
          end
      end
  end.

(** [replace_at p new l]: the node at [p] gives its place to [new]. *)
Fixpoint replace_at (p : path) (new : node) (l : list node) : list node :=
  match p with
  | [] => l
  | i :: q =>
      match q with
      | [] => <[i := new]> l
      | _ => alter (λ n, with_children n (replace_at q new (children n))) i l
      end
  end.

(** [insert_after p new l]: [new] becomes the next sibling of the node at
    [p]. *)
Fixpoint insert_after (p : path) (new : node) (l : list node) : list node :=
  match p with
  | [] => l
  | i :: q =>
      match q with
      | [] => take (S i) l ++ new :: drop (S i) l
      | _ => alter (λ n, with_children n (insert_after q new (children n))) i l
      end
  end.

(** The place of the next sibling of the node at [p]. *)
Fixpoint next_sibling (p : path) : path :=
  match p with
  | [] => []
  | i :: q =>
      match q with
      | [] => [S i]
      | _ => i :: next_sibling q
      end
  end.

(** Where the node that was at [q] is once a node has been inserted after
    the node at [p]: the later siblings of [p], and what is below them,
    move one place to the right; all else stays. *)
Fixpoint after_insert (p q : path) : path :=
  match p, q with
  | i :: p', j :: q' =>
      match p' with
      | [] => if Nat.ltb i j then S j :: q' else q
      | _ => if Nat.eqb i j then j :: after_insert p' q' else q
      end
  | _, _ => q
  end.

(** A selector that looks at the element only, not at what is below it. *)
Definition shallow (sel : node → bool) : Prop :=
  ∀ n kids, sel (with_children n kids) = sel n.

(** The live document: the content of its [head] and of its [body].  The
    [html], [head] and [body] elements themselves are structure: they carry
    no class and are never what a selector of the script finds. *)
Record document := Document { doc_head : list node; doc_body : list node }.

Inductive loc :=
| InHead (p : path)
| InBody (p : path).

(** [document.querySelector(sel)]: the first match in document order, the
    head before the body. *)
Definition querySelector (sel : node → bool) (d : document) : option loc :=
  match query sel (doc_head d) with
  | Some p => Some (InHead p)
  | None =>
      match query sel (doc_body d) with
      | Some p => Some (InBody p)
      | None => None
      end
  end.

Definition deref (d : document) (l : loc) : option node :=
  match l with
  | InHead p => node_at p (doc_head d)
  | InBody p => node_at p (doc_body d)
  end.

(** [old.replaceWith(new)] for the element [old] found at [l]. *)
Definition replaceWith (l : loc) (new : node) (d : document) : document :=
  match l with
  | InHead p => Document (replace_at p new (doc_head d)) (doc_body d)
  | InBody p => Document (doc_head d) (replace_at p new (doc_body d))
  end.

(** [anchor.insertAdjacentElement('afterend', new)] for the element
    [anchor] found at [l]. *)
Definition insertAdjacentElement_afterend
    (l : loc) (new : node) (d : document) : document :=
  match l with
  | InHead p => Document (insert_after p new (doc_head d)) (doc_body d)
  | InBody p => Document (doc_head d) (insert_after p new (doc_body d))
  end.

(** [document.head.appendChild(n)] and [document.body.appendChild(n)]. *)
Definition head_appendChild (n : node) (d : document) : document :=
  Document (doc_head d ++ [n]) (doc_body d).

Definition body_appendChild (n : node) (d : document) : document :=
  Document (doc_head d) (doc_body d ++ [n]).

Definition loc_map (f : path → path) (l : loc) : loc :=
  match l with
  | InHead p => InHead (f p)
  | InBody p => InBody (f p)
  end.




(** All the elements of the document, in document order. *)
Definition all_nodes (d : document) : list node :=
  flat_map (λ k, k :: descendants k) (doc_head d)
  ++ flat_map (λ k, k :: descendants k) (doc_body d).

End Dom.

(** ** The page state *)

Module Page.
Import Dom.

#[local] Set Primitive Projections.

(** Which of the elements that the script looks up at [DOMContentLoaded]
    exist in the page: [true] where [getElementById] / [querySelector]
    returned an element, [false] where it returned [null].  A second lookup
    of the same id (as [switchToUploadMode] does) finds the same element. *)
Record page_elements := PageElements {
  uploadModeBtn : bool;
  cameraModeBtn : bool;
  uploadMode : bool;
  cameraMode : bool;
  video : bool;
  canvas : bool;
  startButton : bool;
  captureButton : bool;
  cameraPreview : bool;
  cameraPreviewContainer : bool;
  cameraForm : bool;
  cameraImageInput : bool
}.

(** The properties of those elements that the handlers read or write.  A
    media stream is named by the [getUserMedia] call that returned it, a
    captured frame by the number of the capture. *)
Record controls := Controls {
  uploadModeBtn_active : bool;
  cameraModeBtn_active : bool;
  uploadMode_display : string;
  cameraMode_display : string;
  startButton_disabled : bool;
  startButton_innerHTML : string;
  captureButton_disabled : bool;
  video_srcObject : option nat;
  canvas_width : nat;
  canvas_height : nat;
  canvas_image : option nat;
  cameraPreview_src : string;
  cameraPreviewContainer_display : string;
  cameraImageInput_value : string
}.

Definition set_uploadModeBtn_active (v : bool) (x : controls) : controls :=
  let '(Controls _ b c d e f g h i j k l m n) := x in
  Controls v b c d e f g h i j k l m n.
Definition set_cameraModeBtn_active (v : bool) (x : controls) : controls :=
  let '(Controls a _ c d e f g h i j k l m n) := x in
  Controls a v c d e f g h i j k l m n.
Definition set_uploadMode_display (v : string) (x : controls) : controls :=
  let '(Controls a b _ d e f g h i j k l m n) := x in
  Controls a b v d e f g h i j k l m n.
Definition set_cameraMode_display (v : string) (x : controls) : controls :=
  let '(Controls a b c _ e f g h i j k l m n) := x in
  Controls a b c v e f g h i j k l m n.
Definition set_startButton_disabled (v : bool) (x : controls) : controls :=
  let '(Controls a b c d _ f g h i j k l m n) := x in
  Controls a b c d v f g h i j k l m n.
Definition set_startButton_innerHTML (v : string) (x : controls) : controls :=
  let '(Controls a b c d e _ g h i j k l m n) := x in
  Controls a b c d e v g h i j k l m n.
Definition set_captureButton_disabled (v : bool) (x : controls) : controls :=
  let '(Controls a b c d e f _ h i j k l m n) := x in
  Controls a b c d e f v h i j k l m n.
Definition set_video_srcObject (v : option nat) (x : controls) : controls :=
  let '(Controls a b c d e f g _ i j k l m n) := x in
  Controls a b c d e f g v i j k l m n.
Definition set_canvas_width (v : nat) (x : controls) : controls :=
  let '(Controls a b c d e f g h _ j k l m n) := x in
  Controls a b c d e f g h v j k l m n.
Definition set_canvas_height (v : nat) (x : controls) : controls :=
  let '(Controls a b c d e f g h i _ k l m n) := x in
  Controls a b c d e f g h i v k l m n.
Definition set_canvas_image (v : option nat) (x : controls) : controls :=
  let '(Controls a b c d e f g h i j _ l m n) := x in
  Controls a b c d e f g h i j v l m n.
Definition set_cameraPreview_src (v : string) (x : controls) : controls :=
  let '(Controls a b c d e f g h i j k _ m n) := x in
  Controls a b c d e f g h i j k v m n.
Definition set_cameraPreviewContainer_display (v : string) (x : controls)
    : controls :=
  let '(Controls a b c d e f g h i j k l _ n) := x in
  Controls a b c d e f g h i j k l v n.
Definition set_cameraImageInput_value (v : string) (x : controls) : controls :=
  let '(Controls a b c d e f g h i j k l m _) := x in
  Controls a b c d e f g h i j k l m v.

(** The camera: the [stream] variable of the script, the streams whose
    tracks are running on the hardware ([live]), the [getUserMedia] calls
    not yet settled and the [toBlob] encodings not yet delivered. *)
Record camera := Camera {
  stream : option nat;
  live : list nat;
  gum_pending : list nat;
  gum_calls : nat;
  encodes_pending : list nat;
  captures : nat
}.

Definition set_stream (v : option nat) (x : camera) : camera :=
  let '(Camera _ b c d e f) := x in Camera v b c d e f.
Definition set_live (v : list nat) (x : camera) : camera :=
  let '(Camera a _ c d e f) := x in Camera a v c d e f.
Definition set_gum_pending (v : list nat) (x : camera) : camera :=
  let '(Camera a b _ d e f) := x in Camera a b v d e f.
Definition set_gum_calls (v : nat) (x : camera) : camera :=
  let '(Camera a b c _ e f) := x in Camera a b c v e f.
Definition set_encodes_pending (v : list nat) (x : camera) : camera :=
  let '(Camera a b c d _ f) := x in Camera a b c d v f.
Definition set_captures (v : nat) (x : camera) : camera :=
  let '(Camera a b c d e _) := x in Camera a b c d e v.

(** A multipart form field and the request built from the form. *)
Inductive form_value :=
| FileField (blob_of : string) (filename type : string)
| TextField (value : string).

Record request := Request {
  req_url : string;
  req_method : string;
  req_body : list (string * form_value);
  req_headers : list (string * string)
}.

(** The network: every submit starts a chain named by its number; the chain
    first fetches the blob URL ([blob_fetches]), then posts ([posts]).
    [sent] lists every POST request issued so far. *)
Record network := Network {
  blob_fetches : list (nat * string);
  posts : list nat;
  sent : list request;
  submits : nat
}.

Definition set_blob_fetches (v : list (nat * string)) (x : network) : network :=
  let '(Network _ b c d) := x in Network v b c d.
Definition set_posts (v : list nat) (x : network) : network :=
  let '(Network a _ c d) := x in Network a v c d.
Definition set_sent (v : list request) (x : network) : network :=
  let '(Network a b _ d) := x in Network a b v d.
Definition set_submits (v : nat) (x : network) : network :=
  let '(Network a b c _) := x in Network a b c v.

(** What the loader did to a script: an external one starts to load and
    later settles ([onload] or [onerror]); an inline one runs when its fresh
    element is appended. *)
Inductive activation :=
| Fetch (src : string)
| Settled (src : string) (ok : bool)
| Ran (text : string).

(** A call of [executeScriptsFrom]: the static list [scripts] it iterates
    over and what is left of the iteration.  A call at rest is suspended at
    the [await] on the head of [t_rest], or has finished ([t_rest] empty). *)
Record task := Task { t_scripts : list node; t_rest : list node }.

Record loader := Loader {
  tasks : list task;
  script_log : list (nat * activation)
}.

Definition set_tasks (v : list task) (x : loader) : loader :=
  let '(Loader _ b) := x in Loader v b.
Definition set_script_log (v : list (nat * activation)) (x : loader) : loader :=
  let '(Loader a _) := x in Loader a v.

Record state := State {
  ctl : controls;
  cam : camera;
  net : network;
  ldr : loader;
  doc : document;
  alerts : list string;
  console : list string
}.

Definition upd_ctl (f : controls → controls) (s : state) : state :=
  State (f (ctl s)) (cam s) (net s) (ldr s) (doc s) (alerts s) (console s).
Definition upd_cam (f : camera → camera) (s : state) : state :=
  State (ctl s) (f (cam s)) (net s) (ldr s) (doc s) (alerts s) (console s).
Definition upd_net (f : network → network) (s : state) : state :=
  State (ctl s) (cam s) (f (net s)) (ldr s) (doc s) (alerts s) (console s).
Definition upd_ldr (f : loader → loader) (s : state) : state :=
  State (ctl s) (cam s) (net s) (f (ldr s)) (doc s) (alerts s) (console s).
Definition upd_doc (f : document → document) (s : state) : state :=
  State (ctl s) (cam s) (net s) (ldr s) (f (doc s)) (alerts s) (console s).

(** [alert(msg)] and [console.error(msg)]. *)
Definition alert (msg : string) (s : state) : state :=
  State (ctl s) (cam s) (net s) (ldr s) (doc s) (alerts s ++ [msg]) (console s).
Definition console_error (msg : string) (s : state) : state :=
  State (ctl s) (cam s) (net s) (ldr s) (doc s) (alerts s) (console s ++ [msg]).

End Page.

(** ** The handlers of [base.js] *)

Module Script.
Import Dom Page.

(** Statements in sequence, and a statement under [if (c)]. *)
Notation "s '|>' f" := (f s) (at level 45, left associativity, only parsing).

Definition when (c : bool) (f : state → state) (s : state) : state :=
  if c then f s else s.

(** A JavaScript string in a condition: false exactly when empty. *)
Definition truthy (x : string) : bool := negb (String.eqb x "").

(** [x.includes(sub)]. *)
Definition includes (sub x : string) : bool :=
  match String.index 0 sub x with
  | Some _ => true
  | None => false
  end.

(** [URL.createObjectURL(blob)] for the blob of capture [k]: a fresh,
    non-empty URL. *)
Definition createObjectURL (k : nat) : string :=
  "blob:" +:+ pretty k.

(** [stream.getTracks().forEach(track => track.stop())]: the hardware lets
    go of the stream [h]. *)
Definition stop_tracks (h : nat) (s : state) : state :=
  s |> upd_cam (λ c, set_live (List.filter (λ h', negb (Nat.eqb h' h)) (live c)) c).

Definition dquote : string := String (Ascii.ascii_of_nat 34) EmptyString.
Definition CAMERA_ICON : string :=
  "<i class=" +:+ dquote +:+ "fas fa-camera" +:+ dquote +:+ "></i>".
Definition START_CAMERA_HTML : string := CAMERA_ICON +:+ " Start Camera".
Definition CAMERA_RUNNING_HTML : string := CAMERA_ICON +:+ " Camera Running".
Definition LEAFLET_CSS : string :=
  "https://unpkg.com/leaflet@1.9.4/dist/leaflet.css".

(** The reply to the POST, as the promise chain of the handler sees it. *)
Inductive reply :=
| Reply_ok (html : string)      (* [response.ok], and [response.text()] gave [html] *)
| Reply_ok_unreadable           (* [response.ok], but [response.text()] rejected *)
| Reply_not_ok                  (* [response.ok] is false *)
| Reply_failed.                 (* [fetch] rejected: the transport failed *)

Inductive event :=
| Click_uploadModeBtn
| Click_cameraModeBtn
| Click_startButton
| GetUserMedia_resolved (call : nat)
| GetUserMedia_rejected (call : nat)
| Click_captureButton (videoWidth videoHeight : nat)
| ToBlob_done (capture : nat)
| Submit_cameraForm
| BlobUrl_fetched (sub : nat)
| BlobUrl_failed (sub : nat)
| Post_settled (sub : nat) (r : reply)
| Script_settled (tid : nat) (ok : bool)
| BeforeUnload.

Definition mem (k : nat) (l : list nat) : bool := existsb (Nat.eqb k) l.

Definition remove_id (k : nat) (l : list nat) : list nat :=
  List.filter (λ k', negb (Nat.eqb k' k)) l.

Fixpoint assoc_id {A} (k : nat) (l : list (nat * A)) : option A :=
  match l with
  | [] => None
  | (k', v) :: l' => if Nat.eqb k k' then Some v else assoc_id k l'
  end.

Definition drop_id {A} (k : nat) (l : list (nat * A)) : list (nat * A) :=
  List.filter (λ kv, negb (Nat.eqb (fst kv) k)) l.

(** The URL parser of the platform.  [resolve_url v] is what an IDL property
    that reflects a URL attribute returns for the attribute value [v]: the
    serialisation of [v] parsed against the base URL of the page, or [v]
    itself when it does not parse.  The base URL does not change while the
    page lives. *)
Class UrlParser := resolve_url : string → string.

(** [l.href], [sc.src]: the empty string when the attribute is not there,
    the resolved URL otherwise. *)
Definition url_prop {url_parser : UrlParser} (k : string) (n : node) : string :=
  match getAttribute k n with
  | Some v => resolve_url v
  | None => ""
  end.

(** ASCII lower case, as HTML uses it to compare the values of some
    attributes in selectors. *)
Definition ascii_lower (c : Ascii.ascii) : Ascii.ascii :=
  let n := Ascii.nat_of_ascii c in
  if Nat.leb 65 n && Nat.leb n 90 then Ascii.ascii_of_nat (n + 32) else c.

Fixpoint lower (x : string) : string :=
  match x with
  | EmptyString => EmptyString
  | String c x' => String (ascii_lower c) (lower x')
  end.

(** The attribute selector [[k="v"]] for an attribute whose value an HTML
    document compares without regard to ASCII case ([rel] is one): the
    whole value has to match. *)
Definition has_attr_ci (k v : string) (n : node) : bool :=
  match getAttribute k n with
  | Some v' => String.eqb (lower v) (lower v')
  | None => false
  end.

Section Handlers.

(** The page the script was loaded into: the URL parser of the platform,
    the elements the script found, the URL of the page, and the HTML parser
    of the platform ([new DOMParser().parseFromString(html, 'text/html')],
    which yields a document for every input; tag and attribute names come
    out of it in lower case). *)
Context {url_parser : UrlParser}.
Variable E : page_elements.
Variable location_href : string.
Variable parseFromString : string → document.

(** *** Mode toggle (lines 36-61) *)

Definition switchToUploadMode (s : state) : state :=
  let s := s |> upd_ctl (set_uploadModeBtn_active true)
             |> upd_ctl (set_cameraModeBtn_active false)
             |> when (uploadMode E) (upd_ctl (set_uploadMode_display "block"))
             |> when (cameraMode E) (upd_ctl (set_cameraMode_display "none")) in
  (* Stop camera if running *)
  let s := match stream (cam s) with
           | Some h => s |> stop_tracks h |> upd_cam (set_stream None)
           | None => s
           end in
  s |> when (startButton E)
         (λ s, s |> upd_ctl (set_startButton_disabled false)
                 |> upd_ctl (set_startButton_innerHTML START_CAMERA_HTML))
    |> when (captureButton E) (upd_ctl (set_captureButton_disabled true)).

Definition switchToCameraMode (s : state) : state :=
  s |> upd_ctl (set_cameraModeBtn_active true)
    |> upd_ctl (set_uploadModeBtn_active false)
    |> when (cameraMode E) (upd_ctl (set_cameraMode_display "block"))
    |> when (uploadMode E) (upd_ctl (set_uploadMode_display "none")).

(** *** Start camera (lines 100-117)

    The handler is an async function: the click runs it up to the [await]
    on [getUserMedia], which leaves a pending call; the rest runs when the
    host settles that call. *)

Definition startButton_click (s : state) : state :=
  s |> upd_cam (λ c, c |> set_gum_pending (gum_pending c ++ [gum_calls c])
                       |> set_gum_calls (S (gum_calls c))).

Definition startButton_click_resumed (h : nat) (s : state) : state :=
  s |> upd_cam (set_stream (Some h))
    |> when (video E) (upd_ctl (set_video_srcObject (Some h)))
    |> upd_ctl (set_startButton_disabled true)
    |> when (captureButton E) (upd_ctl (set_captureButton_disabled false))
    |> upd_ctl (set_startButton_innerHTML CAMERA_RUNNING_HTML).

Definition startButton_click_caught (s : state) : state :=
  s |> console_error "Error accessing camera:"
    |> alert "Error accessing camera. Please make sure you have granted camera permissions.".

(** *** Capture photo (lines 122-138) *)

Definition captureButton_click (videoWidth videoHeight : nat) (s : state)
    : state :=
  match stream (cam s) with
  | None => s
  | Some _ =>
      let k := captures (cam s) in
      s |> upd_ctl (set_canvas_width videoWidth)
        |> upd_ctl (set_canvas_height videoHeight)
        |> upd_ctl (set_canvas_image (Some k))
        |> upd_cam (λ c, c |> set_encodes_pending (encodes_pending c ++ [k])
                           |> set_captures (S k))
  end.

(** The callback of [canvas.toBlob], for the blob of capture [k]. *)
Definition toBlob_callback (k : nat) (s : state) : state :=
  let url := createObjectURL k in
  s |> when (cameraPreview E) (upd_ctl (set_cameraPreview_src url))
    |> when (cameraPreviewContainer E)
         (upd_ctl (set_cameraPreviewContainer_display "block"))
    |> when (cameraImageInput E) (upd_ctl (set_cameraImageInput_value url)).

(** *** Camera form submission (lines 143-266) *)

Definition RESULT : node → bool := has_class "analysis-result".
Definition ANCHOR : node → bool := has_class "input-container".

(** Lines 177-189: the result region of the live document [d] is updated
    from the parsed reply [parsed]. *)
Definition patch_result (parsed d : document) : document :=
  let newResult := querySelector RESULT parsed ≫= deref parsed in
  let currentResult := querySelector RESULT d in
  match currentResult, newResult with
  | Some cur, Some new => replaceWith cur new d
  | None, Some new =>
      let inputContainer := querySelector ANCHOR d in
      match inputContainer with
      | Some anchor => insertAdjacentElement_afterend anchor new d
      | None => d
      end
  | _, None => d
  end.

(** Lines 192-201.  Line 194: the elements that the selector
    [link[rel="stylesheet"]] finds, and among them those whose [href]
    property, the resolved URL, is not empty and contains [leaflet]. *)
Definition is_leaflet_stylesheet (l : node) : bool :=
  has_tag "link" l && has_attr_ci "rel" "stylesheet" l
  && truthy (url_prop "href" l) && includes "leaflet" (url_prop "href" l).

Definition ensureLeafletCSS (s : state) : state :=
  let href := LEAFLET_CSS in
  let already := existsb is_leaflet_stylesheet (all_nodes (doc s)) in
  if negb already then
    let link := Elem "link" [] [("rel", "stylesheet"); ("href", href)] [] in
    s |> upd_doc (head_appendChild link)
  else s.

(** The record of what the loader does; [tid] names the call of
    [executeScriptsFrom] that does it. *)
Definition log (tid : nat) (a : activation) (s : state) : state :=
  s |> upd_ldr (λ l, set_script_log (script_log l ++ [(tid, a)]) l).

(** Lines 204-213: a fresh script element for [src] is appended to the
    body, which starts the load; the promise stays pending until the host
    fires [onload] or [onerror]. *)
Definition loadScript (tid : nat) (src : string) (s : state) : state :=
  let el := Elem "script" [] [("src", src); ("async", "")] [] in
  s |> upd_doc (body_appendChild el) |> log tid (Fetch src).

(** Lines 231-233: a fresh inline script element, which runs as it is
    appended. *)
Definition append_inline (tid : nat) (sc : node) (s : state) : state :=
  let text := textContent sc in
  let inline := Elem "script" [] [] (if truthy text then [Text text] else []) in
  s |> upd_doc (body_appendChild inline) |> log tid (Ran text).

(** Lines 222-235: the [for ... of] loop over what is left of [scripts],
    run until it suspends at an [await] (then the script awaited is the
    head of the list returned) or ends (then the list is empty).  A script
    is external when [sc.src], the resolved URL of its [src] attribute, is
    a non-empty string. *)
Fixpoint for_of_scripts (tid : nat) (scripts : list node) (s : state)
    : state * list node :=
  match scripts with
  | [] => (s, [])
  | sc :: rest =>
      if truthy (url_prop "src" sc)
      then (loadScript tid (url_prop "src" sc) s, sc :: rest)
      else for_of_scripts tid rest (append_inline tid sc s)
  end.

(** Lines 216-236, up to the first [await]. *)
Definition executeScriptsFrom (container : option node) (s : state) : state :=
  match container with
  | None => s
  | Some c =>
      let s := ensureLeafletCSS s in
      let scripts := querySelectorAll (has_tag "script") c in
      let tid := length (tasks (ldr s)) in
      let '(s, rest) := for_of_scripts tid scripts s in
      s |> upd_ldr (λ l, set_tasks (tasks l ++ [Task scripts rest]) l)
  end.

(** Lines 225-229 after the [await]: the load of the script at the head of
    task [tid] has settled, and the loop goes on with the next script. *)
Definition executeScriptsFrom_resumed (tid : nat) (ok : bool) (s : state)
    : state :=
  match tasks (ldr s) !! tid with
  | Some (Task scripts (sc :: rest)) =>
      let s := s |> log tid (Settled (url_prop "src" sc) ok)
                 |> when (negb ok)
                      (console_error ("Failed loading script: " +:+ url_prop "src" sc)) in
      let '(s, rest) := for_of_scripts tid rest s in
      s |> upd_ldr (λ l, set_tasks (<[tid := Task scripts rest]> (tasks l)) l)
  | _ => s
  end.

(** Lines 143-151.  The default submission of the form is prevented, so the
    page is not navigated; the first [fetch] reads the blob back from its
    URL. *)
Definition cameraForm_submit (s : state) : state :=
  if negb (truthy (cameraImageInput_value (ctl s))) then
    s |> alert "Please capture a photo first"
  else
    let url := cameraImageInput_value (ctl s) in
    s |> upd_net (λ n, n |> set_blob_fetches (blob_fetches n ++ [(submits n, url)])
                         |> set_submits (S (submits n))).

(** Lines 153-171: the blob behind [url] has been read; the form is built
    and posted. *)
Definition cameraForm_submit_blob (sub : nat) (url : string) (s : state)
    : state :=
  let formData := [("image", FileField url "camera-photo.jpg" "image/jpeg")] in
  let csrfToken :=
    querySelector (has_attr "name" "csrfmiddlewaretoken") (doc s)
      ≫= deref (doc s) in
  let formData :=
    match csrfToken with
    | Some t => formData ++ [("csrfmiddlewaretoken", TextField (prop "value" t))]
    | None => formData
    end in
  let req := Request location_href "POST" formData
               [("X-Requested-With", "XMLHttpRequest")] in
  s |> upd_net (λ n, n |> set_posts (posts n ++ [sub])
                       |> set_sent (sent n ++ [req])).

(** Lines 175-256: the reply was [ok] and its text is [html]. *)
Definition cameraForm_submit_text (html : string) (s : state) : state :=
  (* Update the result section *)
  let s := s |> upd_doc (patch_result (parseFromString html)) in
  (* Run any scripts inside the newly injected result *)
  let injected := querySelector RESULT (doc s) ≫= deref (doc s) in
  let s := executeScriptsFrom injected s in
  (* Reset camera preview *)
  let s := s |> when (cameraPreviewContainer E)
                  (upd_ctl (set_cameraPreviewContainer_display "none"))
             |> upd_ctl (set_cameraImageInput_value "") in
  (* Reset camera controls *)
  let s := match stream (cam s) with
           | Some h => s |> stop_tracks h |> upd_cam (set_stream None)
           | None => s
           end in
  s |> when (startButton E)
         (λ s, s |> upd_ctl (set_startButton_disabled false)
                 |> upd_ctl (set_startButton_innerHTML START_CAMERA_HTML))
    |> when (captureButton E) (upd_ctl (set_captureButton_disabled true)).

(** Lines 261-264. *)
Definition cameraForm_submit_caught (s : state) : state :=
  s |> console_error "Error:"
    |> alert "Error submitting photo. Please try again.".

(** Lines 270-274. *)
Definition beforeunload (s : state) : state :=
  match stream (cam s) with
  | Some h => s |> stop_tracks h
  | None => s
  end.

(** *** The event loop

    What the host can deliver to the page.  A click reaches its handler
    only if the script registered one (the element existed) and, for a
    button, only while the button is not disabled.  A completion reaches
    its continuation only if the operation it names is pending. *)

Definition registered_mode_toggle : bool := uploadModeBtn E && cameraModeBtn E.
Definition registered_start : bool := startButton E.
Definition registered_capture : bool := captureButton E && video E && canvas E.
Definition registered_submit : bool := cameraForm E && cameraImageInput E.

Definition step (e : event) (s : state) : state :=
  match e with
  | Click_uploadModeBtn =>
      if registered_mode_toggle then switchToUploadMode s else s
  | Click_cameraModeBtn =>
      if registered_mode_toggle then switchToCameraMode s else s
  | Click_startButton =>
      if registered_start && negb (startButton_disabled (ctl s))
      then startButton_click s else s
  | GetUserMedia_resolved call =>
      if mem call (gum_pending (cam s)) then
        s |> upd_cam (λ c, c |> set_gum_pending (remove_id call (gum_pending c))
                             |> set_live (live c ++ [call]))
          |> startButton_click_resumed call
      else s
  | GetUserMedia_rejected call =>
      if mem call (gum_pending (cam s)) then
        s |> upd_cam (λ c, set_gum_pending (remove_id call (gum_pending c)) c)
          |> startButton_click_caught
      else s
  | Click_captureButton w h =>
      if registered_capture && negb (captureButton_disabled (ctl s))
      then captureButton_click w h s else s
  | ToBlob_done k =>
      if mem k (encodes_pending (cam s)) then
        s |> upd_cam (λ c, set_encodes_pending (remove_id k (encodes_pending c)) c)
          |> toBlob_callback k
      else s
  | Submit_cameraForm =>
      if registered_submit then cameraForm_submit s else s
  | BlobUrl_fetched sub =>
      match assoc_id sub (blob_fetches (net s)) with
      | Some url =>
          s |> upd_net (λ n, set_blob_fetches (drop_id sub (blob_fetches n)) n)
            |> cameraForm_submit_blob sub url
      | None => s
      end
  | BlobUrl_failed sub =>
      s |> upd_net (λ n, set_blob_fetches (drop_id sub (blob_fetches n)) n)
  | Post_settled sub r =>
      if mem sub (posts (net s)) then
        let s := s |> upd_net (λ n, set_posts (remove_id sub (posts n)) n) in
        match r with
        | Reply_ok html => cameraForm_submit_text html s
        | Reply_ok_unreadable | Reply_not_ok | Reply_failed =>
            cameraForm_submit_caught s
        end
      else s
  | Script_settled tid ok => executeScriptsFrom_resumed tid ok s
  | BeforeUnload => beforeunload s
  end.

Definition run (evs : list event) (s : state) : state :=
  fold_left (λ s e, step e s) evs s.

End Handlers.

(** The page when the script has just registered its handlers: no stream,
    nothing pending, nothing logged; the controls and the document are as
    the HTML of the page made them. *)
Definition initial (c : controls) (d : document) : state :=
  State c (Camera None [] [] 0 [] 0) (Network [] [] [] 0) (Loader [] []) d [] [].

End Script.

(** ** What the claims observe *)

Module Observe.
Import Dom Page Script.

Section WithParser.
Context {url_parser : UrlParser}.

(** The submissions that have not resolved yet: those whose blob is still
    being read and those whose POST is outstanding. *)
Definition in_flight (s : state) : nat :=
  length (blob_fetches (net s)) + length (posts (net s)).

(** The replies that the promise chain treats as a failure: a status that
    is not 2xx, a transport failure, a body that cannot be read. *)
Definition failed (r : reply) : bool :=
  match r with
  | Reply_ok _ => false
  | Reply_ok_unreadable | Reply_not_ok | Reply_failed => true
  end.

Definition SUBMIT_ERROR : string := "Error submitting photo. Please try again.".

(** The activations that one call of [executeScriptsFrom] caused. *)
Definition on_task (tid : nat) (l : list (nat * activation)) : list activation :=
  List.map snd (List.filter (λ e, Nat.eqb (fst e) tid) l).

Definition is_fetch_of (u : string) (a : activation) : bool :=
  match a with
  | Fetch src => String.eqb src u
  | _ => false
  end.

(** How often the load of [u] was started. *)
Definition fetches (u : string) (l : list activation) : nat :=
  length (List.filter (is_fetch_of u) l).

Definition is_external (sc : node) : bool := truthy (url_prop "src" sc).

(** How many of the script elements refer to [u]. *)
Definition references (u : string) (scripts : list node) : nat :=
  length (List.filter (λ sc, is_external sc && String.eqb (url_prop "src" sc) u) scripts).

Definition all_fetches (u : string) (s : state) : nat :=
  fetches u (List.map snd (script_log (ldr s))).

(** [activated scripts l rest]: [l] is what activating [scripts] one after
    the other, in order, gives up to the point where [rest] is left: an
    inline script is run; an external script starts to load and nothing
    else happens until it has settled; the trace ends either with all the
    scripts done or right after the [Fetch] of the script awaited, which is
    then the head of [rest]. *)
Inductive activated : list node → list activation → list node → Prop :=
| activated_done :
    activated [] [] []
| activated_inline sc scripts l rest :
    is_external sc = false →
    activated scripts l rest →
    activated (sc :: scripts) (Ran (textContent sc) :: l) rest
| activated_waiting sc scripts :
    is_external sc = true →
    activated (sc :: scripts) [Fetch (url_prop "src" sc)] (sc :: scripts)
| activated_settled sc scripts ok l rest :
    is_external sc = true →
    activated scripts l rest →
    activated (sc :: scripts)
      (Fetch (url_prop "src" sc) :: Settled (url_prop "src" sc) ok :: l) rest.

(** The activation that starts a script, and the two kinds of entries. *)
Definition start_of (sc : node) : activation :=
  if is_external sc then Fetch (url_prop "src" sc) else Ran (textContent sc).

Definition is_start (a : activation) : bool :=
  match a with
  | Fetch _ | Ran _ => true
  | Settled _ _ => false
  end.

Definition is_load (a : activation) : bool :=
  match a with
  | Fetch _ => true
  | _ => false
  end.

Definition is_settle (a : activation) : bool :=
  match a with
  | Settled _ _ => true
  | _ => false
  end.

(** The invariant of the loader: the log of every call is a sequential
    activation of the scripts of that call, up to where the call stands;
    and the log mentions no call that has not been made. *)
Definition tasks_in_order (s : state) : Prop :=
  ∀ tid t, tasks (ldr s) !! tid = Some t →
    activated (t_scripts t) (on_task tid (script_log (ldr s))) (t_rest t).

Definition log_bounded (s : state) : Prop :=
  Forall (λ e, fst e < length (tasks (ldr s))) (script_log (ldr s)).

Definition loader_inv (s : state) : Prop := tasks_in_order s ∧ log_bounded s.

(** The sum of [f] over the tasks. *)
Definition sum_tasks (f : task → nat) (ts : list task) : nat :=
  foldr (λ t n, f t + n) 0 ts.

(** The references to [u] in the script lists of all the calls made so
    far, and those among them that the calls have not reached yet. *)
Definition referenced (u : string) (s : state) : nat :=
  sum_tasks (λ t, references u (t_scripts t)) (tasks (ldr s)).

Definition not_reached (u : string) (s : state) : nat :=
  sum_tasks (λ t, references u (tail (t_rest t))) (tasks (ldr s)).

Definition finished (t : task) : bool :=
  match t_rest t with
  | [] => true
  | _ => false
  end.

End WithParser.

End Observe.

(** ** A page to run the script on *)

Module Demo.
Import Dom Page Script.

Definition E : page_elements :=
  PageElements true true true true true true true true true true true true.

(** The controls as the page template has them: upload mode shown, the
    camera not started, nothing captured. *)
Definition controls0 : controls :=
  Controls true false "block" "none" false START_CAMERA_HTML true None
           0 0 None "" "none" "".

Definition result (text : string) (more : list node) : node :=
  Elem "div" ["analysis-result"] [] (Elem "p" [] [] [Text text] :: more).

Definition page0 : document :=
  Document [Elem "title" [] [] [Text "MushGuard"]]
           [Elem "div" ["input-container"] [] [Elem "form" [] [("id", "camera-form")] []];
            result "old" [];
            Elem "footer" [] [] []].

(** A page with the anchor but no result yet, and one with neither. *)
Definition page_fresh : document :=
  Document [] [Elem "div" ["input-container"] [] []; Elem "footer" [] [] []].

Definition page_bare : document :=
  Document [] [Elem "footer" [] [] []].

(** A page that brings a Leaflet stylesheet of its own. *)
Definition page_styled : document :=
  Document [Elem "link" [] [("rel", "StyleSheet"); ("href", "static/leaflet.css")] []]
           [Elem "div" ["input-container"] [] []].

(** A library loaded from its URL, and the inline code that needs it. *)
Definition LEAFLET_JS : string := "https://unpkg.com/leaflet.js".
Definition LIB : node := Elem "script" [] [("src", LEAFLET_JS)] [].
Definition INIT : node := Elem "script" [] [] [Text "initMap()"].

(** Replies of the server: a page with a result that brings a library and
    the code that uses it, and a page without a result. *)
Definition reply_map : document :=
  Document [] [Elem "div" ["input-container"] [] []; result "EDIBLE" [LIB; INIT]].

Definition reply_empty : document :=
  Document [] [Elem "p" [] [] [Text "nothing"]].

Definition parse (html : string) : document :=
  if String.eqb html "map" then reply_map else reply_empty.

Definition href : string := "https://mushguard.example/".

(** The URL parser, as far as the pages of the example need it: an absolute
    URL (those used here are in normal form) is its own serialisation, and
    a relative reference is taken below the URL of the page. *)
#[local] Instance resolve : UrlParser :=
  λ v, if String.prefix "https://" v then v else href +:+ v.

Definition step := Script.step E href parse.
Definition run := Script.run E href parse.

(** The camera is started and a photo is captured. *)
Definition capture_events : list event :=
  [Click_cameraModeBtn; Click_startButton; GetUserMedia_resolved 0;
   Click_captureButton 1280 720; ToBlob_done 0].

Definition captured : state := run capture_events (initial controls0 page0).

(** The photo is submitted and the POST is outstanding. *)
Definition posted : state := run [Submit_cameraForm; BlobUrl_fetched 0] captured.

(** The photo is submitted and the reply with the map arrives. *)
Definition patch_started : list event :=
  capture_events
  ++ [Submit_cameraForm; BlobUrl_fetched 0; Post_settled 0 (Reply_ok "map")].

(** The reply brings the result with the map; its library loads. *)
Definition patch_events (sub : nat) : list event :=
  [Submit_cameraForm; BlobUrl_fetched sub;
   Post_settled sub (Reply_ok "map"); Script_settled sub true].

(** The same again: the camera is started anew, a photo is captured and
    submitted, and the same reply is patched in a second time. *)
Definition patched_twice : state :=
  run (patch_events 0
       ++ [Click_startButton; GetUserMedia_resolved 1;
           Click_captureButton 1280 720; ToBlob_done 1]
       ++ patch_events 1) captured.

(** The map has been patched in; a second photo is captured and submitted,
    and its POST is outstanding. *)
Definition reposted : state :=
  run (patch_events 0
       ++ [Click_startButton; GetUserMedia_resolved 1;
           Click_captureButton 1280 720; ToBlob_done 1;
           Submit_cameraForm; BlobUrl_fetched 1]) captured.


End Demo.

(** ** The camera and its two buttons, seen apart *)

Module CameraView.
Import Dom Page Script.

(** What the camera handlers read and write: the [stream] variable, the
    streams running on the hardware, the [getUserMedia] calls pending (and
    how many were made), and whether the two buttons are disabled. *)
Record camera_view := View {
  v_stream : option nat;
  v_live : list nat;
  v_pending : list nat;
  v_calls : nat;
  v_start_disabled : bool;
  v_capture_disabled : bool
}.

Definition camera_view_of (s : state) : camera_view :=
  View (stream (cam s)) (live (cam s)) (gum_pending (cam s)) (gum_calls (cam s))
       (startButton_disabled (ctl s)) (captureButton_disabled (ctl s)).

(** The four things that happen to it: a start click is taken; a call is
    granted; the stream is stopped and forgotten with the buttons put back
    (mode switch, end of a successful submission); the page is torn down. *)
Definition clicked (v : camera_view) : camera_view :=
  View (v_stream v) (v_live v) (v_pending v ++ [v_calls v]) (S (v_calls v))
       (v_start_disabled v) (v_capture_disabled v).

Definition granted (E : page_elements) (call : nat) (v : camera_view)
    : camera_view :=
  View (Some call) (v_live v ++ [call]) (remove_id call (v_pending v)) (v_calls v)
       true (if captureButton E then false else v_capture_disabled v).

Definition denied (call : nat) (v : camera_view) : camera_view :=
  View (v_stream v) (v_live v) (remove_id call (v_pending v)) (v_calls v)
       (v_start_disabled v) (v_capture_disabled v).

Definition released (h : nat) (l : list nat) : list nat :=
  List.filter (λ h', negb (Nat.eqb h' h)) l.

Definition stopped (E : page_elements) (v : camera_view) : camera_view :=
  View None
       (match v_stream v with Some h => released h (v_live v) | None => v_live v end)
       (v_pending v) (v_calls v)
       (if startButton E then false else v_start_disabled v)
       (if captureButton E then true else v_capture_disabled v).

Definition torn_down (v : camera_view) : camera_view :=
  View (v_stream v)
       (match v_stream v with Some h => released h (v_live v) | None => v_live v end)
       (v_pending v) (v_calls v) (v_start_disabled v) (v_capture_disabled v).

Inductive camera_move (E : page_elements)
    : event → camera_view → camera_view → Prop :=
| move_none e v :
    camera_move E e v v
| move_clicked v :
    startButton E = true → v_start_disabled v = false →
    camera_move E Click_startButton v (clicked v)
| move_granted call v :
    mem call (v_pending v) = true →
    camera_move E (GetUserMedia_resolved call) v (granted E call v)
| move_denied call v :
    mem call (v_pending v) = true →
    camera_move E (GetUserMedia_rejected call) v (denied call v)
| move_stopped e v :
    e ≠ Click_startButton →
    camera_move E e v (stopped E v)
| move_torn_down v :
    camera_move E BeforeUnload v (torn_down v).

Section Calm.
Context {url_parser : UrlParser}.
Variable E : page_elements.
Variable location_href : string.
Variable parseFromString : string → document.

(** The start button is disabled only while a stream is held; and on a
    page without start button nothing is ever pending. *)
Definition start_available (v : camera_view) : Prop :=
  (v_stream v = None → v_start_disabled v = false)
  ∧ (startButton E = false → v_pending v = [] ∧ v_start_disabled v = false).

(** The capture button is enabled only while a stream is held. *)
Definition capture_guarded (v : camera_view) : Prop :=
  (v_capture_disabled v = false → v_stream v ≠ None)
  ∧ (captureButton E = false → v_capture_disabled v = true).

(** At most one [getUserMedia] call or stream at a time, and a running
    stream is the one the script holds, with the start button disabled. *)
Definition single_session (v : camera_view) : Prop :=
  length (v_pending v) + length (v_live v) ≤ 1
  ∧ ∀ h, h ∈ v_live v → v_stream v = Some h ∧ v_start_disabled v = true.

(** A run in which no start click arrives while a [getUserMedia] call is
    still pending. *)
Fixpoint no_start_while_pending (evs : list event) (s : state) : Prop :=
  match evs with
  | [] => True
  | e :: evs' =>
      (e = Click_startButton → gum_pending (cam s) = [])
      ∧ no_start_while_pending evs' (step E location_href parseFromString e s)
  end.

End Calm.

End CameraView.

(** ** The captured frame and the submissions, seen apart *)

Module SubmitView.
Import Dom Page Script.

(** What the capture and submit handlers read and write: the value of the
    hidden input, the captures made and the encodings pending, the chains
    reading their blob, the POSTs outstanding, the requests issued and the
    number of submits taken. *)
Record submit_view := SView {
  w_value : string;
  w_captures : nat;
  w_encodes : list nat;
  w_blob_fetches : list (nat * string);
  w_posts : list nat;
  w_sent : list request;
  w_submits : nat
}.

Definition submit_view_of (s : state) : submit_view :=
  SView (cameraImageInput_value (ctl s)) (captures (cam s))
        (encodes_pending (cam s)) (blob_fetches (net s)) (posts (net s))
        (sent (net s)) (submits (net s)).

Definition IMAGE_FIELD (url : string) : string * form_value :=
  ("image", FileField url "camera-photo.jpg" "image/jpeg").

Definition POST_HEADERS : list (string * string) :=
  [("X-Requested-With", "XMLHttpRequest")].

(** The fields after the image: none, or the anti-forgery token. *)
Definition token_only (extra : list (string * form_value)) : Prop :=
  extra = [] ∨ ∃ t, extra = [("csrfmiddlewaretoken", TextField t)].

Definition is_ok (r : reply) : bool :=
  match r with
  | Reply_ok _ => true
  | _ => false
  end.

Definition is_blob_failure (e : event) : bool :=
  match e with
  | BlobUrl_failed _ => true
  | _ => false
  end.

Inductive submit_move (E : page_elements) (location_href : string)
    : event → submit_view → submit_view → Prop :=
| smove_none e v :
    submit_move E location_href e v v
| smove_captured w h v :
    submit_move E location_href (Click_captureButton w h) v
      (SView (w_value v) (S (w_captures v)) (w_encodes v ++ [w_captures v])
             (w_blob_fetches v) (w_posts v) (w_sent v) (w_submits v))
| smove_encoded k v :
    mem k (w_encodes v) = true →
    submit_move E location_href (ToBlob_done k) v
      (SView (if cameraImageInput E then createObjectURL k else w_value v)
             (w_captures v) (remove_id k (w_encodes v))
             (w_blob_fetches v) (w_posts v) (w_sent v) (w_submits v))
| smove_submitted v :
    truthy (w_value v) = true →
    submit_move E location_href Submit_cameraForm v
      (SView (w_value v) (w_captures v) (w_encodes v)
             (w_blob_fetches v ++ [(w_submits v, w_value v)])
             (w_posts v) (w_sent v) (S (w_submits v)))
| smove_posted sub url extra v :
    assoc_id sub (w_blob_fetches v) = Some url →
    token_only extra →
    submit_move E location_href (BlobUrl_fetched sub) v
      (SView (w_value v) (w_captures v) (w_encodes v)
             (drop_id sub (w_blob_fetches v)) (w_posts v ++ [sub])
             (w_sent v ++ [Request location_href "POST"
                             (IMAGE_FIELD url :: extra) POST_HEADERS])
             (w_submits v))
| smove_lost sub v :
    submit_move E location_href (BlobUrl_failed sub) v
      (SView (w_value v) (w_captures v) (w_encodes v)
             (drop_id sub (w_blob_fetches v)) (w_posts v) (w_sent v)
             (w_submits v))
| smove_answered sub r v :
    mem sub (w_posts v) = true →
    submit_move E location_href (Post_settled sub r) v
      (SView (if is_ok r then "" else w_value v) (w_captures v) (w_encodes v)
             (w_blob_fetches v) (remove_id sub (w_posts v)) (w_sent v)
             (w_submits v)).

(** The URL of the blob of a capture made so far. *)
Definition is_capture_url (n : nat) (u : string) : Prop :=
  ∃ k, k < n ∧ u = createObjectURL k.

(** A request as the submit handler builds it, for a photo captured here. *)
Definition photo_request (location_href : string) (n : nat) (req : request)
    : Prop :=
  req_url req = location_href
  ∧ req_method req = "POST"
  ∧ req_headers req = POST_HEADERS
  ∧ ∃ u extra, is_capture_url n u
               ∧ req_body req = IMAGE_FIELD u :: extra ∧ token_only extra.

(** Whatever is stored, being read or sent is a photo captured here. *)
Definition frames_are_captures (location_href : string) (v : submit_view)
    : Prop :=
  (w_value v = "" ∨ is_capture_url (w_captures v) (w_value v))
  ∧ Forall (λ k, k < w_captures v) (w_encodes v)
  ∧ Forall (λ su, is_capture_url (w_captures v) (snd su)) (w_blob_fetches v)
  ∧ Forall (photo_request location_href (w_captures v)) (w_sent v).

(** The chains reading their blob have numbers of their own, and the chains
    that reached their POST or still read are no more than the submits. *)
Definition one_post_per_submit (v : submit_view) : Prop :=
  NoDup (List.map fst (w_blob_fetches v))
  ∧ Forall (λ su, fst su < w_submits v) (w_blob_fetches v)
  ∧ length (w_sent v) + length (w_blob_fetches v) ≤ w_submits v.

Definition every_submit_posted (v : submit_view) : Prop :=
  length (w_sent v) + length (w_blob_fetches v) = w_submits v.

End SubmitView.

(** ** The stylesheet link of the loader *)

Module Stylesheet.
Import Dom Page Script.

(** The link element that [ensureLeafletCSS] creates, and the test whether
    a node is such an element. *)
Definition LEAFLET_LINK : node :=
  Elem "link" [] [("rel", "stylesheet"); ("href", LEAFLET_CSS)] [].

Definition is_LEAFLET_LINK (n : node) : bool :=
  match n with
  | Elem t [] [(k1, v1); (k2, v2)] [] =>
      String.eqb t "link"
      && String.eqb k1 "rel" && String.eqb v1 "stylesheet"
      && String.eqb k2 "href" && String.eqb v2 LEAFLET_CSS
  | _ => false
  end.

(** How many such links the head of the document holds. *)
Definition injected_links (d : document) : nat :=
  length (List.filter is_LEAFLET_LINK (doc_head d)).

Definition has_leaflet_stylesheet {url_parser : UrlParser} (d : document) : bool :=
  existsb is_leaflet_stylesheet (all_nodes d).

End Stylesheet.

(** ** The install button (lines 482-516) *)

Module Install.

(** The [deferredPrompt] variable (an offer of the browser, named by its
    number), the display of the install button, the [prompt()] calls made
    and the clicks that await the choice of the user. *)
Record state := State {
  deferredPrompt : option nat;
  offers : nat;
  installButton_display : string;
  prompts : list nat;
  awaiting : list (nat * nat);
  clicks : nat
}.

Inductive event :=
| BeforeInstallPrompt
| Click_installButton
| UserChoice (click : nat) (accepted : bool)
| AppInstalled.

Section Handlers.

(** Whether the page has the install button. *)
Variable installButton : bool.

(** Lines 485-492. *)
Definition beforeinstallprompt (s : state) : state :=
  State (Some (offers s)) (S (offers s))
        (if installButton then "inline-block" else installButton_display s)
        (prompts s) (awaiting s) (clicks s).

(** Lines 495-500: the click, up to the [await] on the choice. *)
Definition installButton_click (s : state) : state :=
  match deferredPrompt s with
  | None => s
  | Some e =>
      State (deferredPrompt s) (offers s) (installButton_display s)
            (prompts s ++ [e]) (awaiting s ++ [(clicks s, e)]) (S (clicks s))
  end.

(** Lines 502-508: the choice is known. *)
Definition installButton_click_resumed (accepted : bool) (s : state) : state :=
  State None (offers s)
        (if accepted then "none" else installButton_display s)
        (prompts s) (awaiting s) (clicks s).

(** Lines 512-516. *)
Definition appinstalled (s : state) : state :=
  State (deferredPrompt s) (offers s)
        (if installButton then "none" else installButton_display s)
        (prompts s) (awaiting s) (clicks s).

Definition step (e : event) (s : state) : state :=
  match e with
  | BeforeInstallPrompt => beforeinstallprompt s
  | Click_installButton => if installButton then installButton_click s else s
  | UserChoice k accepted =>
      match Script.assoc_id k (awaiting s) with
      | Some _ =>
          installButton_click_resumed accepted
            (State (deferredPrompt s) (offers s) (installButton_display s)
                   (prompts s) (Script.drop_id k (awaiting s)) (clicks s))
      | None => s
      end
  | AppInstalled => appinstalled s
  end.

Definition run (evs : list event) (s : state) : state :=
  fold_left (λ s e, step e s) evs s.

(** A run in which no click arrives while a choice is awaited. *)
Fixpoint no_click_while_awaiting (evs : list event) (s : state) : Prop :=
  match evs with
  | [] => True
  | e :: evs' =>
      (e = Click_installButton → awaiting s = [])
      ∧ no_click_while_awaiting evs' (step e s)
  end.

End Handlers.

(** The page at load, with the display that the stylesheet gives. *)
Definition initial (display : string) : state := State None 0 display [] [] 0.

Definition is_offer (e : event) : bool :=
  match e with
  | BeforeInstallPrompt => true
  | _ => false
  end.

(** The state of the button between two events, when clicks do not
    overlap: either nothing is awaited and the offer stored has not been
    prompted for, or one click awaits its choice. *)
Definition one_prompt_per_offer (s : state) : Prop :=
  NoDup (prompts s)
  ∧ Forall (λ e, e < offers s) (prompts s)
  ∧ (awaiting s = [] → ∀ e, deferredPrompt s = Some e → e ∉ prompts s)
  ∧ (∀ e, deferredPrompt s = Some e → e < offers s)
  ∧ length (awaiting s) ≤ 1.

End Install.

(** ** The tabs of the analysis page (lines 277-292) *)

Module Tabs.
Import Dom.

#[global] Instance loc_eq_dec : EqDecision loc.
Proof. solve_decision. Defined.

(** [classList.remove(c)] and [classList.add(c)] on a class list. *)
Definition classList_remove (c : string) (cs : list string) : list string :=
  List.filter (λ x, negb (String.eqb x c)) cs.

Definition classList_add (c : string) (cs : list string) : list string :=
  if existsb (String.eqb c) cs then cs else cs ++ [c].

Definition classes_of (n : node) : list string :=
  match n with
  | Elem _ cs _ _ => cs
  | Text _ => []
  end.

Definition map_classes (f : list string → list string) (n : node) : node :=
  match n with
  | Elem t cs a kids => Elem t (f cs) a kids
  | Text d => Text d
  end.

(** [g] is applied to the node at [p]. *)
Fixpoint update_at (p : path) (g : node → node) (l : list node) : list node :=
  match p with
  | [] => l
  | i :: q =>
      match q with
      | [] => alter g i l
      | _ => alter (λ n, with_children n (update_at q g (children n))) i l
      end
  end.

Definition on_node (l : loc) (g : node → node) (d : document) : document :=
  match l with
  | InHead p => Document (update_at p g (doc_head d)) (doc_body d)
  | InBody p => Document (doc_head d) (update_at p g (doc_body d))
  end.

(** [document.querySelectorAll(sel).forEach(el => el.classList...)]: the
    class list of every element that matches is changed by [f]. *)
Fixpoint for_each (sel : node → bool) (f : list string → list string)
    (n : node) : node :=
  match n with
  | Text d => Text d
  | Elem t cs a kids =>
      Elem t (if sel n then f cs else cs) a (List.map (for_each sel f) kids)
  end.

Definition for_each_doc (sel : node → bool) (f : list string → list string)
    (d : document) : document :=
  Document (List.map (for_each sel f) (doc_head d))
           (List.map (for_each sel f) (doc_body d)).

(** [tab.dataset.tab] inside the template literal: the value of the
    attribute [data-tab], or the text of [undefined]. *)
Definition dataset_tab (n : node) : string :=
  default "undefined" (getAttribute "data-tab" n).

Definition tabId_of (d : document) (tab : loc) : string :=
  match deref d tab with
  | Some n => dataset_tab n
  | None => "undefined"
  end.

Definition getElementById (id : string) (d : document) : option loc :=
  querySelector (has_attr "id" id) d.

(** The click handler of the tab button at [tab]; [tabs] are the buttons
    that [querySelectorAll('.tab-btn')] found when the page was loaded.
    The handler changes class lists only, so the places of the elements
    stay what they were. *)
Definition tab_click (tabs : list loc) (tab : loc) (d : document) : document :=
  let d := fold_left
             (λ d t, on_node t (map_classes (classList_remove "active")) d)
             tabs d in
  let d := on_node tab (map_classes (classList_add "active")) d in
  let tabId := tabId_of d tab in
  let d := for_each_doc (has_class "tab-pane") (classList_remove "active") d in
  let targetPane := getElementById (tabId +:+ "-tab") d in
  match targetPane with
  | Some target => on_node target (map_classes (classList_add "active")) d
  | None => d
  end.

(** Whether the element at [l] carries the class [active]. *)
Definition active_at (d : document) (l : loc) : bool :=
  match deref d l with
  | Some n => has_class "active" n
  | None => false
  end.

Definition is_pane_at (d : document) (l : loc) : bool :=
  match deref d l with
  | Some n => has_class "tab-pane" n
  | None => false
  end.

(** The pane that the tab names, as the page has it before the click. *)
Definition target_of (d : document) (tab : loc) : option loc :=
  getElementById (tabId_of d tab +:+ "-tab") d.

(** An observation of a node that does not look below it, and one that does
    not look at its classes either. *)
Definition shallow_obs {A} (obs : node → A) : Prop :=
  ∀ n kids, obs (with_children n kids) = obs n.

Definition ignores_classes (sel : node → bool) : Prop :=
  ∀ t c c' a k k', sel (Elem t c a k) = sel (Elem t c' a k').

(** What a click leaves of the class list [cs] of the element [n] at [q]. *)
Definition classes_after (tabs : list loc) (tab : loc) (target : option loc)
    (q : loc) (n : node) : list string :=
  let cs := classes_of n in
  let cs := if bool_decide (q ∈ tabs) then classList_remove "active" cs else cs in
  let cs := if bool_decide (q = tab) then classList_add "active" cs else cs in
  let cs := if has_class "tab-pane" n then classList_remove "active" cs else cs in
  if bool_decide (target = Some q) then classList_add "active" cs else cs.

(** The element itself, without what is below it; what is at a place of the
    document, seen this way. *)
Definition top (n : node) : node := with_children n [].

Definition seen (d : document) (q : loc) : option node := top <$> deref d q.

(** A page with two tab buttons and their two panes, the first tab shown. *)
Definition BUTTON (name : string) (cs : list string) : node :=
  Elem "button" ("tab-btn" :: cs) [("data-tab", name)] [Text name].

Definition PANE (name : string) (cs : list string) : node :=
  Elem "div" ("tab-pane" :: cs) [("id", name +:+ "-tab")] [Text name].

Definition page : document :=
  Document []
    [Elem "div" ["tabs"] []
       [BUTTON "overview" ["active"]; BUTTON "details" []];
     Elem "div" ["tab-content"] []
       [PANE "overview" ["active"]; PANE "details" []];
     Elem "p" ["note"; "active"] [] []].

Definition page_tabs : list loc := [InBody [0; 0]; InBody [0; 1]].

End Tabs.

(** ** What the loader appends to the document *)

Module Appended.
Import Dom Page Script.

(** An element as the loader creates them (lines 196-198, 206-208 and
    231-232): a [link] or a [script] element without a class and with
    nothing but text below it. *)
Definition loader_made (n : node) : bool :=
  match n with
  | Elem t [] _ kids =>
      (String.eqb t "link" || String.eqb t "script")
      && forallb (λ k, negb (is_element k)) kids
  | _ => false
  end.

(** [d'] is [d] with such elements appended to its head and to its body:
    no node of [d] is replaced, moved or removed. *)
Definition appended_to (d d' : document) : Prop :=
  ∃ hs bs,
    doc_head d' = doc_head d ++ hs ∧ doc_body d' = doc_body d ++ bs
    ∧ Forall (λ n, loader_made n = true) hs
    ∧ Forall (λ n, loader_made n = true) bs.

End Appended.

(** * Facts about the document operations *)

Module DomFacts.
Import Dom.

Lemma first_in_None {A B} (f : A → option B) (l : list A) :
  first_in f l = None ↔ ∀ i a, l !! i = Some a → f a = None.
Proof.
  induction l as [|k l IH]; simpl.
  - split; [intros _ i a Hi; destruct i; discriminate | done].
  - destruct (f k) eqn:Hk.
    + split; [done | intros H; specialize (H 0 k eq_refl); congruence].
    + destruct (first_in f l) as [[i b]|] eqn:Hl.
      * split; [done | intros H].
        assert (Some (i, b) = None) as Habs; [| discriminate].
        apply IH. intros j a Hj. apply (H (S j) a Hj).
      * split; [intros _ [|j] a Hj | done].
        -- simpl in Hj. congruence.
        -- destruct IH as [IH _]. apply (IH eq_refl j a Hj).
Qed.

Lemma first_in_Some {A B} (f : A → option B) (l : list A) i b :
  first_in f l = Some (i, b) ↔
  (∀ j a, j < i → l !! j = Some a → f a = None)
  ∧ ∃ a, l !! i = Some a ∧ f a = Some b.
Proof.
  revert i b. induction l as [|k l IH]; intros i b; simpl.
  - split; [done | intros [_ (a & Ha & _)]; destruct i; discriminate].
  - destruct (f k) eqn:Hk.
    + split.
      * intros [= <- <-]. split; [intros j a Hj; lia | eauto].
      * intros [Hlt (a & Ha & Hb)]. destruct i as [|i].
        -- simpl in Ha. congruence.
        -- specialize (Hlt 0 k ltac:(lia) eq_refl). congruence.
    + destruct (first_in f l) as [[i' b']|] eqn:Hl.
      * destruct (IH i' b') as [IH1 _]. destruct (IH1 eq_refl) as [Hlt' (a' & Ha' & Hb')].
        split.
        -- intros [= <- <-]. split; [| eauto].
           intros [|j] a Hj Ha; simpl in Ha; [congruence |].
           apply (Hlt' j a); [lia | done].
        -- intros [Hlt (a & Ha & Hb)]. destruct i as [|i]; simpl in Ha; [congruence |].
           destruct (lt_eq_lt_dec i i') as [[Hc | ->] | Hc].
           ++ rewrite (Hlt' i a Hc Ha) in Hb. discriminate.
           ++ congruence.
           ++ specialize (Hlt (S i') a' ltac:(lia) Ha'). congruence.
      * split; [done |]. intros [_ (a & Ha & Hb)].
        destruct i as [|i]; simpl in Ha; [congruence |].
        rewrite first_in_None in Hl. rewrite (Hl i a Ha) in Hb. discriminate.
Qed.

Lemma within_query sel n : within sel n = query sel (children n).
Proof. destruct n; reflexivity. Qed.

Lemma hit_Some sel a q :
  hit sel a = Some q ↔
  (sel a = true ∧ q = []) ∨ (sel a = false ∧ query sel (children a) = Some q).
Proof.
  unfold hit. rewrite within_query. destruct (sel a).
  - split; [intros [= <-]; auto | intros [[_ ->] | [? _]]; done].
  - split; [auto | intros [[? _] | [_ ?]]; done].
Qed.

Lemma hit_None sel a :
  hit sel a = None ↔ sel a = false ∧ query sel (children a) = None.
Proof.
  unfold hit. rewrite within_query. destruct (sel a); [split; [done | intros [? _]; done] |].
  split; [auto | intros [_ ?]; done].
Qed.

Lemma query_Some sel l i q :
  query sel l = Some (i :: q) ↔
  (∀ j a, j < i → l !! j = Some a → hit sel a = None)
  ∧ ∃ a, l !! i = Some a ∧ hit sel a = Some q.
Proof.
  rewrite <- first_in_Some. unfold query.
  destruct (first_in (hit sel) l) as [[i' q']|]; [| done].
  split; [intros [= -> ->]; done | intros [= -> ->]; done].
Qed.

Lemma query_None sel l :
  query sel l = None ↔ ∀ i a, l !! i = Some a → hit sel a = None.
Proof.
  rewrite <- first_in_None. unfold query.
  destruct (first_in (hit sel) l) as [[i' q']|]; done.
Qed.

Lemma query_not_root sel l : query sel l ≠ Some [].
Proof. unfold query. destruct (first_in (hit sel) l) as [[i' q']|]; done. Qed.

(** What a selector finds is in the tree, where the path says, and
    matches. *)
Lemma query_sound sel p : ∀ l,
  query sel l = Some p → ∃ n, node_at p l = Some n ∧ sel n = true.
Proof.
  induction p as [|i q IH]; intros l Hq; [by apply query_not_root in Hq |].
  apply query_Some in Hq as [_ (a & Ha & Hhit)].
  apply hit_Some in Hhit as [[Hsel ->] | [_ Hq]]; simpl; rewrite Ha.
  - eauto.
  - destruct q as [|j r]; [by apply query_not_root in Hq |].
    by apply IH.
Qed.

Lemma children_with_children n kids :
  is_element n = true → children (with_children n kids) = kids.
Proof. by destruct n. Qed.

Lemma node_at_single i l : node_at [i] l = l !! i.
Proof. simpl. by destruct (l !! i). Qed.

Lemma node_at_cons_cons i j r l :
  node_at (i :: j :: r) l = l !! i ≫= λ n, node_at (j :: r) (children n).
Proof. simpl. by destruct (l !! i). Qed.

Lemma replace_at_cons_cons i j r new l :
  replace_at (i :: j :: r) new l
  = alter (λ n, with_children n (replace_at (j :: r) new (children n))) i l.
Proof. reflexivity. Qed.

Lemma insert_after_cons_cons i j r new l :
  insert_after (i :: j :: r) new l
  = alter (λ n, with_children n (insert_after (j :: r) new (children n))) i l.
Proof. reflexivity. Qed.

#[local] Arguments node_at : simpl never.
#[local] Arguments replace_at : simpl never.
#[local] Arguments insert_after : simpl never.

Lemma node_at_nil_forest p : node_at p [] = None.
Proof. by destruct p. Qed.

Lemma node_at_is_element q n x :
  node_at q (children n) = Some x → is_element n = true.
Proof. destruct n; [done |]. simpl. by rewrite node_at_nil_forest. Qed.

(** Below a node whose children were set, paths lead into these children. *)
Lemma node_at_with_children q n kids :
  q ≠ [] → node_at q (children (with_children n kids))
           = if is_element n then node_at q kids else None.
Proof. intros Hq. destruct n; simpl; [done | apply node_at_nil_forest]. Qed.

(** [replace_at]: the new node is where the old one was. *)
Lemma node_at_replace_at p new : ∀ l old,
  node_at p l = Some old → node_at p (replace_at p new l) = Some new.
Proof.
  induction p as [|i q IH]; intros l old H; [done |].
  destruct q as [|j r].
  - rewrite node_at_single in *. change (replace_at [i] new l) with (<[i:=new]> l).
    rewrite list_lookup_insert_eq; [done | by eapply lookup_lt_Some].
  - rewrite node_at_cons_cons in H.
    destruct (l !! i) as [n|] eqn:Hi; [simpl in H | done].
    rewrite node_at_cons_cons, replace_at_cons_cons.
    rewrite list_lookup_alter_eq, Hi. simpl.
    rewrite node_at_with_children, (node_at_is_element _ _ _ H) by done.
    by eapply IH.
Qed.


Lemma node_at_head_eq i j q (l l' : list node) :
  l !! i = l' !! j → node_at (i :: q) l = node_at (j :: q) l'.
Proof.
  intros H. destruct q as [|k r].
  - by rewrite !node_at_single.
  - by rewrite !node_at_cons_cons, H.
Qed.

Lemma lookup_insert_after_le (l : list node) (i j : nat) new :
  i < length l → j ≤ i →
  (take (S i) l ++ new :: drop (S i) l) !! j = l !! j.
Proof.
  intros Hi Hj. rewrite lookup_app_l by (rewrite length_take; lia).
  apply lookup_take_lt. lia.
Qed.

Lemma lookup_insert_after_eq (l : list node) (i : nat) new :
  i < length l → (take (S i) l ++ new :: drop (S i) l) !! S i = Some new.
Proof.
  intros Hi. rewrite lookup_app_r by (rewrite length_take; lia).
  rewrite length_take. by replace (S i - S i `min` length l) with 0 by lia.
Qed.




Lemma after_insert_self p : after_insert p p = p.
Proof.
  induction p as [|i p' IH]; [done |]. simpl. destruct p' as [|i' p''].
  - by rewrite Nat.ltb_irrefl.
  - by rewrite Nat.eqb_refl, IH.
Qed.

(** [insert_after]: the new node is the next sibling of the anchor. *)
Lemma node_at_insert_after_new p new : ∀ l a,
  node_at p l = Some a →
  node_at (next_sibling p) (insert_after p new l) = Some new.
Proof.
  induction p as [|i p' IH]; intros l a Ha; [done |].
  destruct p' as [|i' p''].
  - rewrite node_at_single in Ha. apply lookup_lt_Some in Ha.
    change (next_sibling [i]) with [S i]. rewrite node_at_single.
    by apply lookup_insert_after_eq.
  - rewrite node_at_cons_cons in Ha.
    destruct (l !! i) as [n|] eqn:Hi; [simpl in Ha | done].
    change (next_sibling (i :: i' :: p'')) with (i :: next_sibling (i' :: p'')).
    rewrite insert_after_cons_cons.
    destruct (next_sibling (i' :: p'')) as [|k r] eqn:Hk.
    { simpl in Hk. by destruct p''. }
    rewrite node_at_cons_cons, list_lookup_alter_eq, Hi. simpl.
    rewrite node_at_with_children, (node_at_is_element _ _ _ Ha) by done.
    by eapply IH.
Qed.

Lemma has_class_shallow c : shallow (has_class c).
Proof. by intros [] ?. Qed.

Lemma query_is_element sel n q :
  query sel (children n) = Some q → is_element n = true.
Proof. by destruct n. Qed.

(** After [replace_at] by a node that matches too, the selector finds the
    new node, at the place of the old one. *)
Lemma query_replace_at sel new p : ∀ l,
  shallow sel → sel new = true →
  query sel l = Some p → query sel (replace_at p new l) = Some p.
Proof.
  intros l Hsh Hnew. revert l.
  induction p as [|i q IH]; intros l Hq; [by apply query_not_root in Hq |].
  apply query_Some in Hq as [Hbefore (a & Ha & Hhit)].
  apply query_Some. destruct q as [|j r].
  - change (replace_at [i] new l) with (<[i:=new]> l). split.
    + intros k b Hk Hb. rewrite list_lookup_insert_ne in Hb by lia. eauto.
    + exists new. rewrite list_lookup_insert_eq by (by eapply lookup_lt_Some).
      split; [done |]. apply hit_Some. auto.
  - rewrite replace_at_cons_cons. split.
    + intros k b Hk Hb. rewrite list_lookup_alter_ne in Hb by lia. eauto.
    + apply hit_Some in Hhit as [[_ ?] | [Hsel Hq]]; [done |].
      eexists. rewrite list_lookup_alter_eq, Ha. split; [done |].
      apply hit_Some. right. rewrite Hsh. split; [done |].
      rewrite children_with_children by (by eapply query_is_element). by apply IH.
Qed.

(** After [insert_after] of a node that matches, in a forest where nothing
    matched, the selector finds the new node. *)
Lemma query_insert_after sel new p : ∀ l a,
  shallow sel → sel new = true →
  query sel l = None → node_at p l = Some a →
  query sel (insert_after p new l) = Some (next_sibling p).
Proof.
  intros l a Hsh Hnew. revert l a.
  induction p as [|i q IH]; intros l a Hq Ha; [done |].
  rewrite query_None in Hq. destruct q as [|j r].
  - rewrite node_at_single in Ha. apply lookup_lt_Some in Ha.
    change (next_sibling [i]) with [S i].
    change (insert_after [i] new l) with (take (S i) l ++ new :: drop (S i) l).
    apply query_Some. split.
    + intros k b Hk Hb. rewrite lookup_insert_after_le in Hb by lia. eauto.
    + exists new. split; [by apply lookup_insert_after_eq |]. apply hit_Some. auto.
  - rewrite node_at_cons_cons in Ha.
    destruct (l !! i) as [n|] eqn:Hi; [simpl in Ha | done].
    change (next_sibling (i :: j :: r)) with (i :: next_sibling (j :: r)).
    rewrite insert_after_cons_cons. apply query_Some. split.
    + intros k b Hk Hb. rewrite list_lookup_alter_ne in Hb by lia. eauto.
    + eexists. rewrite list_lookup_alter_eq, Hi. split; [done |].
      apply Hq in Hi. apply hit_None in Hi as [Hsel Hnone].
      apply hit_Some. right. rewrite Hsh. split; [done |].
      rewrite children_with_children by (by eapply node_at_is_element).
      by eapply IH.
Qed.

(** The same facts for a document. *)
Lemma querySelector_sound sel d l :
  querySelector sel d = Some l → ∃ n, deref d l = Some n ∧ sel n = true.
Proof.
  unfold querySelector.
  destruct (query sel (doc_head d)) as [p|] eqn:Hh.
  - intros [= <-]. by apply query_sound.
  - destruct (query sel (doc_body d)) as [p|] eqn:Hb; [| done].
    intros [= <-]. by apply query_sound.
Qed.

Lemma deref_replaceWith d l old new :
  deref d l = Some old → deref (replaceWith l new d) l = Some new.
Proof. destruct l; simpl; apply node_at_replace_at. Qed.


Lemma deref_insert_new d l a new :
  deref d l = Some a →
  deref (insertAdjacentElement_afterend l new d) (loc_map next_sibling l)
  = Some new.
Proof. destruct l; simpl; apply node_at_insert_after_new. Qed.


Lemma querySelector_replaceWith sel d l new :
  shallow sel → sel new = true → querySelector sel d = Some l →
  querySelector sel (replaceWith l new d) = Some l.
Proof.
  intros Hsh Hnew. unfold querySelector.
  destruct (query sel (doc_head d)) as [p|] eqn:Hh.
  - intros [= <-]. simpl. by rewrite (query_replace_at _ _ _ _ Hsh Hnew Hh).
  - destruct (query sel (doc_body d)) as [p|] eqn:Hb; [| done].
    intros [= <-]. simpl. by rewrite Hh, (query_replace_at _ _ _ _ Hsh Hnew Hb).
Qed.

Lemma querySelector_insert sel d l a new :
  shallow sel → sel new = true → querySelector sel d = None →
  deref d l = Some a →
  querySelector sel (insertAdjacentElement_afterend l new d)
  = Some (loc_map next_sibling l).
Proof.
  intros Hsh Hnew. unfold querySelector.
  destruct (query sel (doc_head d)) as [p|] eqn:Hh; [done |].
  destruct (query sel (doc_body d)) as [p|] eqn:Hb; [done |]. intros _.
  destruct l as [p|p]; simpl; intros Ha.
  - by rewrite (query_insert_after _ _ _ _ _ Hsh Hnew Hh Ha).
  - by rewrite Hh, (query_insert_after _ _ _ _ _ Hsh Hnew Hb Ha).
Qed.

End DomFacts.

(** * The result patch (lines 176-189) *)

Module PatchFacts.
Import Dom Page Script DomFacts.

Lemma RESULT_shallow : shallow RESULT.
Proof. apply has_class_shallow. Qed.

Lemma newResult_matches parsed ln new :
  querySelector RESULT parsed = Some ln → deref parsed ln = Some new →
  RESULT new = true.
Proof.
  intros Hq Hd. apply querySelector_sound in Hq as (n & Hn & Hsel). congruence.
Qed.

Lemma patch_result_replace parsed d cur ln new :
  querySelector RESULT d = Some cur →
  querySelector RESULT parsed = Some ln → deref parsed ln = Some new →
  patch_result parsed d = replaceWith cur new d.
Proof. intros Hc Hl Hn. unfold patch_result. rewrite Hc, Hl. simpl. by rewrite Hn. Qed.

Lemma patch_result_insert parsed d anchor ln new :
  querySelector RESULT d = None → querySelector ANCHOR d = Some anchor →
  querySelector RESULT parsed = Some ln → deref parsed ln = Some new →
  patch_result parsed d = insertAdjacentElement_afterend anchor new d.
Proof.
  intros Hc Ha Hl Hn. unfold patch_result. rewrite Hc, Hl. simpl. by rewrite Hn, Ha.
Qed.

(** Neither a result region nor an anchor in the page: the new node is
    dropped and the page stays as it is. *)
Lemma patch_result_no_anchor parsed d :
  querySelector RESULT d = None → querySelector ANCHOR d = None →
  patch_result parsed d = d.
Proof.
  intros Hc Ha. unfold patch_result. rewrite Hc, Ha.
  by destruct (querySelector RESULT parsed ≫= deref parsed).
Qed.

Example patch_result_bare_page :
  patch_result Demo.reply_map Demo.page_bare = Demo.page_bare.
Proof. reflexivity. Qed.

Lemma patch_result_no_newResult parsed d :
  querySelector RESULT parsed = None → patch_result parsed d = d.
Proof.
  intros Hl. unfold patch_result. rewrite Hl. simpl.
  by destruct (querySelector RESULT d).
Qed.

(** Once a new result node is in the page, it is the node that line 239
    finds, so the scripts that [executeScriptsFrom] runs are its own. *)
Lemma injected_is_newResult parsed d ln new :
  querySelector RESULT parsed = Some ln → deref parsed ln = Some new →
  is_Some (querySelector RESULT d) ∨ is_Some (querySelector ANCHOR d) →
  let d' := patch_result parsed d in
  querySelector RESULT d' ≫= deref d' = Some new.
Proof.
  intros Hl Hn Hor d'. subst d'.
  pose proof (newResult_matches _ _ _ Hl Hn) as Hsel.
  destruct (querySelector RESULT d) as [cur|] eqn:Hc.
  - rewrite (patch_result_replace _ _ _ _ _ Hc Hl Hn).
    rewrite (querySelector_replaceWith RESULT _ _ _ RESULT_shallow Hsel Hc). simpl.
    destruct (querySelector_sound _ _ _ Hc) as (old & Hold & _).
    by eapply deref_replaceWith.
  - destruct Hor as [[? ?] | [anchor Ha]]; [done |].
    rewrite (patch_result_insert _ _ _ _ _ Hc Ha Hl Hn).
    destruct (querySelector_sound _ _ _ Ha) as (a & Hda & _).
    rewrite (querySelector_insert RESULT _ _ _ _ RESULT_shallow Hsel Hc Hda). simpl.
    by eapply deref_insert_new.
Qed.


End PatchFacts.

(** * The document after the whole reply handler *)

Module ResultFacts.
Import Dom Page Script Appended DomFacts PatchFacts.

Section WithPage.
Context {url_parser : UrlParser}.
Variable E : page_elements.
Variable location_href : string.
Variable parseFromString : string → document.

#[local] Abbreviation step := (Script.step E location_href parseFromString).

#[local] Arguments node_at : simpl never.

Lemma appended_to_refl d : appended_to d d.
Proof. exists [], []. by rewrite !app_nil_r. Qed.

Lemma appended_to_trans d1 d2 d3 :
  appended_to d1 d2 → appended_to d2 d3 → appended_to d1 d3.
Proof.
  intros (h1 & b1 & Hh1 & Hb1 & Fh1 & Fb1) (h2 & b2 & Hh2 & Hb2 & Fh2 & Fb2).
  exists (h1 ++ h2), (b1 ++ b2).
  rewrite Hh2, Hh1, Hb2, Hb1, <- !app_assoc.
  split; [done |]. split; [done |]. split; by apply Forall_app.
Qed.

Lemma appended_head n d :
  loader_made n = true → appended_to d (head_appendChild n d).
Proof.
  intros Hn. exists [n], []. simpl. rewrite app_nil_r.
  split; [done |]. split; [done |]. split; by repeat constructor.
Qed.

Lemma appended_body n d :
  loader_made n = true → appended_to d (body_appendChild n d).
Proof.
  intros Hn. exists [], [n]. simpl. rewrite app_nil_r.
  split; [done |]. split; [done |]. split; by repeat constructor.
Qed.

Lemma ensureLeafletCSS_appended s :
  appended_to (doc s) (doc (ensureLeafletCSS s)).
Proof.
  unfold ensureLeafletCSS. destruct (negb _); [| apply appended_to_refl].
  by apply appended_head.
Qed.

Lemma for_of_scripts_appended tid scripts : ∀ s s' rest,
  for_of_scripts tid scripts s = (s', rest) → appended_to (doc s) (doc s').
Proof.
  induction scripts as [|sc scripts IH]; intros s s' rest; simpl.
  - intros [= <- <-]. apply appended_to_refl.
  - destruct (truthy (url_prop "src" sc)).
    + intros [= <- <-]. by apply appended_body.
    + intros Hfor. eapply appended_to_trans; [| by eapply IH].
      apply appended_body. by destruct (truthy (textContent sc)).
Qed.

(** The loader only appends: no node of the document is replaced, moved
    or removed by a call of [executeScriptsFrom]. *)
Lemma executeScriptsFrom_appended container s :
  appended_to (doc s) (doc (executeScriptsFrom container s)).
Proof.
  destruct container as [c|]; [| apply appended_to_refl].
  unfold executeScriptsFrom.
  destruct (for_of_scripts _ _ _) as [s' rest] eqn:Hfor.
  apply for_of_scripts_appended in Hfor.
  eapply appended_to_trans; [apply ensureLeafletCSS_appended | exact Hfor].
Qed.

Lemma node_at_app p (l k : list node) n :
  node_at p l = Some n → node_at p (l ++ k) = Some n.
Proof.
  destruct p as [|i q]; [done |]. intros Hn.
  destruct (l !! i) as [x|] eqn:Hi.
  - rewrite (node_at_head_eq i i q (l ++ k) l); [done |].
    by rewrite (lookup_app_l_Some _ _ _ _ Hi).
  - destruct q; [by rewrite node_at_single, Hi in Hn |].
    by rewrite node_at_cons_cons, Hi in Hn.
Qed.

(** What was in the document is still there, at its place. *)
Lemma deref_appended d d' l n :
  appended_to d d' → deref d l = Some n → deref d' l = Some n.
Proof.
  intros (hs & bs & Hh & Hb & _ & _). destruct l as [p|p]; simpl.
  - rewrite Hh. apply node_at_app.
  - rewrite Hb. apply node_at_app.
Qed.

Lemma first_in_app_None {A B} (f : A → option B) (l k : list A) :
  Forall (λ x, f x = None) k → first_in f (l ++ k) = first_in f l.
Proof.
  intros Hk. induction l as [|x l IH]; simpl.
  - induction Hk as [|y k Hy _ IHk]; simpl; [done |]. by rewrite Hy, IHk.
  - by rewrite IH.
Qed.

Lemma hit_loader_made c n :
  loader_made n = true → hit (has_class c) n = None.
Proof.
  destruct n as [t [|c0 cs] a kids|]; try done. simpl loader_made.
  intros [_ Hkids]%andb_true_iff. unfold hit. cbn [has_class existsb].
  rewrite within_query. cbn [children]. unfold query.
  rewrite (proj2 (first_in_None (hit (has_class c)) kids)); [done |].
  intros i k Hk. rewrite forallb_forall in Hkids.
  specialize (Hkids k (proj1 (list_elem_of_In _ _) (list_elem_of_lookup_2 _ _ _ Hk))).
  by destruct k.
Qed.

(** A class selector does not find what the loader appended, and finds
    what it found before. *)
Lemma querySelector_appended c d d' :
  appended_to d d' →
  querySelector (has_class c) d' = querySelector (has_class c) d.
Proof.
  intros (hs & bs & Hh & Hb & Fh & Fb). unfold querySelector, query.
  rewrite Hh, Hb, !first_in_app_None; [done | |].
  - eapply Forall_impl; [exact Fb |]. intros n. apply hit_loader_made.
  - eapply Forall_impl; [exact Fh |]. intros n. apply hit_loader_made.
Qed.

Lemma cameraForm_submit_text_doc html s :
  doc (cameraForm_submit_text E parseFromString html s)
  = doc (executeScriptsFrom
           (querySelector RESULT (patch_result (parseFromString html) (doc s))
              ≫= deref (patch_result (parseFromString html) (doc s)))
           (upd_doc (patch_result (parseFromString html)) s)).
Proof.
  unfold cameraForm_submit_text.
  change (doc (upd_doc (patch_result (parseFromString html)) s))
    with (patch_result (parseFromString html) (doc s)).
  set (s1 := executeScriptsFrom _ _). clearbody s1.
  destruct s1 as [c [st lv gp gc ep cp] n l d a co]. unfold when. simpl.
  by destruct st, (startButton E), (captureButton E), (cameraPreviewContainer E).
Qed.

(** The document after a successful reply: the patched document, with what
    the loader appended. *)
Lemma reply_appended s sub html :
  mem sub (posts (net s)) = true →
  appended_to (patch_result (parseFromString html) (doc s))
              (doc (step (Post_settled sub (Reply_ok html)) s)).
Proof.
  intros Hsub. unfold Script.step. rewrite Hsub.
  rewrite cameraForm_submit_text_doc.
  apply (executeScriptsFrom_appended _
           (upd_doc (patch_result (parseFromString html))
              (upd_net (λ n, set_posts (remove_id sub (posts n)) n) s))).
Qed.


End WithPage.

#[local] Existing Instance Demo.resolve.



End ResultFacts.

(** * The camera session and the submission *)

Module CameraFacts.
Import Dom Page Script Observe.

Lemma stop_tracks_not_live h s : h ∉ live (cam (stop_tracks h s)).
Proof.
  unfold stop_tracks. destruct s as [c [st lv gp gc ep cp] n l d a co]. simpl.
  rewrite list_elem_of_In, filter_In. intros [_ H].
  by rewrite Nat.eqb_refl in H.
Qed.

(** What the two mode handlers do to the stream variable. *)
Lemma mode_switch_stream E s :
  stream (cam (switchToUploadMode E s)) = None
  ∧ cam (switchToCameraMode E s) = cam s.
Proof.
  destruct s as [c [st lv gp gc ep cp] n l d a co], E as [e1 e2 e3 e4 e5 e6 e7 e8 e9 e10 e11 e12].
  unfold switchToUploadMode, switchToCameraMode, when; simpl.
  split; [by destruct st, e3, e4, e7, e8 | by destruct e3, e4].
Qed.

Section WithPage.
Context {url_parser : UrlParser}.
Variable E : page_elements.
Variable location_href : string.
Variable parseFromString : string → document.

#[local] Abbreviation step := (Script.step E location_href parseFromString).
#[local] Abbreviation run := (Script.run E location_href parseFromString).

(** The guard that the start handler relies on: while the camera runs the
    start button is disabled, and a disabled button delivers no click. *)
Lemma start_ignored_while_disabled s :
  startButton_disabled (ctl s) = true → step Click_startButton s = s.
Proof. intros H. simpl. rewrite H. by rewrite andb_false_r. Qed.


(** C7.  A submit while the hidden input holds no captured frame is
    answered by the notification and nothing else: no blob is read, no
    request is built or sent, nothing is left pending. *)
Theorem C7_submit_without_capture (s : state) :
  registered_submit E = true →
  cameraImageInput_value (ctl s) = "" →
  step Submit_cameraForm s = alert "Please capture a photo first" s
  ∧ net (step Submit_cameraForm s) = net s
  ∧ in_flight (step Submit_cameraForm s) = in_flight s.
Proof.
  intros HE Hv. unfold step, cameraForm_submit. rewrite HE, Hv. done.
Qed.

(** C9.  Switching to upload mode stops the stream that is held, if any,
    and forgets it; with no stream held it does nothing to the camera; done
    twice it is as done once; it disables the capture button.  Switching
    to camera mode shows the camera panel and leaves the camera alone: no
    [getUserMedia] call is made, no stream is acquired. *)
Theorem C9_mode_switch (s : state) :
  let u := switchToUploadMode E s in
  let c := switchToCameraMode E s in
  (stream (cam u) = None
   ∧ (∀ h, stream (cam s) = Some h → h ∉ live (cam u))
   ∧ (stream (cam s) = None → cam u = cam s)
   ∧ switchToUploadMode E u = u
   ∧ (captureButton E = true → captureButton_disabled (ctl u) = true))
  ∧ (cam c = cam s
     ∧ (cameraMode E = true → cameraMode_display (ctl c) = "block")
     ∧ (uploadMode E = true → uploadMode_display (ctl c) = "none")).
Proof.
  destruct s as [c [st lv gp gc ep cp] n l d a co], E as [e1 e2 e3 e4 e5 e6 e7 e8 e9 e10 e11 e12].
  unfold switchToUploadMode, switchToCameraMode, when; simpl.
  split; [| by destruct e3, e4; repeat split ].
  repeat split.
  - by destruct st, e3, e4, e7, e8.
  - intros h ->. destruct e3, e4, e7, e8; simpl;
      rewrite list_elem_of_In, filter_In; intros [_ H]; by rewrite Nat.eqb_refl in H.
  - intros ->. by destruct e3, e4, e7, e8.
  - destruct st, e3, e4, e7, e8; reflexivity.
  - intros ->. by destruct st, e3, e4, e7.
Qed.

(** The reset block of the success branch (lines 242-255), as a fact about
    the whole continuation. *)
Lemma cameraForm_submit_text_resets html s :
  let s' := cameraForm_submit_text E parseFromString html s in
  cameraImageInput_value (ctl s') = ""
  ∧ stream (cam s') = None
  ∧ (∀ h, stream (cam s) = Some h → h ∉ live (cam s'))
  ∧ (cameraPreviewContainer E = true →
     cameraPreviewContainer_display (ctl s') = "none")
  ∧ (startButton E = true →
     startButton_disabled (ctl s') = false
     ∧ startButton_innerHTML (ctl s') = START_CAMERA_HTML)
  ∧ (captureButton E = true → captureButton_disabled (ctl s') = true).
Proof.
  unfold cameraForm_submit_text.
  set (s1 := executeScriptsFrom _ _).
  assert (cam s1 = cam s) as Hcam.
  { subst s1. unfold executeScriptsFrom.
    destruct (_ ≫= _); [| done].
    destruct (for_of_scripts _ _ _) as [s2 rest] eqn:Hfor. simpl.
    enough (∀ tid l s0 s2 rest, for_of_scripts tid l s0 = (s2, rest) → cam s2 = cam s0) as Hen.
    { rewrite (Hen _ _ _ _ _ Hfor). unfold ensureLeafletCSS. by destruct (negb _). }
    clear. intros tid l. induction l as [|sc l IH]; intros s0 s2 rest; simpl.
    - by intros [= <- <-].
    - destruct (truthy _); [by intros [= <- <-] |]. intros H. by rewrite (IH _ _ _ H). }
  clearbody s1.
  destruct s1 as [c [st lv gp gc ep cp] n l d a co], E as [e1 e2 e3 e4 e5 e6 e7 e8 e9 e10 e11 e12].
  simpl in Hcam. unfold when; simpl.
  repeat split.
  - by destruct st, e7, e8, e10.
  - by destruct st, e7, e8, e10.
  - intros h Hh. rewrite <- Hcam in Hh. simpl in Hh. subst st.
    destruct e7, e8, e10; simpl;
      rewrite list_elem_of_In, filter_In; intros [_ H]; by rewrite Nat.eqb_refl in H.
  - intros ->. by destruct st, e7, e8.
  - subst e7. by destruct st, e8, e10.
  - subst e7. by destruct st, e8, e10.
  - intros ->. by destruct st, e7, e10.
Qed.


(** C4, as the code has it.  A reply that is not a readable 2xx reply is
    reported by the blocking notification and logged; the document, the
    controls, the camera (stream held, frame stored) and the loader are
    left as they were, so the same frame can be submitted again at once. *)
Theorem C4_failure_notifies_and_keeps_state (s : state) (sub : nat) (r : reply) :
  mem sub (posts (net s)) = true →
  failed r = true →
  let s' := step (Post_settled sub r) s in
  alerts s' = alerts s ++ [SUBMIT_ERROR]
  ∧ doc s' = doc s
  ∧ cam s' = cam s
  ∧ ctl s' = ctl s
  ∧ ldr s' = ldr s
  ∧ posts (net s') = remove_id sub (posts (net s))
  ∧ sent (net s') = sent (net s).
Proof.
  intros Hsub Hr s'. subst s'. unfold step. rewrite Hsub.
  destruct r; [done | ..]; by destruct s as [c ca [bf po se su] l d a co].
Qed.

(** C1, as the code has it.  A submit made while a frame is stored is
    never turned away: whatever is still in flight, it raises no
    notification and starts a chain of its own; and when the blob of a
    chain has been read, its POST is issued at once, next to the POSTs that
    are still outstanding.  Nothing is coalesced and nothing is queued. *)
Theorem C1_every_submit_starts_a_request (s : state) :
  (registered_submit E = true →
   cameraImageInput_value (ctl s) ≠ "" →
   let s' := step Submit_cameraForm s in
   alerts s' = alerts s
   ∧ in_flight s' = S (in_flight s)
   ∧ blob_fetches (net s')
     = blob_fetches (net s) ++ [(submits (net s), cameraImageInput_value (ctl s))]
   ∧ posts (net s') = posts (net s))
  ∧ (∀ sub url,
       assoc_id sub (blob_fetches (net s)) = Some url →
       let s' := step (BlobUrl_fetched sub) s in
       posts (net s') = posts (net s) ++ [sub]
       ∧ ∃ req, sent (net s') = sent (net s) ++ [req]
                ∧ req_url req = location_href
                ∧ req_method req = "POST"
                ∧ req_body req !! 0
                  = Some ("image", FileField url "camera-photo.jpg" "image/jpeg")).
Proof.
  split.
  - intros HE Hv s'. subst s'. unfold step, cameraForm_submit. rewrite HE.
    assert (truthy (cameraImageInput_value (ctl s)) = true) as ->.
    { unfold truthy. apply negb_true_iff, String.eqb_neq, Hv. }
    destruct s as [c ca [bf po se su] l d a co]. unfold in_flight. simpl.
    rewrite length_app. simpl. repeat split. lia.
  - intros sub url Hsub s'. subst s'. unfold step. rewrite Hsub.
    unfold cameraForm_submit_blob.
    destruct s as [c ca [bf po se su] l d a co]. simpl. split; [done |].
    eexists. split; [reflexivity |]. simpl. repeat split.
    by destruct (_ ≫= _).
Qed.

(** Submits pile up: [n] submits in a row, with a frame stored, leave [n]
    more submissions in flight and raise no notification. *)
Lemma submits_pile_up (n : nat) : ∀ s,
  registered_submit E = true →
  cameraImageInput_value (ctl s) ≠ "" →
  let s' := run (repeat Submit_cameraForm n) s in
  in_flight s' = in_flight s + n ∧ alerts s' = alerts s ∧ ctl s' = ctl s.
Proof.
  induction n as [|n IH]; intros s HE Hv; simpl; [by rewrite Nat.add_0_r |].
  assert (truthy (cameraImageInput_value (ctl s)) = true) as Ht.
  { unfold truthy. apply negb_true_iff, String.eqb_neq, Hv. }
  unfold cameraForm_submit. rewrite HE, Ht. simpl.
  set (s1 := upd_net _ s).
  destruct (IH s1 HE Hv) as (Hfl & Ha & Hc). rewrite Hfl, Ha, Hc.
  repeat split. subst s1. unfold in_flight.
  destruct s as [c ca [bf po se su] l d a co]. simpl. rewrite length_app. simpl. lia.
Qed.

(** C5 at the failing input.  Two clicks on the start button before the
    first [getUserMedia] call has settled leave two calls pending; when both
    are granted the script holds the second stream only, and the first one
    runs on with nothing left that could stop it. *)
Theorem C5_double_start_leaks (c : controls) (d : document) :
  startButton E = true →
  startButton_disabled c = false →
  let s := run [Click_startButton; Click_startButton;
                GetUserMedia_resolved 0; GetUserMedia_resolved 1]
               (initial c d) in
  stream (cam s) = Some 1
  ∧ live (cam s) = [0; 1]
  ∧ live (cam (switchToUploadMode E s)) = [0]
  ∧ stream (cam (switchToUploadMode E s)) = None.
Proof.
  intros HE Hc s. subst s.
  destruct E as [e1 e2 e3 e4 e5 e6 e7 e8 e9 e10 e11 e12]. simpl in HE. subst e7.
  destruct c as [c1 c2 c3 c4 c5 c6 c7 c8 c9 c10 c11 c12 c13 c14]. simpl in Hc. subst c5.
  by destruct e3, e4, e5, e8.
Qed.

End WithPage.

#[local] Existing Instance Demo.resolve.

(** C1 as stated fails: two submits in a row, both before anything has
    resolved, are both accepted, and two POST requests are outstanding at
    the same time. *)
Lemma C1_counterexample :
  let s := Demo.run [Submit_cameraForm; Submit_cameraForm;
                     BlobUrl_fetched 0; BlobUrl_fetched 1] Demo.captured in
  alerts s = []
  ∧ posts (net s) = [0; 1]
  ∧ length (sent (net s)) = 2
  ∧ ¬ in_flight s ≤ 1.
Proof. vm_compute. repeat split. lia. Qed.

(** C1 on the demo page: a second submit while the first POST is
    outstanding, and the POST of a chain whose blob has been read. *)
Lemma C1_witness :
  registered_submit Demo.E = true
  ∧ cameraImageInput_value (ctl Demo.posted) ≠ ""
  ∧ assoc_id 0 (blob_fetches (net (Demo.run [Submit_cameraForm] Demo.captured)))
    = Some "blob:0"
  ∧ in_flight (Demo.step Submit_cameraForm Demo.posted) = 2
  ∧ posts (net (Demo.run [Submit_cameraForm; BlobUrl_fetched 0] Demo.captured))
    = [0].
Proof.
  split; [reflexivity |]. split; [by vm_compute |]. split; [reflexivity |].
  split.
  - pose proof (C1_every_submit_starts_a_request (url_parser := Demo.resolve) Demo.E Demo.href Demo.parse
                  Demo.posted) as [Hsubmit _].
    by apply Hsubmit.
  - pose proof (C1_every_submit_starts_a_request (url_parser := Demo.resolve) Demo.E Demo.href Demo.parse
                  (Demo.run [Submit_cameraForm] Demo.captured)) as [_ Hblob].
    destruct (Hblob 0 "blob:0" eq_refl) as [Hposts _]. exact Hposts.
Defined.

(** C4 as stated fails in its last part: after a reply with status 500 the
    stream is still held and running, the frame is still stored and the
    controls are still those of a running camera. *)
Lemma C4_counterexample :
  let s' := Demo.step (Post_settled 0 Reply_not_ok) Demo.posted in
  alerts s' = [SUBMIT_ERROR]
  ∧ doc s' = doc Demo.posted
  ∧ stream (cam s') ≠ None
  ∧ live (cam s') = [0]
  ∧ cameraImageInput_value (ctl s') = "blob:0"
  ∧ startButton_disabled (ctl s') = true.
Proof. vm_compute. by repeat split. Qed.

(** C4 on the demo page: the transport fails while the POST is
    outstanding. *)
Lemma C4_witness :
  mem 0 (posts (net Demo.posted)) = true
  ∧ failed Reply_failed = true
  ∧ alerts (Demo.step (Post_settled 0 Reply_failed) Demo.posted) = [SUBMIT_ERROR]
  ∧ cam (Demo.step (Post_settled 0 Reply_failed) Demo.posted) = cam Demo.posted.
Proof.
  split; [reflexivity |]. split; [reflexivity |].
  pose proof (C4_failure_notifies_and_keeps_state (url_parser := Demo.resolve) Demo.E Demo.href Demo.parse
                Demo.posted 0 Reply_failed eq_refl eq_refl) as (Ha & _ & Hc & _).
  split; [exact Ha | exact Hc].
Defined.

(** C5 on the demo page. *)
Lemma C5_witness :
  startButton Demo.E = true
  ∧ startButton_disabled Demo.controls0 = false
  ∧ live (cam (Demo.run [Click_startButton; Click_startButton;
                         GetUserMedia_resolved 0; GetUserMedia_resolved 1]
                        (initial Demo.controls0 Demo.page0))) = [0; 1].
Proof.
  split; [reflexivity |]. split; [reflexivity |].
  pose proof (C5_double_start_leaks (url_parser := Demo.resolve) Demo.E Demo.href Demo.parse
                Demo.controls0 Demo.page0 eq_refl eq_refl) as (_ & Hlive & _).
  exact Hlive.
Defined.

(** C7 on the demo page, before any capture. *)
Lemma C7_witness :
  registered_submit Demo.E = true
  ∧ cameraImageInput_value (ctl (initial Demo.controls0 Demo.page0)) = ""
  ∧ Demo.step Submit_cameraForm (initial Demo.controls0 Demo.page0)
    = alert "Please capture a photo first" (initial Demo.controls0 Demo.page0).
Proof.
  split; [reflexivity |]. split; [reflexivity |].
  by apply (C7_submit_without_capture (url_parser := Demo.resolve) Demo.E Demo.href Demo.parse).
Defined.



(** C9 on the demo page, with the camera running. *)
Lemma C9_witness :
  stream (cam Demo.captured) = Some 0
  ∧ captureButton Demo.E = true
  ∧ (0 ∉ live (cam (switchToUploadMode Demo.E Demo.captured)))
  ∧ captureButton_disabled (ctl (switchToUploadMode Demo.E Demo.captured)) = true.
Proof.
  split; [reflexivity |]. split; [reflexivity |].
  pose proof (C9_mode_switch Demo.E Demo.captured) as [(_ & Hlive & _ & _ & Hbtn) _].
  split; [by apply Hlive | by apply Hbtn].
Defined.



End CameraFacts.

(** * The script loader *)

Module LoaderFacts.
Import Dom Page Script Observe.

Section WithPage.
Context {url_parser : UrlParser}.
Variable E : page_elements.
Variable location_href : string.
Variable parseFromString : string → document.

#[local] Abbreviation step := (Script.step E location_href parseFromString).
#[local] Abbreviation run := (Script.run E location_href parseFromString).

Lemma on_task_app tid l1 l2 :
  on_task tid (l1 ++ l2) = on_task tid l1 ++ on_task tid l2.
Proof. unfold on_task. by rewrite List.filter_app, List.map_app. Qed.

Lemma on_task_same tid l : on_task tid (List.map (pair tid) l) = l.
Proof.
  unfold on_task. induction l as [|a l IH]; [done |].
  simpl. rewrite Nat.eqb_refl. simpl. by rewrite IH.
Qed.

Lemma on_task_other tid tid' l :
  tid ≠ tid' → on_task tid' (List.map (pair tid) l) = [].
Proof.
  intros Hne. unfold on_task. induction l as [|a l IH]; [done |].
  simpl. by apply Nat.eqb_neq in Hne as ->.
Qed.

Lemma on_task_fresh tid l :
  Forall (λ e, fst e < tid) l → on_task tid l = [].
Proof.
  unfold on_task. induction 1 as [|e l He _ IH]; [done |].
  simpl. by assert ((fst e =? tid) = false) as -> by (apply Nat.eqb_neq; lia).
Qed.

(** A suspended activation goes on when the load awaited has settled. *)
Lemma activated_resume scripts l sc rest ok l2 rest2 :
  activated scripts l (sc :: rest) →
  activated rest l2 rest2 →
  activated scripts (l ++ Settled (url_prop "src" sc) ok :: l2) rest2.
Proof.
  intros H. remember (sc :: rest) as r eqn:Hr. revert Hr.
  induction H as [|sc0 scripts0 l0 rest0 Hin _ IH|sc0 scripts0 Hex
                 |sc0 scripts0 ok0 l0 rest0 Hex _ IH]; intros Hr H2.
  - done.
  - simpl. apply activated_inline; auto.
  - injection Hr as -> ->. simpl. by apply activated_settled.
  - simpl. apply activated_settled; auto.
Qed.

(** The loop of [executeScriptsFrom]: from any state, what it adds to the
    log is a sequential activation of the scripts it was given, and it
    touches neither the tasks nor anything outside the document and the
    log. *)
Lemma for_of_scripts_spec tid scripts : ∀ s s' rest,
  for_of_scripts tid scripts s = (s', rest) →
  tasks (ldr s') = tasks (ldr s)
  ∧ ctl s' = ctl s ∧ cam s' = cam s ∧ net s' = net s
  ∧ alerts s' = alerts s ∧ console s' = console s
  ∧ ∃ l, script_log (ldr s') = script_log (ldr s) ++ List.map (pair tid) l
         ∧ activated scripts l rest.
Proof.
  induction scripts as [|sc scripts IH]; intros s s' rest; simpl.
  - intros [= <- <-]. repeat split. exists []. split; [by rewrite app_nil_r | constructor].
  - destruct (truthy (url_prop "src" sc)) eqn:Hsrc.
    + intros [= <- <-]. repeat split. exists [Fetch (url_prop "src" sc)].
      split; [done | by constructor].
    + intros H. apply IH in H as (Ht & Hc & Hca & Hn & Ha & Hco & l & Hl & Hact).
      repeat split; try done.
      exists (Ran (textContent sc) :: l). split; [| by constructor].
      rewrite Hl. simpl. by rewrite <- app_assoc.
Qed.

(** What [activated] says, in elementary terms.  First: the scripts
    started so far are a prefix of the list, in the order of the list. *)
Lemma activated_order scripts l rest :
  activated scripts l rest →
  ∃ started, scripts = started ++ tail rest
             ∧ List.filter is_start l = List.map start_of started.
Proof.
  induction 1 as [|sc scripts l rest Hin _ (st & -> & IH)|sc scripts Hex
                 |sc scripts ok l rest Hex _ (st & -> & IH)].
  - by exists [].
  - exists (sc :: st). simpl. unfold start_of at 1. by rewrite Hin, IH.
  - exists [sc]. simpl. unfold start_of. by rewrite Hex.
  - exists (sc :: st). simpl. unfold start_of at 1. by rewrite Hex, IH.
Qed.

(** Second: whenever a script is started, every load started before it has
    settled. *)
Lemma activated_blocking scripts l rest :
  activated scripts l rest →
  ∀ l1 a l2, l = l1 ++ a :: l2 → is_start a = true →
    length (List.filter is_load l1) = length (List.filter is_settle l1).
Proof.
  induction 1 as [|sc scripts l rest Hin _ IH|sc scripts Hex
                 |sc scripts ok l rest Hex _ IH]; intros l1 a l2 Hl Ha.
  - by destruct l1.
  - destruct l1 as [|b l1]; [done |]. injection Hl as <- Hl. simpl. eauto.
  - destruct l1 as [|b [|b' l1]]; done.
  - destruct l1 as [|b [|b' l1]]; [done | |].
    + injection Hl as <- <- _. done.
    + injection Hl as <- <- Hl. simpl. f_equal. eauto.
Qed.

(** Third: the loads of [u] started are the references to [u] reached. *)
Lemma activated_fetches u scripts l rest :
  activated scripts l rest →
  fetches u l + references u (tail rest) = references u scripts.
Proof.
  unfold fetches, references.
  induction 1 as [|sc scripts l rest Hin _ IH|sc scripts Hex
                 |sc scripts ok l rest Hex _ IH]; simpl.
  - done.
  - by rewrite Hin.
  - rewrite Hex. simpl. by destruct (String.eqb _ _).
  - rewrite Hex. simpl. destruct (String.eqb _ _); simpl; lia.
Qed.

Lemma for_of_scripts_rest tid scripts : ∀ s s' rest,
  for_of_scripts tid scripts s = (s', rest) → length rest ≤ length scripts.
Proof.
  induction scripts as [|sc scripts IH]; intros s s' rest; simpl.
  - by intros [= <- <-].
  - destruct (truthy _); [by intros [= <- <-] |]. intros H%IH. lia.
Qed.

Lemma sum_tasks_app f ts1 ts2 :
  sum_tasks f (ts1 ++ ts2) = sum_tasks f ts1 + sum_tasks f ts2.
Proof. unfold sum_tasks. induction ts1; simpl; lia. Qed.

Lemma sum_tasks_insert f ts (tid : nat) t t' :
  ts !! tid = Some t →
  sum_tasks f (<[tid := t']> ts) + f t = sum_tasks f ts + f t'.
Proof.
  unfold sum_tasks. revert tid. induction ts as [|t0 ts IH]; intros [|tid]; simpl; try done.
  - intros [= ->]. lia.
  - intros H%IH. lia.
Qed.

Lemma fetches_app u l1 l2 : fetches u (l1 ++ l2) = fetches u l1 + fetches u l2.
Proof. unfold fetches. by rewrite List.filter_app, length_app. Qed.

Lemma map_snd_pair (tid : nat) (l : list activation) :
  List.map snd (List.map (pair tid) l) = l.
Proof. induction l; simpl; congruence. Qed.

(** The balance of loads and references. *)
Lemma balance_frame u s s' :
  ldr s' = ldr s →
  all_fetches u s + not_reached u s = referenced u s →
  all_fetches u s' + not_reached u s' = referenced u s'.
Proof. unfold all_fetches, not_reached, referenced. by intros ->. Qed.

Lemma balance_execute u container s :
  all_fetches u s + not_reached u s = referenced u s →
  all_fetches u (executeScriptsFrom container s)
  + not_reached u (executeScriptsFrom container s)
  = referenced u (executeScriptsFrom container s).
Proof.
  intros Hbal. destruct container as [c|]; [| done].
  unfold executeScriptsFrom.
  set (scripts := querySelectorAll (has_tag "script") c).
  set (s0 := ensureLeafletCSS s).
  assert (ldr s0 = ldr s) as Hs0 by (subst s0; unfold ensureLeafletCSS; by destruct (negb _)).
  destruct (for_of_scripts _ scripts s0) as [s' rest] eqn:Hfor.
  apply for_of_scripts_spec in Hfor as (Ht & _ & _ & _ & _ & _ & l & Hl & Hact).
  rewrite Hs0 in Ht, Hl.
  apply (activated_fetches u) in Hact.
  unfold all_fetches, not_reached, referenced in *.
  destruct s' as [c' ca' n' [ts' lg'] d' a' co']. simpl in *. subst ts' lg'.
  rewrite List.map_app, map_snd_pair, fetches_app, !sum_tasks_app. simpl. lia.
Qed.

Lemma balance_resumed u tid ok s :
  all_fetches u s + not_reached u s = referenced u s →
  all_fetches u (executeScriptsFrom_resumed tid ok s)
  + not_reached u (executeScriptsFrom_resumed tid ok s)
  = referenced u (executeScriptsFrom_resumed tid ok s).
Proof.
  intros Hbal. unfold executeScriptsFrom_resumed.
  destruct (tasks (ldr s) !! tid) as [[scripts [|sc rest]]|] eqn:Hlook; try done.
  set (s1 := when _ _ _).
  assert (ldr s1 = Loader (tasks (ldr s))
                     (script_log (ldr s) ++ [(tid, Settled (url_prop "src" sc) ok)])) as Hs1.
  { subst s1. unfold when, log. by destruct ok, s as [? ? ? [? ?] ? ? ?]. }
  destruct (for_of_scripts tid rest s1) as [s' rest'] eqn:Hfor.
  apply for_of_scripts_spec in Hfor as (Ht & _ & _ & _ & _ & _ & l & Hl & Hact).
  rewrite Hs1 in Ht, Hl. simpl in Ht, Hl.
  apply (activated_fetches u) in Hact.
  unfold all_fetches, not_reached, referenced in *.
  destruct s' as [c' ca' n' [ts' lg'] d' a' co']. simpl in *. subst ts' lg'.
  rewrite !List.map_app, map_snd_pair, !fetches_app.
  pose proof (sum_tasks_insert (λ t, references u (tail (t_rest t))) _ _ _
                (Task scripts rest') Hlook) as H1.
  pose proof (sum_tasks_insert (λ t, references u (t_scripts t)) _ _ _
                (Task scripts rest') Hlook) as H2.
  simpl in H1, H2.
  change (fetches u (List.map snd [(tid, Settled (url_prop "src" sc) ok)])) with 0. lia.
Qed.

Lemma loader_inv_initial c d : loader_inv (initial c d).
Proof. split; [by intros [|tid] t | constructor]. Qed.

Lemma loader_inv_frame s s' : ldr s' = ldr s → loader_inv s → loader_inv s'.
Proof. unfold loader_inv, tasks_in_order, log_bounded. by intros ->. Qed.

Lemma Forall_map_pair tid n (l : list activation) :
  tid < n → Forall (λ e : nat * activation, fst e < n) (List.map (pair tid) l).
Proof. intros H. induction l; constructor; done. Qed.

Lemma ensureLeafletCSS_ldr s : ldr (ensureLeafletCSS s) = ldr s.
Proof. unfold ensureLeafletCSS. by destruct (negb _). Qed.

(** A call of [executeScriptsFrom] becomes a new task, whose log is in
    order from its first step. *)
Lemma loader_inv_execute container s :
  loader_inv s → loader_inv (executeScriptsFrom container s).
Proof.
  intros [Hord Hbnd]. destruct container as [c|]; [| done].
  unfold executeScriptsFrom.
  set (scripts := querySelectorAll (has_tag "script") c).
  set (tid := length (tasks (ldr (ensureLeafletCSS s)))).
  destruct (for_of_scripts tid scripts (ensureLeafletCSS s)) as [s' rest] eqn:Hfor.
  apply for_of_scripts_spec in Hfor as (Ht & _ & _ & _ & _ & _ & l & Hl & Hact).
  rewrite ensureLeafletCSS_ldr in Ht, Hl. subst tid. rewrite ensureLeafletCSS_ldr in *.
  unfold loader_inv, tasks_in_order, log_bounded in *.
  destruct s' as [c' ca' n' [ts' lg'] d' a' co']. simpl in *. subst ts' lg'.
  split.
  - intros tid t Hlook. rewrite on_task_app.
    destruct (decide (tid = length (tasks (ldr s)))) as [-> | Hne].
    + rewrite lookup_app_r, Nat.sub_diag in Hlook by lia. injection Hlook as <-.
      rewrite on_task_same, (on_task_fresh _ _ Hbnd). done.
    + assert (tid < length (tasks (ldr s))) as Hlt.
      { apply lookup_lt_Some in Hlook. rewrite length_app in Hlook. simpl in Hlook. lia. }
      rewrite lookup_app_l in Hlook by done.
      rewrite on_task_other, app_nil_r by done. by apply Hord.
  - rewrite length_app. simpl. apply Forall_app. split.
    + eapply Forall_impl; [exact Hbnd |]. simpl. intros; lia.
    + apply Forall_map_pair. lia.
Qed.

(** When the load that a task awaits settles, the task goes on in order. *)
Lemma loader_inv_resumed tid ok s :
  loader_inv s → loader_inv (executeScriptsFrom_resumed tid ok s).
Proof.
  intros [Hord Hbnd]. unfold executeScriptsFrom_resumed.
  destruct (tasks (ldr s) !! tid) as [[scripts [|sc rest]]|] eqn:Hlook; try done.
  set (s1 := when _ _ _).
  assert (ldr s1 = Loader (tasks (ldr s))
                     (script_log (ldr s) ++ [(tid, Settled (url_prop "src" sc) ok)])) as Hs1.
  { subst s1. unfold when, log. by destruct ok, s as [? ? ? [? ?] ? ? ?]. }
  destruct (for_of_scripts tid rest s1) as [s' rest'] eqn:Hfor.
  apply for_of_scripts_spec in Hfor as (Ht & _ & _ & _ & _ & _ & l & Hl & Hact).
  rewrite Hs1 in Ht, Hl. simpl in Ht, Hl.
  pose proof (lookup_lt_Some _ _ _ Hlook) as Hlt.
  unfold loader_inv, tasks_in_order, log_bounded in *.
  destruct s' as [c' ca' n' [ts' lg'] d' a' co']. simpl in *. subst ts' lg'.
  split.
  - intros tid' t Hlook'. rewrite !on_task_app.
    destruct (decide (tid' = tid)) as [-> | Hne].
    + rewrite list_lookup_insert_eq in Hlook' by done. injection Hlook' as <-.
      rewrite on_task_same. change [(tid, Settled (url_prop "src" sc) ok)]
        with (List.map (pair tid) [Settled (url_prop "src" sc) ok]).
      rewrite on_task_same, <- app_assoc. simpl.
      eapply activated_resume; [| done]. by apply (Hord tid (Task scripts (sc :: rest))).
    + rewrite list_lookup_insert_ne in Hlook' by done.
      change [(tid, Settled (url_prop "src" sc) ok)]
        with (List.map (pair tid) [Settled (url_prop "src" sc) ok]).
      rewrite !on_task_other, !app_nil_r by done. by apply Hord.
  - rewrite length_insert. rewrite !Forall_app. split; [split |].
    + done.
    + by repeat constructor.
    + by apply Forall_map_pair.
Qed.

Lemma cameraForm_submit_text_ldr html s :
  ldr (cameraForm_submit_text E parseFromString html s)
  = ldr (executeScriptsFrom
           (querySelector RESULT (patch_result (parseFromString html) (doc s))
              ≫= deref (patch_result (parseFromString html) (doc s)))
           (upd_doc (patch_result (parseFromString html)) s)).
Proof.
  unfold cameraForm_submit_text.
  change (doc (upd_doc (patch_result (parseFromString html)) s))
    with (patch_result (parseFromString html) (doc s)).
  set (s1 := executeScriptsFrom _ _). clearbody s1.
  destruct s1 as [c [st lv gp gc ep cp] n l d a co], E as [e1 e2 e3 e4 e5 e6 e7 e8 e9 e10 e11 e12].
  unfold when. simpl. by destruct st, e7, e8, e10.
Qed.

(** An event touches the loader only by a call of [executeScriptsFrom] or by
    resuming one: what these two keep, every event keeps. *)
Lemma step_preserves (P : state → Prop) :
  (∀ s s', ldr s' = ldr s → P s → P s') →
  (∀ container s, P s → P (executeScriptsFrom container s)) →
  (∀ tid ok s, P s → P (executeScriptsFrom_resumed tid ok s)) →
  ∀ e s, P s → P (step e s).
Proof.
  intros Hframe Hexec Hres e s Hinv. destruct e; unfold Script.step.
  - destruct (registered_mode_toggle E); [| done].
    eapply Hframe; [| done]. unfold switchToUploadMode, when.
    destruct s as [c [st lv gp gc ep cp] n l d a co]. simpl.
    by destruct st, (uploadMode E), (cameraMode E), (startButton E), (captureButton E).
  - destruct (registered_mode_toggle E); [| done].
    eapply Hframe; [| done]. unfold switchToCameraMode, when.
    by destruct (uploadMode E), (cameraMode E).
  - destruct (_ && _); [| done]. eapply Hframe; [| done]; done.
  - destruct (mem _ _); [| done]. eapply Hframe; [| done].
    unfold startButton_click_resumed, when.
    by destruct (video E), (captureButton E).
  - destruct (mem _ _); [| done]. eapply Hframe; [| done]; done.
  - destruct (_ && _); [| done]. eapply Hframe; [| done].
    unfold captureButton_click. by destruct (stream _).
  - destruct (mem _ _); [| done]. eapply Hframe; [| done].
    unfold toBlob_callback, when.
    by destruct (cameraPreview E), (cameraPreviewContainer E), (cameraImageInput E).
  - destruct (registered_submit E); [| done]. eapply Hframe; [| done].
    unfold cameraForm_submit. by destruct (negb _).
  - destruct (assoc_id _ _); [| done]. eapply Hframe; [| done]; done.
  - eapply Hframe; [| done]; done.
  - destruct (mem _ _); [| done]. destruct r; try (eapply Hframe; [| done]; done).
    eapply Hframe; [apply cameraForm_submit_text_ldr |].
    apply Hexec. eapply Hframe; [| done]; done.
  - by apply Hres.
  - eapply Hframe; [| done]. unfold beforeunload. by destruct (stream _).
Qed.

Lemma run_preserves (P : state → Prop) :
  (∀ e s, P s → P (step e s)) → ∀ evs s, P s → P (run evs s).
Proof.
  intros Hstep evs. induction evs as [|e evs IH]; intros s Hinv; [done |].
  simpl. apply IH. by apply Hstep.
Qed.

Lemma loader_inv_step e s : loader_inv s → loader_inv (step e s).
Proof.
  apply step_preserves.
  - apply loader_inv_frame.
  - apply loader_inv_execute.
  - apply loader_inv_resumed.
Qed.

Lemma loader_inv_run evs s : loader_inv s → loader_inv (run evs s).
Proof. apply run_preserves, loader_inv_step. Qed.

(** A successful reply that brings a result node into the page makes one
    call of [executeScriptsFrom], and the scripts of that call are the
    scripts of the new node, in document order. *)
Lemma success_runs_scripts_of_newResult s sub html ln new :
  mem sub (posts (net s)) = true →
  querySelector RESULT (parseFromString html) = Some ln →
  deref (parseFromString html) ln = Some new →
  is_Some (querySelector RESULT (doc s)) ∨ is_Some (querySelector ANCHOR (doc s)) →
  ∃ rest, tasks (ldr (step (Post_settled sub (Reply_ok html)) s))
          = tasks (ldr s) ++ [Task (querySelectorAll (has_tag "script") new) rest].
Proof.
  intros Hsub Hl Hn Hor. unfold Script.step. rewrite Hsub.
  rewrite cameraForm_submit_text_ldr.
  change (doc (upd_net _ s)) with (doc s).
  rewrite (PatchFacts.injected_is_newResult _ _ _ _ Hl Hn Hor).
  unfold executeScriptsFrom.
  destruct (for_of_scripts _ _ _) as [s' rest] eqn:Hfor.
  apply for_of_scripts_spec in Hfor as (Ht & _).
  rewrite ensureLeafletCSS_ldr in Ht. exists rest.
  destruct s' as [c' ca' n' [ts' lg'] d' a' co']. simpl in *. by subst ts'.
Qed.

(** A successful reply without a result node leaves the result region of
    the page in place, and line 239 finds it: its scripts are activated
    once more. *)
Lemma success_without_result_reruns_scripts s sub html cur old :
  mem sub (posts (net s)) = true →
  querySelector RESULT (parseFromString html) = None →
  querySelector RESULT (doc s) = Some cur → deref (doc s) cur = Some old →
  ∃ rest, tasks (ldr (step (Post_settled sub (Reply_ok html)) s))
          = tasks (ldr s) ++ [Task (querySelectorAll (has_tag "script") old) rest].
Proof.
  intros Hsub Hl Hc Ho. unfold Script.step. rewrite Hsub.
  rewrite cameraForm_submit_text_ldr.
  change (doc (upd_net _ s)) with (doc s).
  rewrite (PatchFacts.patch_result_no_newResult _ _ Hl), Hc. simpl. rewrite Ho.
  unfold executeScriptsFrom.
  destruct (for_of_scripts _ _ _) as [s' rest] eqn:Hfor.
  apply for_of_scripts_spec in Hfor as (Ht & _).
  rewrite ensureLeafletCSS_ldr in Ht. exists rest.
  destruct s' as [c' ca' n' [ts' lg'] d' a' co']. simpl in *. by subst ts'.
Qed.

(** The [stream] variable tells whether a camera session is active: until
    the page is torn down, a stream that the script holds is running. *)
Lemma held_stream_is_live (c : controls) (d : document) (evs : list event) :
  BeforeUnload ∉ evs →
  let s := run evs (initial c d) in
  ∀ h, stream (cam s) = Some h → h ∈ live (cam s).
Proof.
  intros Hevs s. subst s.
  assert (∀ h, stream (cam (initial c d)) = Some h → h ∈ live (cam (initial c d)))
    as Hinit by done.
  revert Hevs Hinit. generalize (initial c d).
  induction evs as [|e evs IH]; intros s Hevs Hs; [done |].
  apply not_elem_of_cons in Hevs as [He Hevs].
  simpl. apply IH; [done |]. clear IH Hevs evs.
  destruct e; unfold Script.step; try done.
  - destruct (registered_mode_toggle E); [| done].
    destruct (CameraFacts.mode_switch_stream E s) as [-> _]. done.
  - destruct (registered_mode_toggle E); [| done].
    destruct (CameraFacts.mode_switch_stream E s) as [_ ->]. done.
  - by destruct (_ && _).
  - destruct (mem _ _); [| done]. intros h.
    unfold startButton_click_resumed, when.
    destruct s as [? [st lv gp gc ep cp] ? ? ? ? ?]. simpl.
    destruct (video E), (captureButton E); simpl; intros [= <-];
      apply elem_of_app; right; by apply list_elem_of_singleton.
  - by destruct (mem _ _).
  - destruct (_ && _); [| done]. unfold captureButton_click.
    by destruct s as [? [[h|] lv gp gc ep cp] ? ? ? ? ?].
  - destruct (mem _ _); [| done]. unfold toBlob_callback, when.
    by destruct (cameraPreview E), (cameraPreviewContainer E), (cameraImageInput E).
  - destruct (registered_submit E); [| done]. unfold cameraForm_submit.
    by destruct (negb _).
  - by destruct (assoc_id _ _).
  - destruct (mem _ _); [| done]. destruct r; try done.
    intros h Hh.
    destruct (CameraFacts.cameraForm_submit_text_resets E parseFromString html
                (upd_net (λ n, set_posts (remove_id sub (posts n)) n) s))
      as (_ & Hnone & _).
    congruence.
  - unfold executeScriptsFrom_resumed.
    destruct (tasks (ldr s) !! tid) as [[scripts [|sc rest]]|]; try done.
    set (s1 := when _ _ _).
    assert (cam s1 = cam s) as Hs1.
    { subst s1. unfold when, log. by destruct ok. }
    destruct (for_of_scripts tid rest s1) as [s' rest'] eqn:Hfor.
    apply for_of_scripts_spec in Hfor as (_ & _ & Hcam & _).
    change (cam (upd_ldr _ s')) with (cam s'). by rewrite Hcam, Hs1.
Qed.

(** C3.  At every moment of every run of the page, and for every call of
    [executeScriptsFrom] made so far, what the call has done is a
    sequential activation of its script list, in the order of the list (the
    static list that [querySelectorAll] gave for the result region): an
    external script is followed by nothing of that call until its load has
    settled, by [onload] or by [onerror], and so an inline script runs only
    when all the loads started before it have settled. *)
Theorem C3_scripts_in_document_order
    (c : controls) (d : document) (evs : list event) (tid : nat) (t : task) :
  let s := run evs (initial c d) in
  tasks (ldr s) !! tid = Some t →
  let l := on_task tid (script_log (ldr s)) in
  activated (t_scripts t) l (t_rest t)
  ∧ (∃ started, t_scripts t = started ++ tail (t_rest t)
                ∧ List.filter is_start l = List.map start_of started)
  ∧ (∀ l1 a l2, l = l1 ++ a :: l2 → is_start a = true →
       length (List.filter is_load l1) = length (List.filter is_settle l1)).
Proof.
  intros s Hlook l.
  assert (activated (t_scripts t) l (t_rest t)) as Hact.
  { by apply (loader_inv_run evs (initial c d) (loader_inv_initial c d)). }
  split; [done |]. split.
  - by eapply activated_order.
  - by eapply activated_blocking.
Qed.

(** The loop makes progress: a task is done once the loads it awaits have
    settled, however they settle. *)
Lemma settled_loads_finish_task tid (oks : list bool) : ∀ s t,
  tasks (ldr s) !! tid = Some t →
  length (t_rest t) ≤ length oks →
  ∃ t', tasks (ldr (run (List.map (Script_settled tid) oks) s)) !! tid = Some t'
        ∧ t_scripts t' = t_scripts t ∧ t_rest t' = [].
Proof.
  induction oks as [|ok oks IH]; intros s [scripts rest] Hlook Hlen; simpl in *.
  - exists (Task scripts rest). destruct rest; [done | simpl in Hlen; lia].
  - unfold executeScriptsFrom_resumed. rewrite Hlook.
    destruct rest as [|sc rest].
    { apply (IH s (Task scripts [])); [done | simpl; lia]. }
    set (s1 := when _ _ _).
    assert (tasks (ldr s1) = tasks (ldr s)) as Hs1.
    { subst s1. unfold when, log. by destruct ok, s as [? ? ? [? ?] ? ? ?]. }
    destruct (for_of_scripts tid rest s1) as [s' rest'] eqn:Hfor.
    pose proof (for_of_scripts_rest _ _ _ _ _ Hfor) as Hle.
    apply for_of_scripts_spec in Hfor as (Ht & _).
    apply (IH _ (Task scripts rest')); [| simpl in *; lia].
    destruct s' as [c' ca' n' [ts' lg'] d' a' co']. simpl in *.
    rewrite Ht, Hs1. apply list_lookup_insert_eq. by eapply lookup_lt_Some.
Qed.

(** C2, as the code has it.  Loads are not remembered: at every moment of
    every run, the loads of a URL started so far are as many as the
    references to it in the script lists of all the calls of
    [executeScriptsFrom] made so far, less the references that these calls
    have not reached yet.  So a URL is loaded once for every reference and
    every patch, not once for the page. *)
Theorem C2_every_patch_fetches_again
    (c : controls) (d : document) (evs : list event) (u : string) :
  let s := run evs (initial c d) in
  all_fetches u s + not_reached u s = referenced u s.
Proof.
  intros s. subst s. apply run_preserves; [| done].
  apply step_preserves.
  - apply balance_frame.
  - intros. by apply balance_execute.
  - intros. by apply balance_resumed.
Qed.

(** When no call is under way, the loads of a URL are as many as the
    references to it in all the patches made. *)
Lemma all_finished_fetches
    (c : controls) (d : document) (evs : list event) (u : string) :
  let s := run evs (initial c d) in
  Forall (λ t, finished t = true) (tasks (ldr s)) →
  all_fetches u s = referenced u s.
Proof.
  intros s Hfin.
  assert (not_reached u s = 0) as Hzero.
  { unfold not_reached, sum_tasks.
    induction Hfin as [|[scripts rest] ts Ht _ IH]; [done |].
    simpl. rewrite IH. by destruct rest. }
  pose proof (run_preserves (λ s, all_fetches u s + not_reached u s = referenced u s)
                (step_preserves _ (balance_frame u)
                   (λ c0 s0, balance_execute u c0 s0)
                   (λ tid ok s0, balance_resumed u tid ok s0))
                evs (initial c d) eq_refl) as Hbal.
  cbv beta in Hbal. fold s in Hbal. lia.
Qed.

End WithPage.

#[local] Existing Instance Demo.resolve.

(** C2 as stated fails: the same reply patched in twice, one patch after
    the other, loads the library it refers to twice, and twice the load
    goes from started to settled. *)
Lemma C2_counterexample :
  all_fetches Demo.LEAFLET_JS Demo.patched_twice = 2
  ∧ script_log (ldr Demo.patched_twice)
    = [(0, Fetch Demo.LEAFLET_JS); (0, Settled Demo.LEAFLET_JS true);
       (0, Ran "initMap()");
       (1, Fetch Demo.LEAFLET_JS); (1, Settled Demo.LEAFLET_JS true);
       (1, Ran "initMap()")]
  ∧ ¬ all_fetches Demo.LEAFLET_JS Demo.patched_twice ≤ 1.
Proof. vm_compute. repeat split. lia. Qed.

(** C3 on the demo page: the reply with the map has just been patched in,
    and the call waits for the library. *)
Lemma C3_witness :
  let s := Script.run Demo.E Demo.href Demo.parse Demo.patch_started
             (initial Demo.controls0 Demo.page0) in
  tasks (ldr s) !! 0 = Some (Task [Demo.LIB; Demo.INIT] [Demo.LIB; Demo.INIT])
  ∧ activated [Demo.LIB; Demo.INIT] (on_task 0 (script_log (ldr s)))
      [Demo.LIB; Demo.INIT].
Proof.
  intros s.
  assert (tasks (ldr s) !! 0
          = Some (Task [Demo.LIB; Demo.INIT] [Demo.LIB; Demo.INIT])) as Hlook.
  { vm_compute. reflexivity. }
  split; [exact Hlook |].
  destruct (C3_scripts_in_document_order (url_parser := Demo.resolve)
              Demo.E Demo.href Demo.parse
              Demo.controls0 Demo.page0 Demo.patch_started 0
              (Task [Demo.LIB; Demo.INIT] [Demo.LIB; Demo.INIT]) Hlook)
    as [Hact _].
  exact Hact.
Defined.

End LoaderFacts.

(** * Invariants of the camera session *)

Module CameraInvariants.
Import Dom Page Script CameraView.

Section WithPage.
Context {url_parser : UrlParser}.
Variable E : page_elements.
Variable location_href : string.
Variable parseFromString : string → document.

#[local] Abbreviation step := (Script.step E location_href parseFromString).
#[local] Abbreviation run := (Script.run E location_href parseFromString).

(** The view after the event is [v']: shown first, then used. *)
Ltac view_is v' :=
  match goal with
  | |- camera_move _ _ _ ?x => assert (x = v') as ->
  end.

Lemma executeScriptsFrom_keeps container s :
  ctl (executeScriptsFrom container s) = ctl s
  ∧ cam (executeScriptsFrom container s) = cam s
  ∧ net (executeScriptsFrom container s) = net s
  ∧ alerts (executeScriptsFrom container s) = alerts s.
Proof.
  destruct container as [c|]; [| done]. unfold executeScriptsFrom.
  destruct (for_of_scripts _ _ _) as [s' rest] eqn:Hfor.
  apply LoaderFacts.for_of_scripts_spec in Hfor as (_ & Hc & Hca & Hn & Ha & _).
  unfold ensureLeafletCSS in *. by destruct (negb _).
Qed.

Lemma executeScriptsFrom_resumed_keeps tid ok s :
  ctl (executeScriptsFrom_resumed tid ok s) = ctl s
  ∧ cam (executeScriptsFrom_resumed tid ok s) = cam s
  ∧ net (executeScriptsFrom_resumed tid ok s) = net s
  ∧ alerts (executeScriptsFrom_resumed tid ok s) = alerts s.
Proof.
  unfold executeScriptsFrom_resumed.
  destruct (tasks (ldr s) !! tid) as [[scripts [|sc rest]]|]; try done.
  destruct (for_of_scripts _ _ _) as [s' rest'] eqn:Hfor.
  apply LoaderFacts.for_of_scripts_spec in Hfor as (_ & Hc & Hca & Hn & Ha & _).
  unfold when, log in *. by destruct ok.
Qed.

Lemma camera_view_submit_text html s :
  camera_view_of (cameraForm_submit_text E parseFromString html s)
  = stopped E (camera_view_of s).
Proof.
  unfold cameraForm_submit_text.
  destruct (executeScriptsFrom_keeps
              (querySelector RESULT (doc (upd_doc (patch_result (parseFromString html)) s))
                 ≫= deref (doc (upd_doc (patch_result (parseFromString html)) s)))
              (upd_doc (patch_result (parseFromString html)) s)) as (Hc & Hca & _).
  set (s1 := executeScriptsFrom _ _) in *. clearbody s1.
  unfold camera_view_of, stopped, when, released. simpl in Hc, Hca.
  destruct s1 as [c1 [st lv gp gc ep cp] n l d a co]. simpl in *. subst c1.
  rewrite <- Hca. simpl.
  by destruct st, (startButton E), (captureButton E), (cameraPreviewContainer E).
Qed.

(** Every event moves the camera in one of the ways of [camera_move]. *)
Lemma step_camera_move e s :
  camera_move E e (camera_view_of s) (camera_view_of (step e s)).
Proof.
  destruct e; unfold Script.step.
  - destruct (registered_mode_toggle E); [| constructor].
    view_is (stopped E (camera_view_of s)); [| by constructor].
    unfold camera_view_of, stopped, switchToUploadMode, when, released.
    destruct s as [c [st lv gp gc ep cp] n l d a co]. simpl.
    by destruct st, (uploadMode E), (cameraMode E), (startButton E), (captureButton E).
  - destruct (registered_mode_toggle E); [| constructor].
    view_is (camera_view_of s); [| constructor].
    unfold camera_view_of, switchToCameraMode, when.
    by destruct (uploadMode E), (cameraMode E).
  - unfold registered_start.
    destruct (startButton E) eqn:HE; [| constructor]. simpl.
    destruct (startButton_disabled (ctl s)) eqn:Hd; [constructor |]. simpl.
    by apply (move_clicked E (camera_view_of s)).
  - destruct (mem call (gum_pending (cam s))) eqn:Hm; [| constructor].
    view_is (granted E call (camera_view_of s)); [| by constructor].
    unfold camera_view_of, granted, startButton_click_resumed, when.
    by destruct (video E), (captureButton E).
  - destruct (mem call (gum_pending (cam s))) eqn:Hm; [| constructor].
    by apply (move_denied E call (camera_view_of s)).
  - destruct (_ && _); [| constructor].
    view_is (camera_view_of s); [| constructor].
    unfold camera_view_of, captureButton_click.
    by destruct s as [c [[h|] lv gp gc ep cp] n l d a co].
  - destruct (mem _ _); [| constructor].
    view_is (camera_view_of s); [| constructor].
    unfold camera_view_of, toBlob_callback, when.
    by destruct (cameraPreview E), (cameraPreviewContainer E), (cameraImageInput E).
  - destruct (registered_submit E); [| constructor].
    view_is (camera_view_of s); [| constructor].
    unfold camera_view_of, cameraForm_submit. by destruct (negb _).
  - destruct (assoc_id _ _); constructor.
  - constructor.
  - destruct (mem _ _); [| constructor]. destruct r; try constructor.
    rewrite camera_view_submit_text. by constructor.
  - view_is (camera_view_of s); [| constructor].
    unfold camera_view_of.
    by destruct (executeScriptsFrom_resumed_keeps tid ok s) as (-> & -> & _).
  - view_is (torn_down (camera_view_of s)); [| constructor].
    unfold camera_view_of, torn_down, beforeunload, released.
    by destruct s as [c [[h|] lv gp gc ep cp] n l d a co].
Qed.

Lemma run_snoc evs e s : run (evs ++ [e]) s = step e (run evs s).
Proof. unfold Script.run. by rewrite fold_left_app. Qed.

Lemma released_all h (l : list nat) : (∀ x, x ∈ l → x = h) → released h l = [].
Proof.
  intros Hall. unfold released. induction l as [|x l IH]; [done |].
  simpl. rewrite (Hall x) by apply list_elem_of_here. rewrite Nat.eqb_refl. simpl.
  apply IH. intros y Hy. apply Hall. by apply list_elem_of_further.
Qed.

Lemma remove_id_length k (l : list nat) : length (remove_id k l) ≤ length l.
Proof. unfold remove_id. induction l; simpl; [done |]. destruct (negb _); simpl; lia. Qed.

Lemma start_available_move e v v' :
  camera_move E e v v' → start_available E v → start_available E v'.
Proof.
  intros Hmove [H1 H2]. destruct Hmove as [e v|v HE Hd|call v Hm|call v Hm|e v _|v];
    unfold start_available; simpl.
  - done.
  - split; [done |]. intros HE'. congruence.
  - split; [done |]. intros HE'. destruct (H2 HE') as [Hp _]. by rewrite Hp in Hm.
  - split; [done |]. intros HE'. destruct (H2 HE') as [Hp ?]. by rewrite Hp in Hm.
  - destruct (startButton E) eqn:HE; [done |]. destruct (H2 eq_refl). by split.
  - done.
Qed.

Lemma capture_guarded_move e v v' :
  camera_move E e v v' → capture_guarded E v → capture_guarded E v'.
Proof.
  intros Hmove [H1 H2]. destruct Hmove as [e v|v HE Hd|call v Hm|call v Hm|e v _|v];
    unfold capture_guarded; simpl; try done.
  - split; [done |]. intros HE. rewrite HE. auto.
  - destruct (captureButton E); [done |]. rewrite (H2 eq_refl). done.
Qed.

Lemma single_session_released v :
  single_session v →
  match v_stream v with Some h => released h (v_live v) | None => v_live v end = [].
Proof.
  intros [_ Hlive]. destruct (v_stream v) as [h|] eqn:Hs.
  - apply released_all. intros x Hx. destruct (Hlive x Hx) as [Hx' _]. congruence.
  - destruct (v_live v) as [|x l]; [done |].
    destruct (Hlive x (list_elem_of_here _ _)) as [Hx' _]. congruence.
Qed.

Lemma single_session_move e v v' :
  camera_move E e v v' →
  (e = Click_startButton → v_pending v = []) →
  single_session v → single_session v'.
Proof.
  intros Hmove Hcalm Hinv. pose proof Hinv as [Hlen Hlive].
  destruct Hmove as [e v|v HE Hd|call v Hm|call v Hm|e v _|v];
    unfold single_session; simpl.
  - done.
  - assert (v_live v = []) as Hl.
    { destruct (v_live v) as [|x l]; [done |].
      destruct (Hlive x (list_elem_of_here _ _)) as [_ Hx]. congruence. }
    rewrite Hl in *. rewrite (Hcalm eq_refl). simpl. split; [lia |].
    intros h Hh. by apply elem_of_nil in Hh.
  - destruct (v_pending v) as [|x [|y p]] eqn:Hp; simpl in *; [done | | lia].
    destruct (v_live v) as [|z l] eqn:Hl; simpl in *; [| lia].
    unfold mem in Hm. simpl in Hm. rewrite orb_false_r in Hm.
    apply Nat.eqb_eq in Hm as <-. unfold remove_id. simpl.
    rewrite Nat.eqb_refl. simpl. split; [lia |].
    intros h Hh. apply list_elem_of_singleton in Hh as ->. done.
  - split; [| done]. pose proof (remove_id_length call (v_pending v)). lia.
  - rewrite (single_session_released v Hinv). simpl. split; [lia |].
    intros h Hh. by apply elem_of_nil in Hh.
  - rewrite (single_session_released v Hinv). simpl. split; [lia |].
    intros h Hh. by apply elem_of_nil in Hh.
Qed.

Lemma run_view_invariant (P : camera_view → Prop) :
  (∀ e v v', camera_move E e v v' → P v → P v') →
  ∀ evs s, P (camera_view_of s) → P (camera_view_of (run evs s)).
Proof.
  intros Hmove evs. induction evs as [|e evs IH]; intros s Hs; [done |].
  simpl. apply IH. eapply Hmove; [apply step_camera_move | done].
Qed.

(** The user is never locked out of the camera: on a page whose start
    button is enabled at first, whenever the script holds no stream -- at
    first, after a denied permission, after a mode switch, after a
    submission -- the start button is enabled. *)
Theorem start_enabled_when_idle (c : controls) (d : document) (evs : list event) :
  startButton_disabled c = false →
  let s := run evs (initial c d) in
  stream (cam s) = None → startButton_disabled (ctl s) = false.
Proof.
  intros Hc s.
  assert (start_available E (camera_view_of s)) as [H _]; [| exact H].
  apply (run_view_invariant _ start_available_move). by split.
Qed.

(** The capture button never invites a capture without a camera: on a page
    whose capture button is disabled at first, it is enabled only while the
    script holds a stream. *)
Theorem capture_enabled_only_with_stream
    (c : controls) (d : document) (evs : list event) :
  captureButton_disabled c = true →
  let s := run evs (initial c d) in
  captureButton_disabled (ctl s) = false → stream (cam s) ≠ None.
Proof.
  intros Hc s.
  assert (capture_guarded E (camera_view_of s)) as [H _]; [| exact H].
  apply (run_view_invariant _ capture_guarded_move). split; [| done].
  simpl. congruence.
Qed.

(** When no start click arrives while a [getUserMedia] call is pending, at
    most one stream runs at any time, and it is the stream that the script
    holds: nothing is leaked. *)
Theorem one_stream_without_overlapping_starts
    (c : controls) (d : document) (evs : list event) :
  no_start_while_pending E location_href parseFromString evs (initial c d) →
  let s := run evs (initial c d) in
  length (live (cam s)) ≤ 1
  ∧ ∀ h, h ∈ live (cam s) → stream (cam s) = Some h.
Proof.
  intros Hcalm s.
  assert (single_session (camera_view_of s)) as [Hlen Hlive].
  { subst s.
    assert (single_session (camera_view_of (initial c d))) as Hinit.
    { split; [simpl; lia |]. intros h Hh. by apply elem_of_nil in Hh. }
    revert Hcalm Hinit. generalize (initial c d).
    induction evs as [|e evs IH]; intros s0 Hcalm Hinit; [done |].
    destruct Hcalm as [He Hcalm]. simpl. apply IH; [done |].
    eapply single_session_move; [apply step_camera_move | done | done]. }
  simpl in *. split; [lia |]. intros h Hh. by destruct (Hlive h Hh).
Qed.

End WithPage.

#[local] Existing Instance Demo.resolve.

(** On the demo page: the start of the camera is denied. *)
Lemma start_enabled_when_idle_witness :
  startButton_disabled Demo.controls0 = false
  ∧ stream (cam (Demo.run [Click_startButton; GetUserMedia_rejected 0]
                   (initial Demo.controls0 Demo.page0))) = None
  ∧ startButton_disabled
      (ctl (Demo.run [Click_startButton; GetUserMedia_rejected 0]
              (initial Demo.controls0 Demo.page0))) = false.
Proof.
  split; [reflexivity |]. split; [reflexivity |].
  by apply (start_enabled_when_idle (url_parser := Demo.resolve) Demo.E Demo.href Demo.parse Demo.controls0
              Demo.page0 [Click_startButton; GetUserMedia_rejected 0]).
Defined.

(** On the demo page: the camera has been started. *)
Lemma capture_enabled_only_with_stream_witness :
  captureButton_disabled Demo.controls0 = true
  ∧ captureButton_disabled
      (ctl (Script.run Demo.E Demo.href Demo.parse
              [Click_startButton; GetUserMedia_resolved 0]
              (initial Demo.controls0 Demo.page0))) = false
  ∧ stream (cam (Script.run Demo.E Demo.href Demo.parse
                   [Click_startButton; GetUserMedia_resolved 0]
                   (initial Demo.controls0 Demo.page0))) ≠ None.
Proof.
  split; [reflexivity |]. split; [reflexivity |].
  by apply (capture_enabled_only_with_stream (url_parser := Demo.resolve) Demo.E Demo.href Demo.parse
              Demo.controls0 Demo.page0
              [Click_startButton; GetUserMedia_resolved 0]).
Defined.

(** On the demo page: start, capture, and a mode switch that stops the
    camera. *)
Lemma one_stream_without_overlapping_starts_witness :
  no_start_while_pending Demo.E Demo.href Demo.parse
    (Demo.capture_events ++ [Click_uploadModeBtn])
    (initial Demo.controls0 Demo.page0)
  ∧ length (live (cam (Script.run Demo.E Demo.href Demo.parse
                         (Demo.capture_events ++ [Click_uploadModeBtn])
                         (initial Demo.controls0 Demo.page0)))) ≤ 1.
Proof.
  assert (no_start_while_pending (url_parser := Demo.resolve) Demo.E Demo.href Demo.parse
            (Demo.capture_events ++ [Click_uploadModeBtn])
            (initial Demo.controls0 Demo.page0)) as Hcalm.
  { simpl. repeat split; intros H; try discriminate H; reflexivity. }
  split; [exact Hcalm |].
  by destruct (one_stream_without_overlapping_starts (url_parser := Demo.resolve) Demo.E Demo.href Demo.parse
                 Demo.controls0 Demo.page0 _ Hcalm).
Defined.

End CameraInvariants.

(** * Invariants of the submissions *)

Module SubmitInvariants.
Import Dom Page Script SubmitView.

Section WithPage.
Context {url_parser : UrlParser}.
Variable E : page_elements.
Variable location_href : string.
Variable parseFromString : string → document.

#[local] Abbreviation step := (Script.step E location_href parseFromString).
#[local] Abbreviation run := (Script.run E location_href parseFromString).

Ltac sview_is v' :=
  match goal with
  | |- submit_move _ _ _ _ ?x => assert (x = v') as ->
  end.

Lemma assoc_id_elem_of {A} k (l : list (nat * A)) u :
  assoc_id k l = Some u → (k, u) ∈ l.
Proof.
  induction l as [|[k' v] l IH]; simpl; [done |].
  destruct (k =? k') eqn:Hk.
  - apply Nat.eqb_eq in Hk as ->. intros [= ->]. apply list_elem_of_here.
  - intros H. apply list_elem_of_further. auto.
Qed.

Lemma drop_id_Forall {A} (P : nat * A → Prop) k l :
  Forall P l → Forall P (drop_id k l).
Proof.
  unfold drop_id. induction 1 as [|x l Hx _ IH]; simpl; [constructor |].
  destruct (negb _); [by constructor | done].
Qed.

Lemma drop_id_length_le {A} k (l : list (nat * A)) :
  length (drop_id k l) ≤ length l.
Proof. unfold drop_id. induction l; simpl; [done |]. destruct (negb _); simpl; lia. Qed.

Lemma drop_id_absent {A} k (l : list (nat * A)) :
  k ∉ List.map fst l → drop_id k l = l.
Proof.
  unfold drop_id. induction l as [|[k' v] l IH]; simpl; [done |].
  intros Hk. apply not_elem_of_cons in Hk as [Hne Hk].
  assert ((k' =? k) = false) as -> by (apply Nat.eqb_neq; congruence).
  simpl. by rewrite IH.
Qed.

Lemma drop_id_NoDup {A} k (l : list (nat * A)) :
  NoDup (List.map fst l) → NoDup (List.map fst (drop_id k l)).
Proof.
  unfold drop_id. induction l as [|[k' v] l IH]; simpl; [done |].
  intros [Hk Hl]%NoDup_cons. destruct (negb _); simpl; [| by apply IH].
  apply NoDup_cons. split; [| by apply IH].
  intros Hin. apply Hk. clear -Hin.
  induction l as [|[k'' v''] l IH]; simpl in *; [done |].
  destruct (negb _); simpl in *.
  - apply elem_of_cons in Hin as [-> | Hin]; [apply list_elem_of_here |].
    apply list_elem_of_further. auto.
  - apply list_elem_of_further. auto.
Qed.

(** With numbers of their own, dropping a chain that is there removes
    exactly that chain. *)
Lemma drop_id_length {A} k (l : list (nat * A)) u :
  NoDup (List.map fst l) → assoc_id k l = Some u →
  S (length (drop_id k l)) = length l.
Proof.
  induction l as [|[k' v] l IH]; simpl; [done |].
  intros [Hk Hl]%NoDup_cons. destruct (k =? k') eqn:Hkk.
  - apply Nat.eqb_eq in Hkk as ->. intros _.
    unfold drop_id. simpl. rewrite Nat.eqb_refl. simpl.
    fold (drop_id k' l). by rewrite drop_id_absent.
  - intros Hu. unfold drop_id. simpl. rewrite Nat.eqb_sym, Hkk. simpl.
    fold (drop_id k l). by rewrite (IH Hl Hu).
Qed.

Lemma submit_view_submit_text html s :
  submit_view_of (cameraForm_submit_text E parseFromString html s)
  = SView "" (captures (cam s)) (encodes_pending (cam s)) (blob_fetches (net s))
          (posts (net s)) (sent (net s)) (submits (net s)).
Proof.
  unfold cameraForm_submit_text.
  destruct (CameraInvariants.executeScriptsFrom_keeps
              (querySelector RESULT (doc (upd_doc (patch_result (parseFromString html)) s))
                 ≫= deref (doc (upd_doc (patch_result (parseFromString html)) s)))
              (upd_doc (patch_result (parseFromString html)) s)) as (Hc & Hca & Hn & _).
  set (s1 := executeScriptsFrom _ _) in *. clearbody s1.
  simpl in Hc, Hca, Hn. rewrite <- Hca, <- Hn.
  unfold submit_view_of, when.
  destruct s1 as [c1 [st lv gp gc ep cp] n l d a co]. simpl.
  by destruct st, (startButton E), (captureButton E), (cameraPreviewContainer E).
Qed.

(** Every event moves the submissions in one of the ways of
    [submit_move]. *)
Lemma step_submit_move e s :
  submit_move E location_href e (submit_view_of s) (submit_view_of (step e s)).
Proof.
  destruct e; unfold Script.step.
  - destruct (registered_mode_toggle E); [| constructor].
    sview_is (submit_view_of s); [| constructor].
    unfold submit_view_of, switchToUploadMode, when.
    destruct s as [c [st lv gp gc ep cp] n l d a co]. simpl.
    by destruct st, (uploadMode E), (cameraMode E), (startButton E), (captureButton E).
  - destruct (registered_mode_toggle E); [| constructor].
    sview_is (submit_view_of s); [| constructor].
    unfold submit_view_of, switchToCameraMode, when.
    by destruct (uploadMode E), (cameraMode E).
  - destruct (_ && _); constructor.
  - destruct (mem _ _); [| constructor].
    sview_is (submit_view_of s); [| constructor].
    unfold submit_view_of, startButton_click_resumed, when.
    by destruct (video E), (captureButton E).
  - destruct (mem _ _); constructor.
  - destruct (_ && _); [| constructor]. unfold captureButton_click.
    destruct s as [c [[h|] lv gp gc ep cp] n l d a co]; [| constructor].
    apply (smove_captured E location_href videoWidth videoHeight
             (submit_view_of (State c (Camera (Some h) lv gp gc ep cp) n l d a co))).
  - destruct (mem capture (encodes_pending (cam s))) eqn:Hm; [| constructor].
    sview_is (SView (if cameraImageInput E then createObjectURL capture
                     else cameraImageInput_value (ctl s))
                (captures (cam s)) (remove_id capture (encodes_pending (cam s)))
                (blob_fetches (net s)) (posts (net s)) (sent (net s))
                (submits (net s))).
    { unfold submit_view_of, toBlob_callback, when.
      by destruct (cameraPreview E), (cameraPreviewContainer E), (cameraImageInput E). }
    by apply (smove_encoded E location_href capture (submit_view_of s)).
  - destruct (registered_submit E); [| constructor]. unfold cameraForm_submit.
    destruct (truthy (cameraImageInput_value (ctl s))) eqn:Ht; [| constructor].
    by apply (smove_submitted E location_href (submit_view_of s)).
  - destruct (assoc_id sub (blob_fetches (net s))) as [url|] eqn:Ha; [| constructor].
    unfold cameraForm_submit_blob.
    change (doc (upd_net _ s)) with (doc s).
    set (csrfToken := _ ≫= _).
    sview_is (SView (cameraImageInput_value (ctl s)) (captures (cam s))
                (encodes_pending (cam s)) (drop_id sub (blob_fetches (net s)))
                (posts (net s) ++ [sub])
                (sent (net s)
                 ++ [Request location_href "POST"
                       (IMAGE_FIELD url
                        :: match csrfToken with
                           | Some t => [("csrfmiddlewaretoken", TextField (prop "value" t))]
                           | None => []
                           end) POST_HEADERS])
                (submits (net s))).
    { unfold submit_view_of. simpl. by destruct csrfToken. }
    apply (smove_posted E location_href sub url _ (submit_view_of s) Ha).
    unfold token_only. destruct csrfToken; eauto.
  - apply (smove_lost E location_href sub (submit_view_of s)).
  - destruct (mem sub (posts (net s))) eqn:Hm; [| constructor].
    destruct r.
    + rewrite submit_view_submit_text.
      by apply (smove_answered E location_href sub (Reply_ok html) (submit_view_of s)).
    + by apply (smove_answered E location_href sub Reply_ok_unreadable (submit_view_of s)).
    + by apply (smove_answered E location_href sub Reply_not_ok (submit_view_of s)).
    + by apply (smove_answered E location_href sub Reply_failed (submit_view_of s)).
  - sview_is (submit_view_of s); [| constructor].
    unfold submit_view_of.
    by destruct (CameraInvariants.executeScriptsFrom_resumed_keeps tid ok s)
      as (-> & -> & -> & _).
  - sview_is (submit_view_of s); [| constructor].
    unfold submit_view_of, beforeunload.
    by destruct s as [c [[h|] lv gp gc ep cp] n l d a co].
Qed.

Lemma run_sview_invariant (P : submit_view → Prop) (allowed : event → Prop) :
  (∀ e v v', allowed e → submit_move E location_href e v v' → P v → P v') →
  ∀ evs s, Forall allowed evs →
    P (submit_view_of s) → P (submit_view_of (run evs s)).
Proof.
  intros Hmove evs. induction evs as [|e evs IH]; intros s Hall Hs; [done |].
  apply Forall_cons in Hall as [He Hall].
  simpl. apply IH; [done |]. eapply Hmove; [done | apply step_submit_move | done].
Qed.

Lemma is_capture_url_S n u : is_capture_url n u → is_capture_url (S n) u.
Proof. intros (k & Hk & ->). exists k. split; [lia | done]. Qed.

Lemma photo_request_S n req :
  photo_request location_href n req → photo_request location_href (S n) req.
Proof.
  intros (Hu & Hm & Hh & u & extra & Hcap & Hb & Ht).
  repeat split; try done. exists u, extra. eauto using is_capture_url_S.
Qed.

Lemma remove_id_Forall (P : nat → Prop) k l :
  Forall P l → Forall P (remove_id k l).
Proof.
  unfold remove_id. induction 1 as [|x l Hx _ IH]; simpl; [constructor |].
  destruct (negb _); [by constructor | done].
Qed.

Lemma mem_elem_of k (l : list nat) : mem k l = true → k ∈ l.
Proof.
  unfold mem. induction l as [|x l IH]; simpl; [done |].
  destruct (k =? x) eqn:Hk.
  - apply Nat.eqb_eq in Hk as ->. intros _. apply list_elem_of_here.
  - simpl. intros H. apply list_elem_of_further. auto.
Qed.

Lemma frames_are_captures_move e v v' :
  submit_move E location_href e v v' →
  frames_are_captures location_href v → frames_are_captures location_href v'.
Proof.
  intros Hmove (Hv & He & Hb & Hs).
  destruct Hmove as [e v|w h v|k v Hm|v Ht|sub url extra v Ha Hx|sub v|sub r v Hm];
    unfold frames_are_captures; simpl.
  - done.
  - repeat split.
    + destruct Hv; [by left | right; by apply is_capture_url_S].
    + apply Forall_app. split; [| by repeat constructor].
      eapply Forall_impl; [exact He |]. simpl. intros; lia.
    + eapply Forall_impl; [exact Hb |]. intros su. apply is_capture_url_S.
    + eapply Forall_impl; [exact Hs |]. apply photo_request_S.
  - repeat split; try done; [| by apply remove_id_Forall].
    destruct (cameraImageInput E); [| done]. right. exists k. split; [| done].
    apply mem_elem_of in Hm. rewrite Forall_forall in He. by apply He.
  - repeat split; try done. apply Forall_app. split; [done |].
    constructor; [| constructor]. simpl.
    destruct Hv as [Hv | Hv]; [| done]. rewrite Hv in Ht. done.
  - repeat split; try done; [by apply drop_id_Forall |].
    apply Forall_app. split; [done |]. constructor; [| constructor].
    repeat split. exists url, extra. repeat split; [| done].
    apply assoc_id_elem_of in Ha. rewrite Forall_forall in Hb.
    apply (Hb (sub, url) Ha).
  - repeat split; try done. by apply drop_id_Forall.
  - repeat split; try done. destruct (is_ok r); [by left | done].
Qed.

Lemma one_post_per_submit_move e v v' :
  submit_move E location_href e v v' →
  one_post_per_submit v → one_post_per_submit v'.
Proof.
  intros Hmove (Hnd & Hlt & Hle).
  destruct Hmove as [e v|w h v|k v Hm|v Ht|sub url extra v Ha Hx|sub v|sub r v Hm];
    unfold one_post_per_submit; simpl; try done.
  - rewrite List.map_app, length_app. simpl. repeat split.
    + apply NoDup_app. split; [done |]. split; [| apply NoDup_singleton].
      intros x Hx ->%list_elem_of_singleton.
      apply list_elem_of_fmap in Hx as ([k u] & Heq & Hin).
      rewrite Forall_forall in Hlt. specialize (Hlt _ Hin). simpl in Hlt, Heq. lia.
    + apply Forall_app. split; [| by repeat constructor].
      eapply Forall_impl; [exact Hlt |]. simpl. intros; lia.
    + lia.
  - repeat split; [by apply drop_id_NoDup | by apply drop_id_Forall |].
    rewrite length_app. simpl.
    pose proof (drop_id_length _ _ _ Hnd Ha). lia.
  - repeat split; [by apply drop_id_NoDup | by apply drop_id_Forall |].
    pose proof (drop_id_length_le sub (w_blob_fetches v)). lia.
Qed.

Lemma every_submit_posted_move e v v' :
  is_blob_failure e = false →
  submit_move E location_href e v v' →
  one_post_per_submit v ∧ every_submit_posted v →
  one_post_per_submit v' ∧ every_submit_posted v'.
Proof.
  intros He Hmove [Hone Heq].
  split; [by eapply one_post_per_submit_move |].
  destruct Hone as (Hnd & _ & _).
  destruct Hmove as [e v|w h v|k v Hm|v Ht|sub url extra v Ha Hx|sub v|sub r v Hm];
    unfold every_submit_posted in *; simpl in *; try done.
  - rewrite length_app. simpl. lia.
  - rewrite length_app. simpl. pose proof (drop_id_length _ _ _ Hnd Ha). lia.
Qed.

(** Whatever the page stores as the captured frame, and whatever it has
    posted, is a photo captured on this page: every request issued goes to
    the URL of the page, by POST, marked as script-initiated, with the blob
    of a capture as its field [image] (a JPEG file named camera-photo.jpg)
    and after it, at most, the anti-forgery token. *)
Theorem posted_requests_are_captured_photos
    (c : controls) (d : document) (evs : list event) :
  cameraImageInput_value c = "" →
  let s := run evs (initial c d) in
  (cameraImageInput_value (ctl s) = ""
   ∨ is_capture_url (captures (cam s)) (cameraImageInput_value (ctl s)))
  ∧ ∀ req, req ∈ sent (net s) →
      photo_request location_href (captures (cam s)) req.
Proof.
  intros Hc s.
  assert (frames_are_captures location_href (submit_view_of s)) as (Hv & _ & _ & Hs).
  { apply (run_sview_invariant _ (λ _, True)).
    - intros e v v' _. apply frames_are_captures_move.
    - by apply Forall_true.
    - repeat split; simpl; [by left | constructor..]. }
  split; [done |]. intros req Hreq. rewrite Forall_forall in Hs. by apply Hs.
Qed.

(** A submit is never posted twice: the POSTs issued, together with the
    submissions still reading their blob, are never more than the submits
    that passed the empty-frame check; and they are exactly as many when no
    blob read has failed. *)
Theorem one_post_per_accepted_submit
    (c : controls) (d : document) (evs : list event) :
  let s := run evs (initial c d) in
  length (sent (net s)) + length (blob_fetches (net s)) ≤ submits (net s)
  ∧ (Forall (λ e, is_blob_failure e = false) evs →
     length (sent (net s)) + length (blob_fetches (net s)) = submits (net s)).
Proof.
  intros s.
  assert (one_post_per_submit (submit_view_of (initial c d))) as Hinit.
  { repeat split; simpl; [constructor | constructor | lia]. }
  split.
  - assert (one_post_per_submit (submit_view_of s)) as (_ & _ & H); [| exact H].
    apply (run_sview_invariant _ (λ _, True)); [| by apply Forall_true | done].
    intros e v v' _. apply one_post_per_submit_move.
  - intros Hevs.
    assert (one_post_per_submit (submit_view_of s)
            ∧ every_submit_posted (submit_view_of s)) as [_ H]; [| exact H].
    apply (run_sview_invariant
             (λ v, one_post_per_submit v ∧ every_submit_posted v)
             (λ e, is_blob_failure e = false)); [| done | by split].
    intros e v v'. apply every_submit_posted_move.
Qed.

End WithPage.

#[local] Existing Instance Demo.resolve.

(** On the demo page: a photo is captured and submitted. *)
Lemma posted_requests_are_captured_photos_witness :
  cameraImageInput_value Demo.controls0 = ""
  ∧ sent (net (Script.run Demo.E Demo.href Demo.parse
                 (Demo.capture_events ++ [Submit_cameraForm; BlobUrl_fetched 0])
                 (initial Demo.controls0 Demo.page0)))
    = [Request Demo.href "POST" [IMAGE_FIELD "blob:0"] POST_HEADERS]
  ∧ photo_request Demo.href 1
      (Request Demo.href "POST" [IMAGE_FIELD "blob:0"] POST_HEADERS).
Proof.
  split; [reflexivity |].
  assert (sent (net (Script.run Demo.E Demo.href Demo.parse
                       (Demo.capture_events ++ [Submit_cameraForm; BlobUrl_fetched 0])
                       (initial Demo.controls0 Demo.page0)))
          = [Request Demo.href "POST" [IMAGE_FIELD "blob:0"] POST_HEADERS]) as Hsent.
  { vm_compute. reflexivity. }
  split; [exact Hsent |].
  destruct (posted_requests_are_captured_photos (url_parser := Demo.resolve) Demo.E Demo.href Demo.parse
              Demo.controls0 Demo.page0
              (Demo.capture_events ++ [Submit_cameraForm; BlobUrl_fetched 0])
              eq_refl) as [_ Hreq].
  apply Hreq. rewrite Hsent. apply list_elem_of_here.
Defined.

(** On the demo page: two submits of the same photo, both posted. *)
Lemma one_post_per_accepted_submit_witness :
  Forall (λ e, is_blob_failure e = false)
    (Demo.capture_events
     ++ [Submit_cameraForm; Submit_cameraForm; BlobUrl_fetched 0; BlobUrl_fetched 1])
  ∧ length (sent (net (Script.run Demo.E Demo.href Demo.parse
                         (Demo.capture_events
                          ++ [Submit_cameraForm; Submit_cameraForm;
                              BlobUrl_fetched 0; BlobUrl_fetched 1])
                         (initial Demo.controls0 Demo.page0))))
    + length (blob_fetches (net (Script.run Demo.E Demo.href Demo.parse
                         (Demo.capture_events
                          ++ [Submit_cameraForm; Submit_cameraForm;
                              BlobUrl_fetched 0; BlobUrl_fetched 1])
                         (initial Demo.controls0 Demo.page0))))
    = submits (net (Script.run Demo.E Demo.href Demo.parse
                         (Demo.capture_events
                          ++ [Submit_cameraForm; Submit_cameraForm;
                              BlobUrl_fetched 0; BlobUrl_fetched 1])
                         (initial Demo.controls0 Demo.page0))).
Proof.
  assert (Forall (λ e, is_blob_failure e = false)
            (Demo.capture_events
             ++ [Submit_cameraForm; Submit_cameraForm;
                 BlobUrl_fetched 0; BlobUrl_fetched 1])) as Hall.
  { repeat constructor. }
  split; [exact Hall |].
  destruct (one_post_per_accepted_submit (url_parser := Demo.resolve) Demo.E Demo.href Demo.parse
              Demo.controls0 Demo.page0
              (Demo.capture_events
               ++ [Submit_cameraForm; Submit_cameraForm;
                   BlobUrl_fetched 0; BlobUrl_fetched 1])) as [_ Heq].
  exact (Heq Hall).
Defined.

End SubmitInvariants.

(** * The stylesheet is injected once *)

Module StylesheetFacts.
Import Dom Page Script Stylesheet DomFacts ResultFacts.

Section WithPage.
Context {url_parser : UrlParser}.
Variable E : page_elements.
Variable location_href : string.
Variable parseFromString : string → document.

#[local] Abbreviation step := (Script.step E location_href parseFromString).
#[local] Abbreviation run := (Script.run E location_href parseFromString).

Lemma is_LEAFLET_LINK_spec n :
  is_LEAFLET_LINK n = true → n = LEAFLET_LINK.
Proof.
  destruct n as [t [|c cs] [|[k1 v1] [|[k2 v2] [|? ?]]] [|k kids]|]; try done.
  simpl. intros H. repeat (apply andb_true_iff in H as [H ?]).
  repeat match goal with Hx : String.eqb _ _ = true |- _ =>
    apply String.eqb_eq in Hx end.
  by subst.
Qed.

(** The link of the loader passes the test of line 194, the URL of the
    loader being one that the parser gives back as it is. *)
Lemma LEAFLET_LINK_is_stylesheet :
  resolve_url LEAFLET_CSS = LEAFLET_CSS →
  is_leaflet_stylesheet LEAFLET_LINK = true.
Proof.
  intros Hurl. unfold is_leaflet_stylesheet, url_prop, LEAFLET_LINK.
  cbn [getAttribute assoc]. change (String.eqb "href" "rel") with false.
  change (String.eqb "href" "href") with true. cbv iota. rewrite Hurl.
  reflexivity.
Qed.

Lemma is_LEAFLET_LINK_childless n : is_LEAFLET_LINK n = true → children n = [].
Proof. by intros ->%is_LEAFLET_LINK_spec. Qed.

Lemma is_LEAFLET_LINK_classless c n : is_LEAFLET_LINK n = true → has_class c n = false.
Proof. by intros ->%is_LEAFLET_LINK_spec. Qed.

Lemma is_LEAFLET_LINK_with_children n kids :
  kids ≠ [] → is_LEAFLET_LINK (with_children n kids) = false.
Proof. destruct n as [t [|c cs] [|[k1 v1] [|[k2 v2] [|? ?]]] ?|]; by destruct kids. Qed.

Lemma existsb_app_true {A} (f : A → bool) l1 l2 :
  existsb f (l1 ++ l2) = existsb f l1 || existsb f l2.
Proof. apply existsb_app. Qed.

Lemma existsb_flat_map_here (f : node → bool) (l : list node) n :
  n ∈ l → f n = true →
  existsb f (flat_map (λ k, k :: descendants k) l) = true.
Proof.
  induction 1 as [n l|n m l _ IH]; intros Hf; simpl.
  - by rewrite Hf.
  - rewrite existsb_app. rewrite (IH Hf). by rewrite !orb_true_r.
Qed.

(** A link in the head is a Leaflet stylesheet of the document. *)
Lemma injected_links_stylesheet d :
  resolve_url LEAFLET_CSS = LEAFLET_CSS →
  0 < injected_links d → has_leaflet_stylesheet d = true.
Proof.
  unfold injected_links, has_leaflet_stylesheet, all_nodes. intros Hurl Hpos.
  rewrite existsb_app. apply orb_true_iff. left.
  destruct (List.filter is_LEAFLET_LINK (doc_head d)) as [|n l] eqn:Hf; [simpl in Hpos; lia |].
  assert (In n (List.filter is_LEAFLET_LINK (doc_head d))) as Hin by (rewrite Hf; by left).
  apply filter_In in Hin as [Hin Hn].
  apply (existsb_flat_map_here _ _ n); [by apply list_elem_of_In |].
  rewrite (is_LEAFLET_LINK_spec n Hn). by apply LEAFLET_LINK_is_stylesheet.
Qed.

(** [ensureLeafletCSS] (lines 192-201), the URL of the loader being one
    that the parser gives back as it is: afterwards the document has a
    Leaflet stylesheet, so that a second call changes nothing; and the call
    changes the document at most by one element at the end of the head. *)
Theorem ensureLeafletCSS_once (s : state) :
  resolve_url LEAFLET_CSS = LEAFLET_CSS →
  let s' := ensureLeafletCSS s in
  has_leaflet_stylesheet (doc s') = true
  ∧ ensureLeafletCSS s' = s'
  ∧ doc_body (doc s') = doc_body (doc s)
  ∧ (∃ added, doc_head (doc s') = doc_head (doc s) ++ added ∧ length added ≤ 1)
  ∧ injected_links (doc s') ≤ Nat.max 1 (injected_links (doc s)).
Proof.
  intros Hurl s'. subst s'.
  assert (∀ s0, has_leaflet_stylesheet (doc s0) = true → ensureLeafletCSS s0 = s0)
    as Hsame.
  { intros s0 Hal. unfold ensureLeafletCSS. fold (has_leaflet_stylesheet (doc s0)).
    by rewrite Hal. }
  assert (has_leaflet_stylesheet (doc (ensureLeafletCSS s)) = true) as Hafter.
  { unfold ensureLeafletCSS. fold (has_leaflet_stylesheet (doc s)).
    destruct (has_leaflet_stylesheet (doc s)) eqn:Hal; [done |]. simpl.
    unfold has_leaflet_stylesheet, all_nodes. simpl.
    rewrite flat_map_app, !existsb_app. simpl.
    fold LEAFLET_LINK. rewrite (LEAFLET_LINK_is_stylesheet Hurl). simpl.
    by rewrite orb_true_r. }
  split; [done |]. split; [by apply Hsame |].
  unfold ensureLeafletCSS. fold (has_leaflet_stylesheet (doc s)).
  destruct (has_leaflet_stylesheet (doc s)) eqn:Hal; simpl.
  - split; [done |]. split; [| lia].
    exists []. split; [by rewrite app_nil_r | simpl; lia].
  - split; [done |]. split; [exists [LEAFLET_LINK]; split; [done | simpl; lia] |].
    unfold injected_links. simpl. rewrite List.filter_app, length_app. simpl.
    destruct (List.filter is_LEAFLET_LINK (doc_head (doc s))) as [|x l] eqn:Hf;
      [simpl; lia |].
    assert (has_leaflet_stylesheet (doc s) = true); [| congruence].
    apply injected_links_stylesheet; [done |].
    unfold injected_links. rewrite Hf. simpl. lia.
Qed.

#[local] Arguments node_at : simpl never.
#[local] Arguments replace_at : simpl never.
#[local] Arguments insert_after : simpl never.

Lemma filter_insert_neutral (P : node → bool) (l : list node) (i : nat) x y :
  l !! i = Some x → P x = false → P y = false →
  List.filter P (<[i:=y]> l) = List.filter P l.
Proof.
  revert i. induction l as [|z l IH]; intros [|i]; try done.
  - simpl. intros [= ->] -> ->. done.
  - intros Hi Hx Hy. change (<[S i:=y]> (z :: l)) with (z :: <[i:=y]> l).
    cbn [List.filter]. by rewrite (IH i Hi Hx Hy).
Qed.

Lemma filter_alter_neutral (P : node → bool) f (l : list node) (i : nat) x :
  l !! i = Some x → P x = false → P (f x) = false →
  List.filter P (alter f i l) = List.filter P l.
Proof.
  revert i. induction l as [|z l IH]; intros [|i]; try done.
  - simpl. intros [= ->] -> ->. done.
  - intros Hi Hx Hy. change (alter f (S i) (z :: l)) with (z :: alter f i l).
    cbn [List.filter]. by rewrite (IH i Hi Hx Hy).
Qed.

Lemma length_replace_at p new : ∀ l, length (replace_at p new l) = length l.
Proof.
  destruct p as [|i [|j r]]; intros l; [done | apply length_insert |].
  rewrite replace_at_cons_cons. apply length_alter.
Qed.

Lemma length_insert_after p new : ∀ l, length l ≤ length (insert_after p new l).
Proof.
  destruct p as [|i [|j r]]; intros l; [done | |].
  - change (insert_after [i] new l) with (take (S i) l ++ new :: drop (S i) l).
    rewrite length_app. simpl. rewrite length_take, length_drop. lia.
  - rewrite insert_after_cons_cons, length_alter. done.
Qed.

Lemma nonempty_length (l l' : list node) : l ≠ [] → length l ≤ length l' → l' ≠ [].
Proof. destruct l, l'; simpl; try done. lia. Qed.

Lemma query_children_nonempty sel n q : query sel (children n) = Some q → children n ≠ [].
Proof. by destruct (children n). Qed.

Lemma node_at_children_nonempty q n a :
  node_at q (children n) = Some a → children n ≠ [].
Proof. destruct (children n); [by rewrite node_at_nil_forest | done]. Qed.

(** Replacing what a class selector found leaves the links of the loader at
    the top of the forest alone. *)
Lemma links_replace_at c new p l :
  query (has_class c) l = Some p → is_LEAFLET_LINK new = false →
  List.filter is_LEAFLET_LINK (replace_at p new l) = List.filter is_LEAFLET_LINK l.
Proof.
  intros Hq Hnew. destruct p as [|i q]; [by apply query_not_root in Hq |].
  apply query_Some in Hq as [_ (a & Ha & Hhit)].
  apply hit_Some in Hhit as [[Hsel ->] | [_ Hq]].
  - change (replace_at [i] new l) with (<[i:=new]> l).
    eapply filter_insert_neutral; [done | | done].
    destruct (is_LEAFLET_LINK a) eqn:Hl; [| done].
    by rewrite (is_LEAFLET_LINK_classless c a Hl) in Hsel.
  - destruct q as [|j r]; [by apply query_not_root in Hq |].
    rewrite replace_at_cons_cons.
    pose proof (query_children_nonempty _ _ _ Hq) as Hne.
    eapply filter_alter_neutral; [done | |].
    + destruct (is_LEAFLET_LINK a) eqn:Hl; [| done].
      by rewrite (is_LEAFLET_LINK_childless a Hl) in Hne.
    + apply is_LEAFLET_LINK_with_children.
      eapply nonempty_length; [exact Hne |]. by rewrite length_replace_at.
Qed.

Lemma links_insert_after new p : ∀ l a,
  node_at p l = Some a → is_LEAFLET_LINK new = false →
  List.filter is_LEAFLET_LINK (insert_after p new l) = List.filter is_LEAFLET_LINK l.
Proof.
  intros l a Ha Hnew. destruct p as [|i [|j r]]; [done | |].
  - change (insert_after [i] new l) with (take (S i) l ++ new :: drop (S i) l).
    rewrite List.filter_app. simpl. rewrite Hnew, <- List.filter_app.
    by rewrite take_drop.
  - rewrite node_at_cons_cons in Ha.
    destruct (l !! i) as [n|] eqn:Hi; [simpl in Ha | done].
    rewrite insert_after_cons_cons.
    pose proof (node_at_children_nonempty _ _ _ Ha) as Hne.
    eapply filter_alter_neutral; [done | |].
    + destruct (is_LEAFLET_LINK n) eqn:Hl; [| done].
      by rewrite (is_LEAFLET_LINK_childless n Hl) in Hne.
    + apply is_LEAFLET_LINK_with_children.
      eapply nonempty_length; [exact Hne |]. apply length_insert_after.
Qed.

Lemma querySelector_InHead sel d p :
  querySelector sel d = Some (InHead p) → query sel (doc_head d) = Some p.
Proof.
  unfold querySelector. destruct (query sel (doc_head d)); [by intros [= ->] |].
  by destruct (query sel (doc_body d)).
Qed.

(** The result patch leaves the links of the loader in the head alone. *)
Lemma injected_links_patch_result parsed d :
  injected_links (patch_result parsed d) = injected_links d.
Proof.
  unfold patch_result.
  destruct (querySelector RESULT parsed) as [ln|] eqn:Hl; simpl;
    [| by destruct (querySelector RESULT d)].
  destruct (deref parsed ln) as [new|] eqn:Hn; [| by destruct (querySelector RESULT d)].
  assert (is_LEAFLET_LINK new = false) as Hnew.
  { pose proof (PatchFacts.newResult_matches _ _ _ Hl Hn) as Hsel.
    destruct (is_LEAFLET_LINK new) eqn:Hll; [| done].
    unfold RESULT in Hsel. by rewrite (is_LEAFLET_LINK_classless _ new Hll) in Hsel. }
  destruct (querySelector RESULT d) as [[p|p]|] eqn:Hc; try done.
  - unfold injected_links. simpl. f_equal.
    apply (links_replace_at "analysis-result"); [| done].
    by apply querySelector_InHead.
  - destruct (querySelector ANCHOR d) as [[p|p]|] eqn:Ha; try done.
    unfold injected_links. simpl. f_equal.
    destruct (querySelector_sound _ _ _ Ha) as (a & Hda & _).
    by eapply links_insert_after.
Qed.

Lemma for_of_scripts_head tid scripts : ∀ s s' rest,
  for_of_scripts tid scripts s = (s', rest) →
  doc_head (doc s') = doc_head (doc s).
Proof.
  induction scripts as [|sc scripts IH]; intros s s' rest; simpl.
  - by intros [= <- <-].
  - destruct (truthy _); [by intros [= <- <-] |]. intros H. by rewrite (IH _ _ _ H).
Qed.

Lemma injected_links_execute container s n :
  resolve_url LEAFLET_CSS = LEAFLET_CSS →
  injected_links (doc s) ≤ Nat.max 1 n →
  injected_links (doc (executeScriptsFrom container s)) ≤ Nat.max 1 n.
Proof.
  intros Hurl Hle. destruct container as [c|]; [| done]. unfold executeScriptsFrom.
  destruct (for_of_scripts _ _ _) as [s' rest] eqn:Hfor.
  apply for_of_scripts_head in Hfor.
  unfold injected_links in *. simpl. rewrite Hfor.
  unfold ensureLeafletCSS. fold (has_leaflet_stylesheet (doc s)).
  destruct (has_leaflet_stylesheet (doc s)) eqn:Hal; [done |]. simpl.
  rewrite List.filter_app, length_app. simpl.
  destruct (List.filter is_LEAFLET_LINK (doc_head (doc s))) as [|x l] eqn:Hf; [simpl; lia |].
  assert (has_leaflet_stylesheet (doc s) = true); [| congruence].
  apply injected_links_stylesheet; [done |].
  unfold injected_links. rewrite Hf. simpl. lia.
Qed.

Lemma injected_links_resumed tid ok s :
  injected_links (doc (executeScriptsFrom_resumed tid ok s)) = injected_links (doc s).
Proof.
  unfold executeScriptsFrom_resumed.
  destruct (tasks (ldr s) !! tid) as [[scripts [|sc rest]]|]; try done.
  destruct (for_of_scripts _ _ _) as [s' rest'] eqn:Hfor.
  apply for_of_scripts_head in Hfor. unfold injected_links. simpl. rewrite Hfor.
  unfold when, log. by destruct ok.
Qed.

(** The document changes only by the result patch and by the loader: what
    these keep, every event keeps. *)
Lemma step_preserves_doc (P : document → Prop) :
  (∀ parsed d, P d → P (patch_result parsed d)) →
  (∀ container s, P (doc s) → P (doc (executeScriptsFrom container s))) →
  (∀ tid ok s, P (doc s) → P (doc (executeScriptsFrom_resumed tid ok s))) →
  ∀ e s, P (doc s) → P (doc (step e s)).
Proof.
  intros Hpatch Hexec Hres e s Hs. destruct e; unfold Script.step.
  - destruct (registered_mode_toggle E); [| done].
    unfold switchToUploadMode, when.
    destruct s as [c [st lv gp gc ep cp] n l d a co]. simpl in *.
    by destruct st, (uploadMode E), (cameraMode E), (startButton E), (captureButton E).
  - destruct (registered_mode_toggle E); [| done].
    unfold switchToCameraMode, when. by destruct (uploadMode E), (cameraMode E).
  - by destruct (_ && _).
  - destruct (mem _ _); [| done]. unfold startButton_click_resumed, when.
    by destruct (video E), (captureButton E).
  - by destruct (mem _ _).
  - destruct (_ && _); [| done]. unfold captureButton_click. by destruct (stream _).
  - destruct (mem _ _); [| done]. unfold toBlob_callback, when.
    by destruct (cameraPreview E), (cameraPreviewContainer E), (cameraImageInput E).
  - destruct (registered_submit E); [| done]. unfold cameraForm_submit.
    by destruct (negb _).
  - by destruct (assoc_id _ _).
  - done.
  - destruct (mem _ _); [| done]. destruct r; try done.
    rewrite cameraForm_submit_text_doc. apply Hexec. simpl. by apply Hpatch.
  - by apply Hres.
  - unfold beforeunload. by destruct (stream _).
Qed.

(** The loader adds its stylesheet link to the head at most once in the
    life of the page, however many replies are patched in: the head never
    holds more than one such link, unless the page came with more.  (The
    URL of the loader is one that the parser gives back as it is.) *)
Theorem leaflet_link_injected_once
    (c : controls) (d : document) (evs : list event) :
  resolve_url LEAFLET_CSS = LEAFLET_CSS →
  injected_links (doc (run evs (initial c d))) ≤ Nat.max 1 (injected_links d).
Proof.
  intros Hurl.
  assert (injected_links (doc (initial c d)) ≤ Nat.max 1 (injected_links d)) as Hinit.
  { simpl. lia. }
  revert Hinit. generalize (initial c d).
  induction evs as [|e evs IH]; intros s Hs; [done |].
  simpl. apply IH.
  apply (step_preserves_doc (λ d0, injected_links d0 ≤ Nat.max 1 (injected_links d)));
    [| | | done].
  - intros parsed d0. by rewrite injected_links_patch_result.
  - intros container s0. by apply injected_links_execute.
  - intros tid ok s0. by rewrite injected_links_resumed.
Qed.

End WithPage.

#[local] Existing Instance Demo.resolve.

(** On the demo page, before any reply: the first call adds the link, a
    second call adds nothing. *)
Lemma ensureLeafletCSS_once_witness :
  resolve_url LEAFLET_CSS = LEAFLET_CSS
  ∧ has_leaflet_stylesheet (doc Demo.captured) = false
  ∧ has_leaflet_stylesheet (doc (ensureLeafletCSS Demo.captured)) = true
  ∧ ensureLeafletCSS (ensureLeafletCSS Demo.captured)
    = ensureLeafletCSS Demo.captured.
Proof.
  split; [reflexivity |]. split; [vm_compute; reflexivity |].
  destruct (ensureLeafletCSS_once (url_parser := Demo.resolve)
              Demo.captured eq_refl) as (Hhas & Hsame & _).
  split; [exact Hhas | exact Hsame].
Defined.

(** A page that brings its own Leaflet stylesheet, with [rel] in another
    spelling and a relative [href]: the selector of line 194 finds it, and
    the loader adds nothing. *)
Example ensureLeafletCSS_styled_page (c : controls) :
  ensureLeafletCSS (initial c Demo.page_styled) = initial c Demo.page_styled.
Proof. reflexivity. Qed.

(** On the demo page, patched twice: one link. *)
Lemma leaflet_link_injected_once_witness :
  resolve_url LEAFLET_CSS = LEAFLET_CSS
  ∧ injected_links
      (doc (Script.run Demo.E Demo.href Demo.parse
              (Demo.capture_events
               ++ Demo.patch_events 0
               ++ [Click_startButton; GetUserMedia_resolved 1;
                   Click_captureButton 1280 720; ToBlob_done 1]
               ++ Demo.patch_events 1)
              (initial Demo.controls0 Demo.page0)))
    ≤ Nat.max 1 (injected_links Demo.page0).
Proof.
  split; [reflexivity |].
  exact (leaflet_link_injected_once (url_parser := Demo.resolve)
           Demo.E Demo.href Demo.parse Demo.controls0 Demo.page0
           (Demo.capture_events
            ++ Demo.patch_events 0
            ++ [Click_startButton; GetUserMedia_resolved 1;
                Click_captureButton 1280 720; ToBlob_done 1]
            ++ Demo.patch_events 1) eq_refl).
Defined.

End StylesheetFacts.

(** * More on the loader and the patch *)

Module LoaderMore.
Import Dom Page Script Observe DomFacts LoaderFacts.

Section WithPage.
Context {url_parser : UrlParser}.
Variable E : page_elements.
Variable location_href : string.
Variable parseFromString : string → document.

#[local] Abbreviation step := (Script.step E location_href parseFromString).
#[local] Abbreviation run := (Script.run E location_href parseFromString).

#[local] Arguments node_at : simpl never.
#[local] Arguments replace_at : simpl never.
#[local] Arguments insert_after : simpl never.

(** The latest reply is the one shown.  After a successful reply that
    brings a result node, on a page that has a result region or the
    anchor, the first result node of the live document -- the one the next
    patch will replace -- is the node of this reply: whatever the replies
    before it put there is gone, and what the loader appends to the
    document does not get in front of it. *)
Theorem latest_reply_is_shown (s : state) (sub : nat) (html : string) ln new :
  mem sub (posts (net s)) = true →
  querySelector RESULT (parseFromString html) = Some ln →
  deref (parseFromString html) ln = Some new →
  is_Some (querySelector RESULT (doc s)) ∨ is_Some (querySelector ANCHOR (doc s)) →
  let d' := doc (step (Post_settled sub (Reply_ok html)) s) in
  querySelector RESULT d' ≫= deref d' = Some new.
Proof.
  intros Hsub Hln Hnew Hplace d'.
  pose proof (ResultFacts.reply_appended E location_href parseFromString
                s sub html Hsub) as Happ.
  fold d' in Happ.
  pose proof (PatchFacts.injected_is_newResult _ (doc s) _ _ Hln Hnew Hplace)
    as Hinj.
  cbv zeta in Hinj.
  unfold RESULT in *.
  rewrite (ResultFacts.querySelector_appended _ _ _ Happ).
  destruct (querySelector (has_class "analysis-result")
              (patch_result (parseFromString html) (doc s))) as [l|];
    [simpl in * | done].
  by eapply ResultFacts.deref_appended.
Qed.

Lemma run_app evs1 evs2 s : run (evs1 ++ evs2) s = run evs2 (run evs1 s).
Proof. unfold Script.run. by rewrite fold_left_app. Qed.

(** A load that fails does not stop the loop: once the loads that a call
    awaits have settled, whether by [onload] or by [onerror], the call is
    done and has started every script of its list, in the order of the
    list. *)
Theorem failed_loads_do_not_stop_the_loop
    (c : controls) (d : document) (evs : list event)
    (tid : nat) (t : task) (oks : list bool) :
  let s := run evs (initial c d) in
  tasks (ldr s) !! tid = Some t →
  length (t_rest t) ≤ length oks →
  let s' := run (List.map (Script_settled tid) oks) s in
  ∃ t', tasks (ldr s') !! tid = Some t'
        ∧ t_scripts t' = t_scripts t ∧ t_rest t' = []
        ∧ List.filter is_start (on_task tid (script_log (ldr s')))
          = List.map start_of (t_scripts t).
Proof.
  intros s Hlook Hlen s'.
  destruct (settled_loads_finish_task E location_href parseFromString
              tid oks s t Hlook Hlen) as (t' & Hlook' & Hscripts & Hrest).
  exists t'. repeat split; try done.
  assert (loader_inv s') as [Hord _].
  { subst s' s. apply loader_inv_run, loader_inv_run, loader_inv_initial. }
  specialize (Hord tid t' Hlook'). rewrite Hrest in Hord.
  apply activated_order in Hord as (started & Hst & Hfilter).
  simpl in Hst. rewrite app_nil_r in Hst. subst started.
  by rewrite Hfilter, Hscripts.
Qed.

(** A result that cannot be placed runs nothing: when the page has neither a
    result region nor the anchor, a successful reply leaves the document
    and the loader as they were -- no node is inserted, no stylesheet is
    added, no script is started. *)
Theorem unplaced_result_runs_nothing (s : state) (sub : nat) (html : string) :
  mem sub (posts (net s)) = true →
  querySelector RESULT (doc s) = None →
  querySelector ANCHOR (doc s) = None →
  let s' := step (Post_settled sub (Reply_ok html)) s in
  doc s' = doc s ∧ ldr s' = ldr s.
Proof.
  intros Hsub Hc Ha s'. subst s'. unfold Script.step. rewrite Hsub.
  rewrite ResultFacts.cameraForm_submit_text_doc, cameraForm_submit_text_ldr.
  change (doc (upd_net _ s)) with (doc s).
  rewrite (PatchFacts.patch_result_no_anchor _ _ Hc Ha), Hc. simpl.
  split; [| done]. apply (PatchFacts.patch_result_no_anchor _ _ Hc Ha).
Qed.

End WithPage.

#[local] Existing Instance Demo.resolve.

(** On the demo page: the reply with the map arrives when the old result is
    shown, and again when the map of the first reply is shown. *)
Lemma latest_reply_is_shown_witness :
  mem 0 (posts (net Demo.posted)) = true
  ∧ querySelector RESULT (Demo.parse "map") = Some (InBody [1])
  ∧ deref (Demo.parse "map") (InBody [1])
    = Some (Demo.result "EDIBLE" [Demo.LIB; Demo.INIT])
  ∧ is_Some (querySelector RESULT (doc Demo.posted))
  ∧ (let d' := doc (Script.step Demo.E Demo.href Demo.parse
                      (Post_settled 0 (Reply_ok "map")) Demo.posted) in
     querySelector RESULT d' ≫= deref d'
     = Some (Demo.result "EDIBLE" [Demo.LIB; Demo.INIT]))
  ∧ (let d' := doc (Script.step Demo.E Demo.href Demo.parse
                      (Post_settled 1 (Reply_ok "map")) Demo.reposted) in
     querySelector RESULT d' ≫= deref d'
     = Some (Demo.result "EDIBLE" [Demo.LIB; Demo.INIT])).
Proof.
  assert (mem 0 (posts (net Demo.posted)) = true) as Hsub
    by (vm_compute; reflexivity).
  assert (mem 1 (posts (net Demo.reposted)) = true) as Hsub'
    by (vm_compute; reflexivity).
  assert (is_Some (querySelector RESULT (doc Demo.posted))) as Hcur
    by (vm_compute; eauto).
  assert (is_Some (querySelector RESULT (doc Demo.reposted))) as Hcur'
    by (vm_compute; eauto).
  split; [exact Hsub |]. split; [reflexivity |]. split; [reflexivity |].
  split; [exact Hcur |]. split.
  - exact (latest_reply_is_shown (url_parser := Demo.resolve)
             Demo.E Demo.href Demo.parse Demo.posted 0 "map" (InBody [1]) _
             Hsub eq_refl eq_refl (or_introl Hcur)).
  - exact (latest_reply_is_shown (url_parser := Demo.resolve)
             Demo.E Demo.href Demo.parse Demo.reposted 1 "map" (InBody [1]) _
             Hsub' eq_refl eq_refl (or_introl Hcur')).
Defined.

(** On the demo page: the library fails to load, and the inline script that
    follows it is run all the same. *)
Lemma failed_loads_do_not_stop_the_loop_witness :
  let s := Script.run Demo.E Demo.href Demo.parse Demo.patch_started
             (initial Demo.controls0 Demo.page0) in
  let s' := Script.run Demo.E Demo.href Demo.parse
              (List.map (Script_settled 0) [false; true]) s in
  tasks (ldr s) !! 0 = Some (Task [Demo.LIB; Demo.INIT] [Demo.LIB; Demo.INIT])
  ∧ List.filter is_start (on_task 0 (script_log (ldr s')))
    = [Fetch Demo.LEAFLET_JS; Ran "initMap()"].
Proof.
  intros s s'.
  assert (tasks (ldr s) !! 0
          = Some (Task [Demo.LIB; Demo.INIT] [Demo.LIB; Demo.INIT])) as Hlook.
  { vm_compute. reflexivity. }
  split; [exact Hlook |].
  destruct (failed_loads_do_not_stop_the_loop (url_parser := Demo.resolve) Demo.E Demo.href Demo.parse
              Demo.controls0 Demo.page0 Demo.patch_started 0
              (Task [Demo.LIB; Demo.INIT] [Demo.LIB; Demo.INIT]) [false; true]
              Hlook (le_n 2)) as (t' & _ & _ & _ & Hstarts).
  exact Hstarts.
Defined.

(** On a page with neither result region nor anchor. *)
Lemma unplaced_result_runs_nothing_witness :
  let s := Script.run Demo.E Demo.href Demo.parse
             (Demo.capture_events ++ [Submit_cameraForm; BlobUrl_fetched 0])
             (initial Demo.controls0 Demo.page_bare) in
  mem 0 (posts (net s)) = true
  ∧ querySelector RESULT (doc s) = None
  ∧ querySelector ANCHOR (doc s) = None
  ∧ doc (Script.step Demo.E Demo.href Demo.parse
           (Post_settled 0 (Reply_ok "map")) s) = doc s.
Proof.
  intros s.
  assert (mem 0 (posts (net s)) = true) as H1 by (vm_compute; reflexivity).
  assert (querySelector RESULT (doc s) = None) as H2 by (vm_compute; reflexivity).
  assert (querySelector ANCHOR (doc s) = None) as H3 by (vm_compute; reflexivity).
  split; [exact H1 |]. split; [exact H2 |]. split; [exact H3 |].
  by destruct (unplaced_result_runs_nothing (url_parser := Demo.resolve) Demo.E Demo.href Demo.parse
                 s 0 "map" H1 H2 H3).
Defined.

(** On the demo page: the reply with the map is patched in. *)
Lemma success_runs_scripts_of_newResult_witness :
  mem 0 (posts (net Demo.posted)) = true
  ∧ querySelector RESULT (Demo.parse "map") = Some (InBody [1])
  ∧ deref (Demo.parse "map") (InBody [1])
    = Some (Demo.result "EDIBLE" [Demo.LIB; Demo.INIT])
  ∧ ∃ rest,
      tasks (ldr (Script.step Demo.E Demo.href Demo.parse
                    (Post_settled 0 (Reply_ok "map")) Demo.posted))
      = tasks (ldr Demo.posted)
        ++ [Task (querySelectorAll (has_tag "script")
                    (Demo.result "EDIBLE" [Demo.LIB; Demo.INIT])) rest].
Proof.
  assert (mem 0 (posts (net Demo.posted)) = true) as H1 by (vm_compute; reflexivity).
  assert (is_Some (querySelector RESULT (doc Demo.posted))
          ∨ is_Some (querySelector ANCHOR (doc Demo.posted))) as H4.
  { left. vm_compute. eauto. }
  split; [exact H1 |]. split; [reflexivity |]. split; [reflexivity |].
  exact (success_runs_scripts_of_newResult (url_parser := Demo.resolve) Demo.E Demo.href Demo.parse
           Demo.posted 0 "map" (InBody [1])
           (Demo.result "EDIBLE" [Demo.LIB; Demo.INIT]) H1 eq_refl eq_refl H4).
Defined.

(** On the demo page, with the map patched in: a reply without a result. *)
Lemma success_without_result_reruns_scripts_witness :
  let s := Script.run Demo.E Demo.href Demo.parse
             (Demo.patch_events 0
              ++ [Click_startButton; GetUserMedia_resolved 1;
                  Click_captureButton 1280 720; ToBlob_done 1;
                  Submit_cameraForm; BlobUrl_fetched 1]) Demo.captured in
  mem 1 (posts (net s)) = true
  ∧ querySelector RESULT (Demo.parse "none") = None
  ∧ querySelector RESULT (doc s) = Some (InBody [1])
  ∧ deref (doc s) (InBody [1]) = Some (Demo.result "EDIBLE" [Demo.LIB; Demo.INIT])
  ∧ ∃ rest,
      tasks (ldr (Script.step Demo.E Demo.href Demo.parse
                    (Post_settled 1 (Reply_ok "none")) s))
      = tasks (ldr s)
        ++ [Task (querySelectorAll (has_tag "script")
                    (Demo.result "EDIBLE" [Demo.LIB; Demo.INIT])) rest].
Proof.
  intros s.
  assert (mem 1 (posts (net s)) = true) as H1 by (vm_compute; reflexivity).
  assert (querySelector RESULT (doc s) = Some (InBody [1])) as H3
    by (vm_compute; reflexivity).
  assert (deref (doc s) (InBody [1])
          = Some (Demo.result "EDIBLE" [Demo.LIB; Demo.INIT])) as H4
    by (vm_compute; reflexivity).
  split; [exact H1 |]. split; [reflexivity |]. split; [exact H3 |].
  split; [exact H4 |].
  exact (success_without_result_reruns_scripts (url_parser := Demo.resolve) Demo.E Demo.href Demo.parse
           s 1 "none" (InBody [1]) (Demo.result "EDIBLE" [Demo.LIB; Demo.INIT])
           H1 eq_refl H3 H4).
Defined.

(** On the demo page: start, capture, submit, patch. *)
Lemma held_stream_is_live_witness :
  (BeforeUnload ∉ Demo.capture_events)
  ∧ stream (cam (Script.run Demo.E Demo.href Demo.parse Demo.capture_events
                   (initial Demo.controls0 Demo.page0))) = Some 0
  ∧ (0 ∈ live (cam (Script.run Demo.E Demo.href Demo.parse Demo.capture_events
                      (initial Demo.controls0 Demo.page0)))).
Proof.
  assert (BeforeUnload ∉ Demo.capture_events) as H.
  { unfold Demo.capture_events. rewrite !not_elem_of_cons.
    repeat split; try discriminate. apply not_elem_of_nil. }
  assert (stream (cam (Script.run Demo.E Demo.href Demo.parse Demo.capture_events
                         (initial Demo.controls0 Demo.page0))) = Some 0) as Hs
    by (vm_compute; reflexivity).
  split; [exact H |]. split; [exact Hs |].
  exact (held_stream_is_live (url_parser := Demo.resolve) Demo.E Demo.href Demo.parse Demo.controls0 Demo.page0
           Demo.capture_events H 0 Hs).
Defined.

End LoaderMore.

(** * The install button *)

Module InstallFacts.
Import Install.

Section WithButton.
Variable installButton : bool.

#[local] Abbreviation step := (Install.step installButton).
#[local] Abbreviation run := (Install.run installButton).

(** No offer, no prompt: while no offer of the browser is stored -- at
    load, and again after every choice of the user -- clicks on the install
    button show nothing, until the browser offers again. *)
Theorem no_prompt_without_offer (s : state) (evs : list event) :
  deferredPrompt s = None →
  Forall (λ e, is_offer e = false) evs →
  prompts (run evs s) = prompts s ∧ deferredPrompt (run evs s) = None.
Proof.
  revert s. induction evs as [|e evs IH]; intros s Hs Hevs; [done |].
  apply Forall_cons in Hevs as [He Hevs]. simpl.
  assert (prompts (step e s) = prompts s ∧ deferredPrompt (step e s) = None)
    as [Hp Hd].
  { destruct e; simpl in *; try done.
    - unfold installButton_click. rewrite Hs. by destruct installButton.
    - by destruct (Script.assoc_id _ _). }
  destruct (IH (step e s) Hd Hevs) as [Hp' Hd']. split; [congruence | done].
Qed.

Lemma one_prompt_per_offer_step e s :
  (e = Click_installButton → awaiting s = []) →
  one_prompt_per_offer s → one_prompt_per_offer (step e s).
Proof.
  intros Hcalm Hinv. pose proof Hinv as (Hnd & Hlt & Hfresh & Hdef & Hlen).
  destruct e; simpl.
  - repeat split; simpl; try done.
    + eapply Forall_impl; [exact Hlt |]. simpl. intros; lia.
    + intros _ e [= <-] Hin. rewrite Forall_forall in Hlt.
      specialize (Hlt _ Hin). lia.
    + intros e [= <-]. lia.
  - destruct installButton; [| done]. unfold installButton_click.
    destruct (deferredPrompt s) as [e|] eqn:Hd; [| done].
    specialize (Hcalm eq_refl). rewrite Hcalm in *.
    repeat split; simpl; try done.
    + apply NoDup_app. split; [done |]. split; [| apply NoDup_singleton].
      intros x Hx Hx'%list_elem_of_singleton. subst x.
      by apply (Hfresh eq_refl e).
    + apply Forall_app. split; [done |]. repeat constructor. by apply Hdef.
  - destruct (Script.assoc_id click (awaiting s)) as [e|] eqn:Ha; [| done].
    repeat split; simpl; try done.
    pose proof (SubmitInvariants.drop_id_length_le click (awaiting s)). lia.
  - done.
Qed.

(** One prompt per offer: when no click arrives while a choice is awaited,
    [prompt()] is never called twice on the same offer, and only on offers
    that the browser made. *)
Theorem one_prompt_per_offer_without_overlapping_clicks
    (display : string) (evs : list event) :
  no_click_while_awaiting installButton evs (initial display) →
  let s := run evs (initial display) in
  NoDup (prompts s) ∧ Forall (λ e, e < offers s) (prompts s).
Proof.
  intros Hcalm s.
  assert (one_prompt_per_offer s) as (Hnd & Hlt & _); [| done].
  subst s.
  assert (one_prompt_per_offer (initial display)) as Hinit.
  { repeat split; simpl; try done; try constructor; lia. }
  revert Hcalm Hinit. generalize (initial display).
  induction evs as [|e evs IH]; intros s Hcalm Hinit; [done |].
  destruct Hcalm as [He Hcalm]. simpl. apply IH; [done |].
  by apply one_prompt_per_offer_step.
Qed.

End WithButton.

(** An offer is dismissed; the button then is clicked again and again. *)
Lemma no_prompt_without_offer_witness :
  let s := Install.run true [BeforeInstallPrompt; Click_installButton; UserChoice 0 false]
             (initial "none") in
  deferredPrompt s = None
  ∧ Forall (λ e, is_offer e = false) [Click_installButton; Click_installButton]
  ∧ installButton_display s = "inline-block"
  ∧ prompts (Install.run true [Click_installButton; Click_installButton] s) = [0].
Proof.
  intros s.
  assert (Forall (λ e, is_offer e = false) [Click_installButton; Click_installButton])
    as Hall by (repeat constructor).
  split; [reflexivity |]. split; [exact Hall |]. split; [reflexivity |].
  by destruct (no_prompt_without_offer true s _ eq_refl Hall) as [-> _].
Defined.

(** Two offers, each accepted or dismissed before the next click. *)
Lemma one_prompt_per_offer_witness :
  no_click_while_awaiting true
    [BeforeInstallPrompt; Click_installButton; UserChoice 0 false;
     BeforeInstallPrompt; Click_installButton; UserChoice 1 true]
    (initial "none")
  ∧ prompts (Install.run true
               [BeforeInstallPrompt; Click_installButton; UserChoice 0 false;
                BeforeInstallPrompt; Click_installButton; UserChoice 1 true]
               (initial "none")) = [0; 1]
  ∧ NoDup (prompts (Install.run true
               [BeforeInstallPrompt; Click_installButton; UserChoice 0 false;
                BeforeInstallPrompt; Click_installButton; UserChoice 1 true]
               (initial "none"))).
Proof.
  assert (no_click_while_awaiting true
            [BeforeInstallPrompt; Click_installButton; UserChoice 0 false;
             BeforeInstallPrompt; Click_installButton; UserChoice 1 true]
            (initial "none")) as Hcalm.
  { simpl. repeat split; intros H; try discriminate H; reflexivity. }
  split; [exact Hcalm |]. split; [reflexivity |].
  by destruct (one_prompt_per_offer_without_overlapping_clicks true "none" _ Hcalm).
Defined.

End InstallFacts.

(** * Submitting again *)

Module SubmitMore.
Import Dom Page Script Observe.

Section WithPage.
Context {url_parser : UrlParser}.
Variable E : page_elements.
Variable location_href : string.
Variable parseFromString : string → document.

#[local] Abbreviation step := (Script.step E location_href parseFromString).

(** A photo is spent by its successful submission: after a successful
    reply the next submit, if no new photo has been captured, is answered
    by the notification and starts no request. *)
Theorem submit_after_success_needs_new_capture
    (s : state) (sub : nat) (html : string) :
  registered_submit E = true →
  mem sub (posts (net s)) = true →
  let s1 := step (Post_settled sub (Reply_ok html)) s in
  step Submit_cameraForm s1 = alert "Please capture a photo first" s1
  ∧ in_flight (step Submit_cameraForm s1) = in_flight s1.
Proof.
  intros HE Hsub s1.
  assert (cameraImageInput_value (ctl s1) = "") as Hv.
  { subst s1. unfold Script.step. rewrite Hsub.
    by destruct (CameraFacts.cameraForm_submit_text_resets E parseFromString html
                   (upd_net (λ n, set_posts (remove_id sub (posts n)) n) s))
      as (Hv & _). }
  change (step Submit_cameraForm s1)
    with (if registered_submit E then cameraForm_submit s1 else s1).
  unfold cameraForm_submit. by rewrite HE, Hv.
Qed.

(** A photo survives a failed submission: after a reply that is a failure,
    a submit reads the same stored frame again and starts a new chain for
    it. *)
Theorem submit_after_failure_sends_same_frame
    (s : state) (sub : nat) (r : reply) :
  registered_submit E = true →
  mem sub (posts (net s)) = true →
  failed r = true →
  cameraImageInput_value (ctl s) ≠ "" →
  let s1 := step (Post_settled sub r) s in
  let s2 := step Submit_cameraForm s1 in
  blob_fetches (net s2)
  = blob_fetches (net s) ++ [(submits (net s), cameraImageInput_value (ctl s))]
  ∧ alerts s2 = alerts s ++ [SUBMIT_ERROR].
Proof.
  intros HE Hsub Hr Hv s1 s2. subst s2 s1.
  assert (truthy (cameraImageInput_value (ctl s)) = true) as Ht.
  { unfold truthy. apply negb_true_iff, String.eqb_neq, Hv. }
  unfold Script.step. rewrite Hsub, HE.
  destruct r; [done | ..]; unfold cameraForm_submit, cameraForm_submit_caught;
    destruct s as [c ca [bf po se su] l d a co]; simpl in *; by rewrite Ht.
Qed.

End WithPage.

#[local] Existing Instance Demo.resolve.

(** On the demo page: the photo has been posted and the reply arrives. *)
Lemma submit_after_success_needs_new_capture_witness :
  registered_submit Demo.E = true
  ∧ mem 0 (posts (net Demo.posted)) = true
  ∧ in_flight (Demo.run [Post_settled 0 (Reply_ok "map"); Submit_cameraForm]
                 Demo.posted)
    = in_flight (Demo.run [Post_settled 0 (Reply_ok "map")] Demo.posted).
Proof.
  split; [reflexivity |]. split; [reflexivity |].
  by destruct (submit_after_success_needs_new_capture (url_parser := Demo.resolve) Demo.E Demo.href Demo.parse
                 Demo.posted 0 "map" eq_refl eq_refl).
Defined.

Lemma submit_after_failure_sends_same_frame_witness :
  registered_submit Demo.E = true
  ∧ mem 0 (posts (net Demo.posted)) = true
  ∧ failed Reply_not_ok = true
  ∧ cameraImageInput_value (ctl Demo.posted) ≠ ""
  ∧ blob_fetches (net (Demo.run [Post_settled 0 Reply_not_ok; Submit_cameraForm]
                         Demo.posted)) = [(1, "blob:0")].
Proof.
  assert (cameraImageInput_value (ctl Demo.posted) ≠ "") as Hv by (by vm_compute).
  split; [reflexivity |]. split; [reflexivity |]. split; [reflexivity |].
  split; [exact Hv |].
  by destruct (submit_after_failure_sends_same_frame (url_parser := Demo.resolve) Demo.E Demo.href Demo.parse
                 Demo.posted 0 Reply_not_ok eq_refl eq_refl eq_refl Hv).
Defined.

End SubmitMore.

(** * The tabs *)

Module TabsFacts.
Import Dom Tabs DomFacts.

#[local] Arguments node_at : simpl never.
#[local] Arguments String.eqb : simpl never.

(** ** Class lists *)

Lemma existsb_remove_same c cs :
  existsb (String.eqb c) (classList_remove c cs) = false.
Proof.
  induction cs as [|x cs IH]; [done |].
  unfold classList_remove in *. cbn [List.filter].
  destruct (String.eqb x c) eqn:E; simpl; [done |].
  rewrite (String.eqb_sym c x), E. done.
Qed.

Lemma existsb_remove_other c c' cs :
  c' ≠ c →
  existsb (String.eqb c') (classList_remove c cs) = existsb (String.eqb c') cs.
Proof.
  intros Hne. induction cs as [|x cs IH]; [done |].
  unfold classList_remove in *. cbn [List.filter].
  destruct (String.eqb x c) eqn:E; simpl; rewrite IH; [| done].
  apply String.eqb_eq in E as ->.
  by apply String.eqb_neq in Hne as ->.
Qed.

Lemma existsb_add_same c cs :
  existsb (String.eqb c) (classList_add c cs) = true.
Proof.
  unfold classList_add. destruct (existsb (String.eqb c) cs) eqn:E; [done |].
  rewrite existsb_app, E. simpl. by rewrite String.eqb_refl.
Qed.

Lemma existsb_add_other c c' cs :
  c' ≠ c →
  existsb (String.eqb c') (classList_add c cs) = existsb (String.eqb c') cs.
Proof.
  intros Hne. unfold classList_add.
  destruct (existsb (String.eqb c) cs); [done |].
  rewrite existsb_app. simpl.
  apply String.eqb_neq in Hne as ->. by rewrite !orb_false_r.
Qed.

Lemma classList_remove_idemp c cs :
  classList_remove c (classList_remove c cs) = classList_remove c cs.
Proof.
  induction cs as [|x cs IH]; [done |].
  unfold classList_remove in *. cbn [List.filter].
  destruct (String.eqb x c) eqn:E; [done |].
  cbn [List.filter negb]. cbn beta. rewrite E. cbn [negb]. by rewrite IH.
Qed.

(** ** One element changed *)

Lemma node_ind_forall (P : node → Prop) :
  (∀ d, P (Text d)) →
  (∀ t c a kids, Forall P kids → P (Elem t c a kids)) →
  ∀ n, P n.
Proof.
  intros HT HE. fix IH 1. intros [t c a kids|d]; [| apply HT].
  apply HE. induction kids as [|k kids IHk]; constructor; [apply IH | apply IHk].
Qed.

Lemma update_at_cons_cons i j r g l :
  update_at (i :: j :: r) g l
  = alter (λ n, with_children n (update_at (j :: r) g (children n))) i l.
Proof. reflexivity. Qed.

#[local] Arguments update_at : simpl never.

Lemma top_with_children n kids : top (with_children n kids) = top n.
Proof. by destruct n. Qed.

Lemma top_map_classes f n : top (map_classes f n) = map_classes f (top n).
Proof. by destruct n. Qed.

Lemma children_map_classes f n : children (map_classes f n) = children n.
Proof. by destruct n. Qed.

(** The element at [p] is changed by [g]; every other place of the forest
    keeps its element. *)
Lemma node_at_update_at f p : ∀ q l,
  top <$> node_at q (update_at p (map_classes f) l)
  = (if decide (q = p) then map_classes f else id) <$> (top <$> node_at q l).
Proof.
  induction p as [|i p IH]; intros q l.
  - destruct q; [done |]. rewrite decide_False by done.
    change (update_at [] (map_classes f) l) with l.
    by destruct (node_at (n :: q) l).
  - destruct q as [|j q]; [done |].
    destruct (decide (j = i)) as [->|Hne].
    2:{ rewrite decide_False by congruence.
        rewrite (node_at_head_eq j j q _ l).
        - by destruct (node_at (j :: q) l).
        - destruct p; [change (update_at [i] (map_classes f) l)
                         with (alter (map_classes f) i l)
                      | rewrite update_at_cons_cons];
            by rewrite list_lookup_alter_ne. }
    destruct p as [|i' p'].
    + change (update_at [i] (map_classes f) l) with (alter (map_classes f) i l).
      destruct q as [|j' q'].
      * rewrite decide_True by done.
        rewrite !node_at_single, list_lookup_alter_eq.
        destruct (l !! i); simpl; [| done]. by rewrite top_map_classes.
      * rewrite decide_False by done.
        rewrite !node_at_cons_cons, list_lookup_alter_eq.
        destruct (l !! i) as [n|]; simpl; [| done].
        rewrite children_map_classes.
        by destruct (node_at (j' :: q') (children n)).
    + rewrite update_at_cons_cons. destruct q as [|j' q'].
      * rewrite decide_False by done.
        rewrite !node_at_single, list_lookup_alter_eq.
        destruct (l !! i); simpl; [| done]. by rewrite top_with_children.
      * rewrite !node_at_cons_cons, list_lookup_alter_eq.
        destruct (l !! i) as [n|]; simpl.
        2:{ done. }
        destruct n as [t c a kids|d]; simpl.
        -- rewrite IH.
           repeat case_decide; first [done | congruence].
        -- done.
Qed.

Lemma first_in_alter {A B} (f : A → option B) g i l :
  (∀ x, f (g x) = f x) → first_in f (alter g i l) = first_in f l.
Proof.
  intros Hg. revert i. induction l as [|z l IH]; intros i; [done |].
  destruct i as [|i].
  - change (alter g 0 (z :: l)) with (g z :: l). simpl. by rewrite Hg.
  - change (alter g (S i) (z :: l)) with (z :: alter g i l). simpl.
    by rewrite IH.
Qed.

Lemma first_in_map {A B} (f : A → option B) F l :
  Forall (λ x, f (F x) = f x) l → first_in f (List.map F l) = first_in f l.
Proof.
  induction 1 as [|x l Hx _ IH]; [done |]. simpl. by rewrite Hx, IH.
Qed.

Lemma ignores_classes_shallow sel : ignores_classes sel → shallow sel.
Proof. intros H [t c a k|d] kids; [apply H | done]. Qed.

Lemma ignores_classes_map_classes sel f n :
  ignores_classes sel → sel (map_classes f n) = sel n.
Proof. intros H. destruct n; [apply H | done]. Qed.

Lemma has_attr_ignores_classes k v : ignores_classes (has_attr k v).
Proof. by intros t c c' a kids kids'. Qed.

(** A search that does not look at classes finds the same element after a
    change of classes. *)
Lemma query_update_at sel f p :
  ignores_classes sel →
  ∀ l, query sel (update_at p (map_classes f) l) = query sel l.
Proof.
  intros Hsel. induction p as [|i p IH]; intros l; [done |].
  destruct p as [|i' p'].
  - change (update_at [i] (map_classes f) l) with (alter (map_classes f) i l).
    unfold query. rewrite first_in_alter; [done |].
    intros x. unfold hit.
    rewrite ignores_classes_map_classes by done.
    by rewrite !within_query, children_map_classes.
  - rewrite update_at_cons_cons. unfold query.
    rewrite first_in_alter; [done |].
    intros x. unfold hit.
    rewrite (ignores_classes_shallow sel Hsel).
    rewrite !within_query. destruct x; simpl; [by rewrite IH | done].
Qed.

Lemma hit_for_each sel sel' f :
  ignores_classes sel →
  ∀ n, hit sel (for_each sel' f n) = hit sel n.
Proof.
  intros Hsel. induction n as [d|t c a kids IH] using node_ind_forall; [done |].
  unfold hit. simpl for_each.
  rewrite (Hsel t _ c a _ kids).
  destruct (sel (Elem t c a kids)); [done |].
  rewrite !within_query. simpl. unfold query.
  by rewrite first_in_map.
Qed.

Lemma query_for_each sel sel' f l :
  ignores_classes sel →
  query sel (List.map (for_each sel' f) l) = query sel l.
Proof.
  intros Hsel. unfold query. rewrite first_in_map; [done |].
  apply Forall_forall. intros x _. by apply hit_for_each.
Qed.

Lemma children_for_each sel f n :
  children (for_each sel f n) = List.map (for_each sel f) (children n).
Proof. by destruct n. Qed.

Lemma node_at_for_each sel f q : ∀ l,
  node_at q (List.map (for_each sel f) l) = for_each sel f <$> node_at q l.
Proof.
  induction q as [|i q IH]; intros l; [done |].
  destruct q as [|j r].
  - rewrite !node_at_single. apply list_lookup_fmap.
  - rewrite !node_at_cons_cons.
    change (List.map (for_each sel f) l) with (for_each sel f <$> l).
    rewrite list_lookup_fmap.
    destruct (l !! i) as [n|]; simpl; [| done].
    by rewrite children_for_each, IH.
Qed.

Lemma top_for_each sel f n :
  shallow sel →
  top (for_each sel f n) = if sel (top n) then map_classes f (top n) else top n.
Proof.
  intros Hsel. unfold top at 2. rewrite Hsel.
  destruct n as [t c a kids|d]; simpl.
  - by destruct (sel _).
  - by destruct (sel _).
Qed.

(** ** The document *)

Lemma seen_on_node f p d q :
  seen (on_node p (map_classes f) d) q
  = (if decide (q = p) then map_classes f else id) <$> seen d q.
Proof.
  unfold seen.
  destruct p as [p|p], q as [q|q]; simpl;
    try (by destruct (node_at q _));
    rewrite node_at_update_at; repeat case_decide; first [done | congruence].
Qed.

Lemma querySelector_on_node sel f p d :
  ignores_classes sel →
  querySelector sel (on_node p (map_classes f) d) = querySelector sel d.
Proof.
  intros Hsel. unfold querySelector.
  destruct p as [p|p]; simpl; by rewrite query_update_at.
Qed.

Lemma seen_for_each_doc sel f d q :
  shallow sel →
  seen (for_each_doc sel f d) q
  = (λ m, if sel m then map_classes f m else m) <$> seen d q.
Proof.
  intros Hsel. unfold seen.
  destruct q as [q|q]; simpl; rewrite node_at_for_each.
  - destruct (node_at q (doc_head d)); simpl; [| done].
    by rewrite top_for_each.
  - destruct (node_at q (doc_body d)); simpl; [| done].
    by rewrite top_for_each.
Qed.

Lemma querySelector_for_each_doc sel sel' f d :
  ignores_classes sel →
  querySelector sel (for_each_doc sel' f d) = querySelector sel d.
Proof.
  intros Hsel. unfold querySelector. simpl. by rewrite !query_for_each.
Qed.

#[local] Abbreviation deactivate := (map_classes (classList_remove "active")).
#[local] Abbreviation activate := (map_classes (classList_add "active")).

Lemma deactivate_idemp m : deactivate (deactivate m) = deactivate m.
Proof. destruct m; simpl; [| done]. by rewrite classList_remove_idemp. Qed.

Lemma seen_deactivate_all tabs : ∀ d q,
  seen (fold_left (λ d t, on_node t deactivate d) tabs d) q
  = (if bool_decide (q ∈ tabs) then deactivate else id) <$> seen d q.
Proof.
  induction tabs as [|t tabs IH]; intros d q; simpl.
  - by destruct (seen d q).
  - rewrite IH, seen_on_node.
    destruct (seen d q) as [m|]; simpl; [| done]. f_equal.
    destruct (decide (q = t)) as [->|Hne].
    + rewrite (bool_decide_eq_true_2 (t ∈ t :: tabs)) by apply list_elem_of_here.
      case_bool_decide; [apply deactivate_idemp | done].
    + case_bool_decide as Hin.
      * rewrite bool_decide_eq_true_2; [done |].
        by apply list_elem_of_further.
      * rewrite bool_decide_eq_false_2; [done |].
        intros [?|?]%elem_of_cons; done.
Qed.

Lemma querySelector_deactivate_all sel tabs :
  ignores_classes sel →
  ∀ d, querySelector sel (fold_left (λ d t, on_node t deactivate d) tabs d)
       = querySelector sel d.
Proof.
  intros Hsel. induction tabs as [|t tabs IH]; intros d; simpl; [done |].
  by rewrite IH, querySelector_on_node.
Qed.

Lemma dataset_tab_top n : dataset_tab (top n) = dataset_tab n.
Proof. by destruct n. Qed.

Lemma dataset_tab_map_classes f n : dataset_tab (map_classes f n) = dataset_tab n.
Proof. by destruct n. Qed.

Lemma tabId_of_seen d tab :
  tabId_of d tab = from_option dataset_tab "undefined" (seen d tab).
Proof.
  unfold tabId_of, seen. destruct (deref d tab); simpl; [| done].
  by rewrite dataset_tab_top.
Qed.

(** The click handler, with the pane it shows read off the page as it was
    before the click: no step of the handler changes what
    [getElementById] finds, or the [data-tab] of the button. *)
Lemma tab_click_eq tabs tab d :
  tab_click tabs tab d =
  let d3 :=
    for_each_doc (has_class "tab-pane") (classList_remove "active")
      (on_node tab activate
         (fold_left (λ d t, on_node t deactivate d) tabs d)) in
  match target_of d tab with
  | Some target => on_node target activate d3
  | None => d3
  end.
Proof.
  unfold tab_click, target_of, getElementById. cbv zeta.
  rewrite querySelector_for_each_doc, querySelector_on_node,
    querySelector_deactivate_all by apply has_attr_ignores_classes.
  replace (tabId_of (on_node tab activate
             (fold_left (λ d t, on_node t deactivate d) tabs d)) tab)
    with (tabId_of d tab); [done |].
  rewrite !tabId_of_seen, seen_on_node, seen_deactivate_all.
  rewrite decide_True by done.
  destruct (seen d tab) as [m|]; simpl; [| done].
  rewrite dataset_tab_map_classes. by case_bool_decide; simpl;
    rewrite ?dataset_tab_map_classes.
Qed.

#[local] Arguments classList_add : simpl never.
#[local] Arguments classList_remove : simpl never.

(** What a click makes of each element of the page: its class list
    changes as [classes_after] says, and nothing else of it. *)
Lemma seen_after_click tabs tab d q t c a k :
  deref d q = Some (Elem t c a k) →
  seen (tab_click tabs tab d) q
  = Some (Elem t (classes_after tabs tab (target_of d tab) q (Elem t c a k))
               a []).
Proof.
  intros Hn.
  assert (seen d q = Some (Elem t c a [])) as Hseen
    by (unfold seen; by rewrite Hn).
  rewrite tab_click_eq. cbv zeta.
  assert (seen (for_each_doc (has_class "tab-pane") (classList_remove "active")
            (on_node tab activate
               (fold_left (λ d t, on_node t deactivate d) tabs d))) q
          = Some (Elem t (classes_after tabs tab None q (Elem t c a k)) a []))
    as H3.
  { rewrite seen_for_each_doc by apply has_class_shallow.
    rewrite seen_on_node, seen_deactivate_all, Hseen.
    unfold classes_after.
    rewrite (bool_decide_eq_false_2 (None = Some q)) by done.
    cbn [fmap option_fmap option_map classes_of has_class]. f_equal.
    repeat case_decide; repeat case_bool_decide; try congruence;
      cbn [id map_classes has_class];
      rewrite ?existsb_add_other, ?existsb_remove_other by done;
      by destruct (existsb _ c). }
  destruct (target_of d tab) as [target|]; [| exact H3].
  rewrite seen_on_node, H3. unfold classes_after.
  rewrite (bool_decide_eq_false_2 (None = Some q)) by done.
  cbn [fmap option_fmap option_map classes_of has_class]. f_equal.
  repeat case_decide; repeat case_bool_decide; try congruence; done.
Qed.

Lemma seen_Elem d q t cs a :
  seen d q = Some (Elem t cs a []) →
  ∃ k, deref d q = Some (Elem t cs a k).
Proof.
  unfold seen. destruct (deref d q) as [[t' c' a' k'|x]|]; simpl; [| done | done].
  intros [= -> -> ->]. eauto.
Qed.

(** Whether an element is shown as active after a click. *)
Lemma active_after_click tabs tab d q t c a k :
  deref d q = Some (Elem t c a k) →
  active_at (tab_click tabs tab d) q
  = existsb (String.eqb "active")
      (classes_after tabs tab (target_of d tab) q (Elem t c a k)).
Proof.
  intros Hn. apply (seen_after_click tabs tab) in Hn.
  apply seen_Elem in Hn as [k' Hn]. unfold active_at. by rewrite Hn.
Qed.

(** ** What a click shows *)

(** A pane is shown after a click exactly when it is the pane that the
    clicked tab names, whatever was shown before. *)
Theorem click_shows_the_named_pane_only tabs tab d q n :
  deref d q = Some n →
  has_class "tab-pane" n = true →
  active_at (tab_click tabs tab d) q = bool_decide (target_of d tab = Some q).
Proof.
  intros Hn Hpane. destruct n as [t c a k|x]; [| done].
  rewrite (active_after_click _ _ _ _ _ _ _ _ Hn).
  unfold classes_after. rewrite Hpane.
  case_bool_decide.
  - apply existsb_add_same.
  - apply existsb_remove_same.
Qed.

(** After a click, a tab button is marked active exactly when it is the
    clicked one (a button that is itself a pane follows the rule of the
    panes, and so does a button that is the named pane). *)
Theorem click_marks_the_clicked_tab_only tabs tab d q n :
  deref d q = Some n →
  has_class "tab-btn" n = true →
  q ∈ tabs →
  active_at (tab_click tabs tab d) q
  = bool_decide (target_of d tab = Some q)
    || (bool_decide (q = tab) && negb (has_class "tab-pane" n)).
Proof.
  intros Hn Hbtn Hin. destruct n as [t c a k|x]; [| done].
  rewrite (active_after_click _ _ _ _ _ _ _ _ Hn).
  unfold classes_after. rewrite (bool_decide_eq_true_2 _ Hin).
  case_bool_decide; [by rewrite existsb_add_same |].
  cbn [orb].
  destruct (has_class "tab-pane" (Elem t c a k)).
  - by rewrite existsb_remove_same, andb_false_r.
  - rewrite andb_true_r. case_bool_decide.
    + apply existsb_add_same.
    + apply existsb_remove_same.
Qed.

(** A click changes the classes of the tab buttons, of the panes and of
    the named element, and of nothing else. *)
Theorem click_leaves_the_rest tabs tab d q n :
  deref d q = Some n →
  q ∉ tabs → q ≠ tab →
  has_class "tab-pane" n = false →
  target_of d tab ≠ Some q →
  seen (tab_click tabs tab d) q = seen d q.
Proof.
  intros Hn Hout Hne Hpane Htarget.
  destruct n as [t c a k|x].
  - rewrite (seen_after_click _ _ _ _ _ _ _ _ Hn).
    unfold seen. rewrite Hn. simpl. f_equal.
    unfold classes_after. rewrite Hpane.
    by rewrite !bool_decide_eq_false_2.
  - unfold seen at 2. rewrite Hn. rewrite tab_click_eq. cbv zeta.
    assert (seen (for_each_doc (has_class "tab-pane")
                    (classList_remove "active")
              (on_node tab activate
                 (fold_left (λ d t, on_node t deactivate d) tabs d))) q
            = Some (Text x)) as H3.
    { rewrite seen_for_each_doc by apply has_class_shallow.
      rewrite seen_on_node, seen_deactivate_all.
      unfold seen. rewrite Hn.
      rewrite bool_decide_eq_false_2 by done.
      by rewrite decide_False. }
    destruct (target_of d tab) as [target|]; [| exact H3].
    rewrite seen_on_node, H3. rewrite decide_False by congruence. done.
Qed.

(** On the page of the example, a click on the second tab shows the second
    pane and hides the first, marks the second button and leaves the note
    as it was. *)
Lemma click_shows_the_named_pane_only_witness :
  deref page (InBody [1; 0]) = Some (PANE "overview" ["active"])
  ∧ has_class "tab-pane" (PANE "overview" ["active"]) = true
  ∧ active_at (tab_click page_tabs (InBody [0; 1]) page) (InBody [1; 0])
    = bool_decide (target_of page (InBody [0; 1]) = Some (InBody [1; 0])).
Proof.
  split; [reflexivity |]. split; [reflexivity |].
  apply (click_shows_the_named_pane_only page_tabs (InBody [0; 1]) page
           (InBody [1; 0]) (PANE "overview" ["active"]));
    reflexivity.
Defined.

Lemma click_marks_the_clicked_tab_only_witness :
  deref page (InBody [0; 1]) = Some (BUTTON "details" [])
  ∧ has_class "tab-btn" (BUTTON "details" []) = true
  ∧ InBody [0; 1] ∈ page_tabs
  ∧ active_at (tab_click page_tabs (InBody [0; 1]) page) (InBody [0; 1])
    = bool_decide (target_of page (InBody [0; 1]) = Some (InBody [0; 1]))
      || (bool_decide (InBody [0; 1] = InBody [0; 1])
          && negb (has_class "tab-pane" (BUTTON "details" []))).
Proof.
  assert (InBody [0; 1] ∈ page_tabs) as Hin
    by (apply list_elem_of_further, list_elem_of_here).
  split; [reflexivity |]. split; [reflexivity |]. split; [exact Hin |].
  apply (click_marks_the_clicked_tab_only page_tabs (InBody [0; 1]) page
           (InBody [0; 1]) (BUTTON "details" []));
    [reflexivity | reflexivity | exact Hin].
Defined.

Lemma click_leaves_the_rest_witness :
  seen (tab_click page_tabs (InBody [0; 1]) page) (InBody [2])
  = seen page (InBody [2]).
Proof.
  apply (click_leaves_the_rest page_tabs (InBody [0; 1]) page (InBody [2])
           (Elem "p" ["note"; "active"] [] [])).
  - reflexivity.
  - unfold page_tabs. intros H. apply list_elem_of_In in H. simpl in H.
    destruct H as [H | [H | []]]; discriminate H.
  - discriminate.
  - reflexivity.
  - vm_compute. discriminate.
Defined.

End TabsFacts.
